(** * Curve extraction: the lifted shortest-path front end and the local
      refinement front end

    A shallow embedding of
      - [src/matlab/library/curve_segmentation_mex.cpp]  (grid index, settings
        checks, choice of the lifting),
      - [src/matlab/library/edgepair_segmentaion.cpp]    (edge-pair lifting),
      - [src/matlab/library/local_optimization_mex.cpp]  (local refinement).

    Conventions.
      - A C++ [int] is a [Z], and the routines below compute with the sums
        and products of [Z]: they are the values of the code as long as these
        fit an [int] and no divisor is zero.  The statements that depend on
        it say so in a hypothesis ([int_sized], a bound by [INT_MAX], sizes
        above zero).  [Int32] holds the index computations once more, with
        the wrap-around of a 32-bit [int] and the division by zero written
        out, [start_end_sets_int32] and [get_neighbors_torsion_int32] the
        loops of the lifting computed with them, and they are proved to agree
        with the routines in [Z] within these bounds.  [/] and [%] on [int]
        truncate towards zero and are [Z.quot] and [Z.rem].
      - A C++ [double] is a binary64 [float] of the kernel ([PrimFloat]); a
        [float] accumulator holds the doubles that the narrowing conversion
        [fl32] returns, and [fl32] is a parameter.
      - [mexPrintf] appends a line to a log, [mexErrMsgTxt] and a failed
        [ASSERT] abort the call with an error value.  The log holds what
        [mexFunction] itself prints, the lines printed under [VERBOSE]
        included; the formatting of the C library and the clock are
        parameters.  The build is the one without [USE_OPENMP], and the
        marshalling of the result into [plhs] is left out.
      - Where the code reads or writes outside an array or a vector, which
        C++ leaves undefined, the call ends with [UndefinedBehaviour]: the
        embedding says nothing about what the code does from there on.
      - What the sources at hand only declare or call (the cost functors, the
        data term, the search, the two other segmentation routines, the
        solver library) is a parameter of the function that uses it. *)

From Stdlib Require Import ZArith List Bool Lia String PrimFloat Uint63.
From Stdlib Require Import SpecFloat FloatOps FloatAxioms.
Import ListNotations.
Open Scope Z_scope.

(** ** Grid index ([curve_segmentation_mex.cpp], lines 20-67) *)

(** The globals [M], [N], [O] of the translation unit, passed explicitly. *)
Record Grid : Type := mkGrid { gridM : Z; gridN : Z; gridO : Z }.

(** [Mesh::Point]: a voxel with integer coordinates. *)
Record Point : Type := mkPoint { px : Z; py : Z; pz : Z }.

Definition validind (g : Grid) (n1 n2 n3 : Z) : bool :=
  if ((n1 >? gridM g - 1) || (n2 >? gridN g - 1) || (n3 >? gridO g - 1))
     || ((n1 <? 0) || (n2 <? 0) || (n3 <? 0))
  then false
  else true.

(** Line 43, in the arithmetic of [Z]: the value of the code while the
    number of voxels is at most [INT_MAX] ([int32_sub2ind_exact]). *)
Definition sub2ind (g : Grid) (n1 n2 n3 : Z) : Z :=
  n1 + n2 * gridM g + n3 * gridM g * gridN g.

(** Lines 53-55 and 62-64, in the arithmetic of [Z], for sizes [M] and [N]
    above zero: the code divides by [M*N] and by [M], and has no value when
    one of them is zero ([Int32.ind2sub], [int32_ind2sub_exact]). *)
Definition ind2sub (g : Grid) (n : Z) : Z * Z * Z :=
  let z := Z.quot n (gridM g * gridN g) in
  let y := Z.quot (n - z * gridM g * gridN g) (gridM g) in
  let x := n - y * gridM g - z * gridM g * gridN g in
  (x, y, z).

Definition make_point (g : Grid) (n : Z) : Point :=
  let z := Z.quot n (gridM g * gridN g) in
  let y := Z.quot (n - z * gridM g * gridN g) (gridM g) in
  let x := n - y * gridM g - z * gridM g * gridN g in
  mkPoint x y z.

(** [sub2ind(Mesh::Point)] and [validind(Mesh::Point)]. *)
Definition sub2ind_point (g : Grid) (p : Point) : Z :=
  sub2ind g (px p) (py p) (pz p).

Definition validind_point (g : Grid) (p : Point) : bool :=
  validind g (px p) (py p) (pz p).

(** Number of voxels of the grid. *)
Definition numel (g : Grid) : Z := gridM g * gridN g * gridO g.

(** ** Host-side containers and results *)

(** The mex wrapper's [matrix<T>] is not part of the sources at hand: an
    array with its sizes [M], [N], [O], its number of dimensions and its data
    in column-major order, read with [m(i,j,k)].  [mat_inside] tells
    whether an element lies in the array; [mat_get] is used where it does,
    and gives a default value elsewhere. *)
Record matrix (A : Type) : Type := mkMatrix {
  mat_M : Z;
  mat_N : Z;
  mat_O : Z;
  mat_ndim : Z;
  mat_data : list A
}.
Arguments mkMatrix {A} _ _ _ _ _.
Arguments mat_M {A} _.
Arguments mat_N {A} _.
Arguments mat_O {A} _.
Arguments mat_ndim {A} _.
Arguments mat_data {A} _.

Definition mat_numel {A : Type} (m : matrix A) : Z :=
  mat_M m * mat_N m * mat_O m.

Definition mat_get {A : Type} (dflt : A) (m : matrix A) (i j k : Z) : A :=
  let index := i + j * mat_M m + k * mat_M m * mat_N m in
  if index <? 0 then dflt else nth (Z.to_nat index) (mat_data m) dflt.

(** The element [m(i,j,k)] lies among the [M*N*O] elements of the array. *)
Definition mat_inside {A : Type} (m : matrix A) (i j k : Z) : bool :=
  let index := i + j * mat_M m + k * mat_M m * mat_N m in
  (0 <=? index) && (index <? mat_numel m).

(** [connectivity(e, c)]: component [c] of the offset number [e]. *)
Definition conn (connectivity : matrix Z) (e c : Z) : Z :=
  mat_get 0 connectivity e c 0.

(** [mesh_map(x, y, z)]: 0 disallowed, 1 allowed, 2 start set, 3 end set. *)
Definition label (mesh_map : matrix Z) (x y z : Z) : Z :=
  mat_get 0 mesh_map x y z.

(** How a call ends when it does not return: a failed [ASSERT], a call of
    [mexErrMsgTxt], a lookup that fails in a library, a search cut off at its
    queue cap, or a [std::runtime_error] thrown.  [UndefinedBehaviour] is no
    error of the code: it marks the place where the code reads or writes
    outside an array or a vector, after which C++ defines no behaviour. *)
Inductive error : Type :=
  | AssertionFailed (condition : string)
  | MexError (message : string)
  | OutOfRange (what : string)
  | ResourceExhausted
  | Exception (what : string)
  | UndefinedBehaviour (what : string).

Inductive result (A : Type) : Type :=
  | Ok (a : A)
  | Err (e : error).
Arguments Ok {A} _.
Arguments Err {A} _.

Definition bind {A B : Type} (r : result A) (k : A -> result B) : result B :=
  match r with
  | Ok a => k a
  | Err e => Err e
  end.

Notation "x <- r ;; k" := (bind r (fun x => k))
  (at level 61, r at next level, right associativity).

Definition ASSERT (condition : bool) (text : string) : result unit :=
  if condition then Ok tt else Err (AssertionFailed text).

(** The message of [edgepair_segmentation] when the search has no path. *)
Definition NoSolution : error := MexError "No solution! (Remove this warning)".

(** [for (int i = 0; i < n; i++) body], the loop state passed along. *)
Definition zseq (n : Z) : list Z := map Z.of_nat (seq 0 (Z.to_nat n)).

Definition for_loop {S : Type} (n : Z) (body : Z -> S -> S) (s : S) : S :=
  fold_left (fun acc i => body i acc) (zseq n) s.

(** The same loop with a body that can end the call. *)
Definition for_loop_result {S : Type} (n : Z) (body : Z -> S -> result S)
    (s : S) : result S :=
  fold_left (fun acc i => s <- acc ;; body i s) (zseq n) (Ok s).

(** [std::set<int>]: kept in increasing order, without repetition. *)
Fixpoint set_insert (x : Z) (s : list Z) : list Z :=
  match s with
  | [] => [x]
  | y :: t =>
      if x <? y then x :: s
      else if x =? y then s
      else y :: set_insert x t
  end.

(** A set is in strictly increasing order. *)
Inductive increasing : list Z -> Prop :=
  | increasing_nil : increasing []
  | increasing_cons (a : Z) (s : list Z) :
      (forall b, In b s -> a < b) -> increasing s -> increasing (a :: s).

(** ** Edge-pair lifting ([edgepair_segmentaion.cpp]) *)

(** Lines 9-28, in the arithmetic of [Z], for a template that holds an
    offset: the code divides by [connectivity.M] and by its square, and has
    no value when there is none ([Int32.decompose_edgepair],
    [int32_decompose_exact]). *)
Definition decompose_edgepair (edge_num : Z) (connectivity : matrix Z) : Z * Z :=
  let divisor := mat_M connectivity in
  let root_node := Z.quot edge_num divisor in
  let edge_id := Z.rem edge_num divisor in
  (root_node, edge_id).

Definition decompose_pair_of_edgepairs (edgepair_num : Z)
    (connectivity : matrix Z) : Z * Z :=
  let divisor := mat_M connectivity * mat_M connectivity in
  let root_node := Z.quot edgepair_num divisor in
  let edgepair_id := Z.rem edgepair_num divisor in
  (root_node, edgepair_id).

Definition points_in_a_edgepair (g : Grid) (edgepair_num : Z)
    (connectivity : matrix Z) : Z * Z * Z :=
  let '(root, edgepair_id) := decompose_pair_of_edgepairs edgepair_num connectivity in
  let '(e1, e2) := decompose_edgepair edgepair_id connectivity in
  let '(x, y, z) := ind2sub g root in
  let x2 := x + conn connectivity e1 0 in
  let y2 := y + conn connectivity e1 1 in
  let z2 := z + conn connectivity e1 2 in
  let x3 := x2 + conn connectivity e2 0 in
  let y3 := y2 + conn connectivity e2 1 in
  let z3 := z2 + conn connectivity e2 2 in
  let q2 := sub2ind g x2 y2 z2 in
  let q3 := sub2ind g x3 y3 z3 in
  (root, q2, q3).

Definition pairpath_to_points (g : Grid) (path : list Z)
    (connectivity : matrix Z) : list Point :=
  let point_vector :=
    match path with
    | path0 :: _ =>
        let '(p1, p2, _) := points_in_a_edgepair g path0 connectivity in
        [make_point g p1; make_point g p2]
    | [] => []
    end in
  fold_left
    (fun point_vector path_i =>
       let '(_, _, p3) := points_in_a_edgepair g path_i connectivity in
       point_vector ++ [make_point g p3])
    path point_vector.

(** ** The [int] of the compiler *)

Definition INT_MAX : Z := 2147483647.
Definition INT_MIN : Z := -2147483648.

(** A result outside [INT_MIN, INT_MAX] comes back modulo 2^32. *)
Definition wrap (z : Z) : Z := (z - INT_MIN) mod 4294967296 + INT_MIN.

(** The index computations of the two files, operation by operation in the
    order C++ evaluates them, on 32-bit [int]: every sum, difference and
    product wraps around, and a division by zero has no value. *)
Module Int32.

Definition add (a b : Z) : Z := wrap (a + b).
Definition sub (a b : Z) : Z := wrap (a - b).
Definition mul (a b : Z) : Z := wrap (a * b).

Definition div (a b : Z) : option Z :=
  if b =? 0 then None else Some (wrap (Z.quot a b)).

Definition rem (a b : Z) : option Z :=
  if b =? 0 then None else Some (wrap (Z.rem a b)).

(** [curve_segmentation_mex.cpp], line 43. *)
Definition sub2ind (g : Grid) (n1 n2 n3 : Z) : Z :=
  add (add n1 (mul n2 (gridM g))) (mul (mul n3 (gridM g)) (gridN g)).

(** [curve_segmentation_mex.cpp], lines 53-55. *)
Definition ind2sub (g : Grid) (n : Z) : option (Z * Z * Z) :=
  match div n (mul (gridM g) (gridN g)) with
  | None => None
  | Some z =>
      match div (sub n (mul (mul z (gridM g)) (gridN g))) (gridM g) with
      | None => None
      | Some y =>
          let x := sub (sub n (mul y (gridM g)))
                       (mul (mul z (gridM g)) (gridN g)) in
          Some (x, y, z)
      end
  end.

(** [curve_segmentation_mex.cpp], lines 62-66. *)
Definition make_point (g : Grid) (n : Z) : option Point :=
  match ind2sub g n with
  | Some (x, y, z) => Some (mkPoint x y z)
  | None => None
  end.

(** [edgepair_segmentaion.cpp], lines 9-17 and 19-28. *)
Definition decompose_edgepair (edge_num : Z) (connectivity : matrix Z)
    : option (Z * Z) :=
  let divisor := mat_M connectivity in
  match div edge_num divisor, rem edge_num divisor with
  | Some root_node, Some edge_id => Some (root_node, edge_id)
  | _, _ => None
  end.

Definition decompose_pair_of_edgepairs (edgepair_num : Z)
    (connectivity : matrix Z) : option (Z * Z) :=
  let divisor := mul (mat_M connectivity) (mat_M connectivity) in
  match div edgepair_num divisor, rem edgepair_num divisor with
  | Some root_node, Some edgepair_id => Some (root_node, edgepair_id)
  | _, _ => None
  end.

(** [edgepair_segmentaion.cpp], lines 31-56. *)
Definition points_in_a_edgepair (g : Grid) (edgepair_num : Z)
    (connectivity : matrix Z) : option (Z * Z * Z) :=
  match decompose_pair_of_edgepairs edgepair_num connectivity with
  | None => None
  | Some (root, edgepair_id) =>
      match decompose_edgepair edgepair_id connectivity with
      | None => None
      | Some (e1, e2) =>
          match ind2sub g root with
          | None => None
          | Some (x, y, z) =>
              let x2 := add x (conn connectivity e1 0) in
              let y2 := add y (conn connectivity e1 1) in
              let z2 := add z (conn connectivity e1 2) in
              let x3 := add x2 (conn connectivity e2 0) in
              let y3 := add y2 (conn connectivity e2 1) in
              let z3 := add z2 (conn connectivity e2 2) in
              let q2 := sub2ind g x2 y2 z2 in
              let q3 := sub2ind g x3 y3 z3 in
              Some (root, q2, q3)
          end
      end
  end.

(** [edgepair_segmentaion.cpp], lines 104-107. *)
Definition num_edges (mesh_map connectivity : matrix Z) : Z :=
  let num_elements := wrap (mat_numel mesh_map) in
  let num_points_per_element :=
    mul (mat_M connectivity) (mat_M connectivity) in
  mul num_points_per_element num_elements.

(** [edgepair_segmentaion.cpp], lines 142-143. *)
Definition pair_id (g : Grid) (connectivity : matrix Z)
    (x1 y1 z1 e1 e2 : Z) : Z :=
  add (add (mul (sub2ind g x1 y1 z1)
                (mul (mat_M connectivity) (mat_M connectivity)))
           (mul (mat_M connectivity) e1))
      e2.

(** [edgepair_segmentaion.cpp], lines 252-255. *)
Definition dest (g : Grid) (connectivity : matrix Z)
    (x2 y2 z2 e2 e3 : Z) : Z :=
  let edge_pair_id := add (mul (mat_M connectivity) e2) e3 in
  add (mul (sub2ind g x2 y2 z2)
           (mul (mat_M connectivity) (mat_M connectivity)))
      edge_pair_id.

End Int32.

(** [Neighbor(destination, cost)] as pushed by a neighbour callback. *)
Record Neighbor : Type := mkNeighbor {
  neighbor_dest : Z;
  neighbor_cost : float
}.

Record ShortestPathOptions : Type := mkShortestPathOptions {
  print_progress : bool;
  maximum_queue_size : Z;
  store_visited : bool
}.

Record InstanceSettings : Type := mkInstanceSettings {
  length_penalty : float;
  curvature_penalty : float;
  torsion_penalty : float;
  curvature_power : float;
  torsion_power : float;
  regularization_radius : float;
  store_visit_time : bool;
  VERBOSE : bool
}.

(** What a search hands back: the cost, the state path (empty when no goal
    was reached) and the number of times it called the neighbour callback. *)
Record SearchOutput : Type := mkSearchOutput {
  search_cost : float;
  search_path : list Z;
  search_calls : Z
}.

(** What a segmentation routine writes through its reference arguments
    ([run_time] is wall-clock time and is left out). *)
Record Segmentation : Type := mkSegmentation {
  seg_points : list Point;
  seg_evaluations : Z;
  seg_cost : float
}.

(** A neighbour callback: the state to expand and the vector it pushes to. *)
Definition NeighborCallback : Type := Z -> list Neighbor -> list Neighbor.

(** The search routine, as [edgepair_segmentation] calls it: number of
    states, start set, goal set, callback, options. *)
Definition ShortestPath : Type :=
  Z -> list Z -> list Z -> NeighborCallback -> ShortestPathOptions ->
  result SearchOutput.

Definition Segment : Type := Z -> Z -> Z -> Z -> Z -> Z -> float.
Definition Triple : Type := Z -> Z -> Z -> Z -> Z -> Z -> Z -> Z -> Z -> float.
Definition Quadruple : Type :=
  Z -> Z -> Z -> Z -> Z -> Z -> Z -> Z -> Z -> Z -> Z -> Z -> float.

Section EdgePair.

(** The cost functors, the data term and the search are declared in
    [curve_segmentation.h] and defined elsewhere; the narrowing of a
    [double] to a [float] is [fl32]. *)
Variable fl32 : float -> float.
Variable length_cost_functor : list float -> float -> Segment.
Variable curvature_cost_functor : list float -> float -> float -> Triple.
Variable torsion_cost_functor : list float -> float -> float -> Quadruple.
Variable shortest_path : ShortestPath.

(** [float cost = e;] and [cost += e;] with [e] a [double]. *)
Definition float_init (e : float) : float := fl32 e.
Definition float_add_assign (cost e : float) : float :=
  fl32 (PrimFloat.add cost e).

(** Lines 109-152: the start and end sets read off the mesh map.  The
    coordinates and [pair_id] are computed in the arithmetic of [Z]: the
    values of the code when [int_sized] holds and the mesh map has the sizes
    of the grid ([start_end_sets_int32], [start_end_sets_on_int]). *)
Definition start_end_sets (g : Grid) (mesh_map : matrix Z)
    (connectivity : matrix Z) : list Z * list Z :=
  for_loop (mat_numel mesh_map)
    (fun n sets =>
       let '(x1, y1, z1) := ind2sub g n in
       for_loop (mat_M connectivity)
         (fun e1 sets =>
            let x2 := x1 + conn connectivity e1 0 in
            let y2 := y1 + conn connectivity e1 1 in
            let z2 := z1 + conn connectivity e1 2 in
            if negb (validind g x2 y2 z2) then sets
            else
              for_loop (mat_M connectivity)
                (fun e2 sets =>
                   let x3 := x2 + conn connectivity e2 0 in
                   let y3 := y2 + conn connectivity e2 1 in
                   let z3 := z2 + conn connectivity e2 2 in
                   if (x1 =? x3) && (y1 =? y3) && (z1 =? z3) then sets
                   else if negb (validind g x3 y3 z3) then sets
                   else
                     let pair_id :=
                       sub2ind g x1 y1 z1
                         * (mat_M connectivity * mat_M connectivity)
                       + mat_M connectivity * e1 + e2 in
                     let '(start_set_pairs, end_set_pairs) := sets in
                     let start_set_pairs :=
                       if label mesh_map x1 y1 z1 =? 2
                       then set_insert pair_id start_set_pairs
                       else start_set_pairs in
                     let end_set_pairs :=
                       if label mesh_map x3 y3 z3 =? 3
                       then set_insert pair_id end_set_pairs
                       else end_set_pairs in
                     (start_set_pairs, end_set_pairs))
                sets)
         sets)
    ([], []).

(** Lines 161-259: the neighbour callback.  The counter [evaluations] it
    increments is the number of calls, which the search reports.  The
    decoding of [ep], the coordinates and [dest] are computed in the
    arithmetic of [Z]: the values of the code when [int_sized] holds, the
    mesh map has the sizes of the grid and the voxels of [ep] lie in the grid
    ([get_neighbors_torsion_int32], [usual_case_on_int],
    [super_case_on_int]). *)
Definition get_neighbors_torsion (g : Grid)
    (data_term : Segment)
    (e_super : Z) (connectivity : matrix Z) (start_set_pairs : list Z)
    (length_cost : Segment) (curvature_cost : Triple)
    (torsion_cost : Quadruple) : NeighborCallback :=
  fun ep neighbors =>
    if ep =? e_super then
      fold_left
        (fun neighbors itr =>
           let '(q1, q2, q3) := points_in_a_edgepair g itr connectivity in
           let '(x2, y2, z2) := ind2sub g q1 in
           let '(x3, y3, z3) := ind2sub g q2 in
           let '(x4, y4, z4) := ind2sub g q3 in
           let cost := float_init (data_term x2 y2 z2 x3 y3 z3) in
           let cost := float_add_assign cost (data_term x3 y3 z3 x4 y4 z4) in
           let cost :=
             float_add_assign cost (curvature_cost x2 y2 z2 x3 y3 z3 x4 y4 z4) in
           let cost := float_add_assign cost (length_cost x2 y2 z2 x3 y3 z3) in
           let cost := float_add_assign cost (length_cost x3 y3 z3 x4 y4 z4) in
           neighbors ++ [mkNeighbor itr cost])
        start_set_pairs neighbors
    else
      let '(root, edgepair_id) := decompose_pair_of_edgepairs ep connectivity in
      let '(e1, e2) := decompose_edgepair edgepair_id connectivity in
      let '(x1, y1, z1) := ind2sub g root in
      let x2 := x1 + conn connectivity e1 0 in
      let y2 := y1 + conn connectivity e1 1 in
      let z2 := z1 + conn connectivity e1 2 in
      let x3 := x2 + conn connectivity e2 0 in
      let y3 := y2 + conn connectivity e2 1 in
      let z3 := z2 + conn connectivity e2 2 in
      for_loop (mat_M connectivity)
        (fun e3 neighbors =>
           let x4 := x3 + conn connectivity e3 0 in
           let y4 := y3 + conn connectivity e3 1 in
           let z4 := z3 + conn connectivity e3 2 in
           if negb (validind g x4 y4 z4) then neighbors
           else if (x2 =? x4) && (y2 =? y4) && (z2 =? z4) then neighbors
           else
             let cost := float_init (data_term x3 y3 z3 x4 y4 z4) in
             let cost := float_add_assign cost (length_cost x3 y3 z3 x4 y4 z4) in
             let cost :=
               float_add_assign cost
                 (torsion_cost x1 y1 z1 x2 y2 z2 x3 y3 z3 x4 y4 z4) in
             let cost :=
               float_add_assign cost
                 (curvature_cost x2 y2 z2 x3 y3 z3 x4 y4 z4) in
             let edge_pair_id := mat_M connectivity * e2 + e3 in
             let dest :=
               sub2ind g x2 y2 z2 * (mat_M connectivity * mat_M connectivity)
               + edge_pair_id in
             neighbors ++ [mkNeighbor dest cost])
        neighbors.

(** Lines 109-152 once more, on 32-bit [int]: the decoding of [n], the
    coordinates and [pair_id] with the wrap-around of every operation and the
    division by zero written out; the loops run over [n], [e1] and [e2] as
    they do in the code while the number of voxels is at most [INT_MAX].  It
    gives the sets of [start_end_sets] when [int_sized] holds and the mesh
    map has the sizes of the grid ([start_end_sets_on_int]). *)
Definition start_end_sets_int32 (g : Grid) (mesh_map : matrix Z)
    (connectivity : matrix Z) : option (list Z * list Z) :=
  for_loop (mat_numel mesh_map)
    (fun n found =>
       match found with
       | None => None
       | Some sets =>
           match Int32.ind2sub g n with
           | None => None
           | Some (x1, y1, z1) =>
               Some
                 (for_loop (mat_M connectivity)
                    (fun e1 sets =>
                       let x2 := Int32.add x1 (conn connectivity e1 0) in
                       let y2 := Int32.add y1 (conn connectivity e1 1) in
                       let z2 := Int32.add z1 (conn connectivity e1 2) in
                       if negb (validind g x2 y2 z2) then sets
                       else
                         for_loop (mat_M connectivity)
                           (fun e2 sets =>
                              let x3 := Int32.add x2 (conn connectivity e2 0) in
                              let y3 := Int32.add y2 (conn connectivity e2 1) in
                              let z3 := Int32.add z2 (conn connectivity e2 2) in
                              if (x1 =? x3) && (y1 =? y3) && (z1 =? z3)
                              then sets
                              else if negb (validind g x3 y3 z3) then sets
                              else
                                let pair_id :=
                                  Int32.pair_id g connectivity x1 y1 z1 e1 e2 in
                                let '(start_set_pairs, end_set_pairs) := sets in
                                let start_set_pairs :=
                                  if label mesh_map x1 y1 z1 =? 2
                                  then set_insert pair_id start_set_pairs
                                  else start_set_pairs in
                                let end_set_pairs :=
                                  if label mesh_map x3 y3 z3 =? 3
                                  then set_insert pair_id end_set_pairs
                                  else end_set_pairs in
                                (start_set_pairs, end_set_pairs))
                           sets)
                    sets)
           end
       end)
    (Some ([], [])).

(** Lines 161-259 once more, on 32-bit [int]: the decoding of the state, the
    coordinates and [dest] with the wrap-around of every operation and the
    division by zero written out.  It pushes what [get_neighbors_torsion]
    pushes for the super-state and for a state with its voxels in the grid
    when [int_sized] holds and the mesh map has the sizes of the grid
    ([super_case_on_int], [usual_case_on_int]). *)
Definition get_neighbors_torsion_int32 (g : Grid)
    (data_term : Segment)
    (e_super : Z) (connectivity : matrix Z) (start_set_pairs : list Z)
    (length_cost : Segment) (curvature_cost : Triple)
    (torsion_cost : Quadruple)
    (ep : Z) (neighbors : list Neighbor) : option (list Neighbor) :=
  if ep =? e_super then
    fold_left
      (fun pushed itr =>
         match pushed with
         | None => None
         | Some neighbors =>
             match Int32.points_in_a_edgepair g itr connectivity with
             | None => None
             | Some (q1, q2, q3) =>
                 match Int32.ind2sub g q1, Int32.ind2sub g q2,
                       Int32.ind2sub g q3 with
                 | Some (x2, y2, z2), Some (x3, y3, z3), Some (x4, y4, z4) =>
                     let cost := float_init (data_term x2 y2 z2 x3 y3 z3) in
                     let cost :=
                       float_add_assign cost (data_term x3 y3 z3 x4 y4 z4) in
                     let cost :=
                       float_add_assign cost
                         (curvature_cost x2 y2 z2 x3 y3 z3 x4 y4 z4) in
                     let cost :=
                       float_add_assign cost (length_cost x2 y2 z2 x3 y3 z3) in
                     let cost :=
                       float_add_assign cost (length_cost x3 y3 z3 x4 y4 z4) in
                     Some (neighbors ++ [mkNeighbor itr cost])
                 | _, _, _ => None
                 end
             end
         end)
      start_set_pairs (Some neighbors)
  else
    match Int32.decompose_pair_of_edgepairs ep connectivity with
    | None => None
    | Some (root, edgepair_id) =>
        match Int32.decompose_edgepair edgepair_id connectivity with
        | None => None
        | Some (e1, e2) =>
            match Int32.ind2sub g root with
            | None => None
            | Some (x1, y1, z1) =>
                let x2 := Int32.add x1 (conn connectivity e1 0) in
                let y2 := Int32.add y1 (conn connectivity e1 1) in
                let z2 := Int32.add z1 (conn connectivity e1 2) in
                let x3 := Int32.add x2 (conn connectivity e2 0) in
                let y3 := Int32.add y2 (conn connectivity e2 1) in
                let z3 := Int32.add z2 (conn connectivity e2 2) in
                Some
                  (for_loop (mat_M connectivity)
                     (fun e3 neighbors =>
                        let x4 := Int32.add x3 (conn connectivity e3 0) in
                        let y4 := Int32.add y3 (conn connectivity e3 1) in
                        let z4 := Int32.add z3 (conn connectivity e3 2) in
                        if negb (validind g x4 y4 z4) then neighbors
                        else if (x2 =? x4) && (y2 =? y4) && (z2 =? z4)
                        then neighbors
                        else
                          let cost :=
                            float_init (data_term x3 y3 z3 x4 y4 z4) in
                          let cost :=
                            float_add_assign cost
                              (length_cost x3 y3 z3 x4 y4 z4) in
                          let cost :=
                            float_add_assign cost
                              (torsion_cost x1 y1 z1 x2 y2 z2 x3 y3 z3 x4 y4 z4) in
                          let cost :=
                            float_add_assign cost
                              (curvature_cost x2 y2 z2 x3 y3 z3 x4 y4 z4) in
                          let dest :=
                            Int32.dest g connectivity x2 y2 z2 e2 e3 in
                          neighbors ++ [mkNeighbor dest cost])
                     neighbors)
            end
        end
    end.

(** Lines 81-293.  [num_edges] and the count [num_edges+1] are computed in
    the arithmetic of [Z]: the values of the code when [int_sized] holds
    ([Int32.num_edges], [int32_num_edges_exact]).  The lines the routine
    prints under [VERBOSE] (265-266 and 285-292) and the running time are not
    part of what it returns. *)
Definition edgepair_segmentation (g : Grid)
    (mesh_map : matrix Z) (data_term : Segment)
    (connectivity : matrix Z) (settings : InstanceSettings)
    (voxeldimensions : list float) (options : ShortestPathOptions)
    : result Segmentation :=
  let length_cost :=
    length_cost_functor voxeldimensions (length_penalty settings) in
  let curvature_cost :=
    curvature_cost_functor voxeldimensions (curvature_penalty settings)
      (curvature_power settings) in
  let torsion_cost :=
    torsion_cost_functor voxeldimensions (torsion_penalty settings)
      (torsion_power settings) in
  let num_elements := mat_numel mesh_map in
  let num_points_per_element := mat_M connectivity * mat_M connectivity in
  let num_edges := num_points_per_element * num_elements in
  let '(start_set_pairs, end_set_pairs) :=
    start_end_sets g mesh_map connectivity in
  let e_super := num_edges in
  let super_edge := set_insert e_super [] in
  out <- shortest_path (num_edges + 1) super_edge end_set_pairs
           (get_neighbors_torsion g data_term e_super connectivity
              start_set_pairs length_cost curvature_cost torsion_cost)
           options ;;
  let evaluations := 0 + search_calls out in
  let cost := search_cost out in
  let path_pairs := search_path out in
  if (Z.of_nat (List.length path_pairs) =? 0) then Err NoSolution
  else
    let path_pairs := tl path_pairs in
    let points := pairpath_to_points g path_pairs connectivity in
    Ok (mkSegmentation points evaluations cost).

End EdgePair.

(** ** Vocabulary of the statements *)

(** The offset number [e] of the connectivity template, and the voxel reached
    from [p] by that offset. *)
Definition offset (connectivity : matrix Z) (e : Z) : Point :=
  mkPoint (conn connectivity e 0) (conn connectivity e 1) (conn connectivity e 2).

Definition move (p : Point) (connectivity : matrix Z) (e : Z) : Point :=
  mkPoint (px p + conn connectivity e 0)
          (py p + conn connectivity e 1)
          (pz p + conn connectivity e 2).

Definition point_eqb (a b : Point) : bool :=
  (px a =? px b) && (py a =? py b) && (pz a =? pz b).

(** The index of the pair of edges [e1], [e2] leaving the node [root]
    (lines 3-7 of [edgepair_segmentaion.cpp]). *)
Definition edgepair_index (connectivity : matrix Z) (root e1 e2 : Z) : Z :=
  root * (mat_M connectivity * mat_M connectivity)
  + mat_M connectivity * e1 + e2.

(** A state decoded into its root and its two edges, and its three voxels. *)
Definition state_root (connectivity : matrix Z) (s : Z) : Z :=
  fst (decompose_pair_of_edgepairs s connectivity).

Definition state_e1 (connectivity : matrix Z) (s : Z) : Z :=
  fst (decompose_edgepair
         (snd (decompose_pair_of_edgepairs s connectivity)) connectivity).

Definition state_e2 (connectivity : matrix Z) (s : Z) : Z :=
  snd (decompose_edgepair
         (snd (decompose_pair_of_edgepairs s connectivity)) connectivity).

Definition pt0 (g : Grid) (connectivity : matrix Z) (s : Z) : Point :=
  make_point g (state_root connectivity s).

Definition pt1 (g : Grid) (connectivity : matrix Z) (s : Z) : Point :=
  move (pt0 g connectivity s) connectivity (state_e1 connectivity s).

Definition pt2 (g : Grid) (connectivity : matrix Z) (s : Z) : Point :=
  move (pt1 g connectivity s) connectivity (state_e2 connectivity s).

(** The cost functors applied to voxels. *)
Definition on_segment (f : Segment) (a b : Point) : float :=
  f (px a) (py a) (pz a) (px b) (py b) (pz b).

Definition on_triple (f : Triple) (a b c : Point) : float :=
  f (px a) (py a) (pz a) (px b) (py b) (pz b) (px c) (py c) (pz c).

Definition on_quadruple (f : Quadruple) (a b c d : Point) : float :=
  f (px a) (py a) (pz a) (px b) (py b) (pz b)
    (px c) (py c) (pz c) (px d) (py d) (pz d).

(** The terms of a cost added up, in order, in a [float] accumulator. *)
Definition float_sum (fl32 : float -> float) (terms : list float) : float :=
  match terms with
  | [] => 0%float
  | t :: ts => fold_left (float_add_assign fl32) ts (float_init fl32 t)
  end.


(** A state whose root is a voxel of the grid and whose second and third
    voxels are in bounds. *)
Definition feasible (g : Grid) (connectivity : matrix Z) (s : Z) : bool :=
  (0 <=? s) && (0 <? mat_M connectivity)
  && (state_root connectivity s <? numel g)
  && validind_point g (pt1 g connectivity s)
  && validind_point g (pt2 g connectivity s).

(** No offset of the template is the zero vector. *)
Definition nonzero_offsets (connectivity : matrix Z) : bool :=
  forallb (fun e => negb (point_eqb (offset connectivity e) (mkPoint 0 0 0)))
          (zseq (mat_M connectivity)).

Fixpoint no_consecutive_duplicates (points : list Point) : bool :=
  match points with
  | [] => true
  | a :: rest =>
      match rest with
      | [] => true
      | b :: _ => negb (point_eqb a b)
      end && no_consecutive_duplicates rest
  end.

(** [b] is reached from [a] by an offset of the template. *)
Definition template_move (connectivity : matrix Z) (a b : Point) : bool :=
  existsb (fun e => point_eqb b (move a connectivity e))
          (zseq (mat_M connectivity)).

Fixpoint connected_chain (connectivity : matrix Z) (points : list Point) : bool :=
  match points with
  | [] => true
  | a :: rest =>
      match rest with
      | [] => true
      | b :: _ => template_move connectivity a b
      end && connected_chain connectivity rest
  end.

(** [t] is the destination of a neighbour pushed when [s] is expanded. *)
Definition successor_of (callback : NeighborCallback) (s t : Z) : bool :=
  existsb (fun nb => neighbor_dest nb =? t) (callback s []).

Fixpoint is_state_chain (callback : NeighborCallback) (path : list Z) : bool :=
  match path with
  | [] => true
  | s :: rest =>
      match rest with
      | [] => true
      | t :: _ => successor_of callback s t
      end && is_state_chain callback rest
  end.

Definition memb (x : Z) (s : list Z) : bool := existsb (Z.eqb x) s.

(** Modelled from the spec: the contract of [shortest_path], which is not
    part of the sources at hand, on the path it returns (section 4.5).  The
    path is empty when no goal is reachable, and otherwise it leads from a
    start state to a goal state, each state being a neighbour pushed by the
    callback for the state before it. *)
Definition search_contract (start_set goal_set : list Z)
    (callback : NeighborCallback) (path : list Z) : bool :=
  match path with
  | [] => true
  | s :: _ =>
      memb s start_set && is_state_chain callback path
      && memb (last path s) goal_set
  end.

(** The arguments [edgepair_segmentation] passes to the search (lines
    104-107 and 157), in the arithmetic of [Z]: the value of the code when
    [int_sized] holds ([int32_num_edges_exact]). *)
Definition num_edges (mesh_map connectivity : matrix Z) : Z :=
  mat_M connectivity * mat_M connectivity * mat_numel mesh_map.

(** The template holds [int]s, as a [matrix<int>] does. *)
Definition int_entries (connectivity : matrix Z) : bool :=
  forallb (fun c => (INT_MIN <=? c) && (c <=? INT_MAX)) (mat_data connectivity).

(** The sizes for which the index computations of the lifting stay within
    [int]: the number of voxels, the square of the number of offsets, and the
    number of states, the super-state and the count that is handed to the
    search included. *)
Definition int_sized (mesh_map connectivity : matrix Z) : bool :=
  (0 <=? mat_M connectivity) && (0 <=? mat_numel mesh_map)
  && (mat_M connectivity * mat_M connectivity <=? INT_MAX)
  && (mat_numel mesh_map <=? INT_MAX)
  && (num_edges mesh_map connectivity + 1 <=? INT_MAX)
  && int_entries connectivity.

Section EdgePairCallback.

Variable fl32 : float -> float.
Variable length_cost_functor : list float -> float -> Segment.
Variable curvature_cost_functor : list float -> float -> float -> Triple.
Variable torsion_cost_functor : list float -> float -> float -> Quadruple.

Definition edgepair_callback (g : Grid)
    (mesh_map : matrix Z) (data_term : Segment)
    (connectivity : matrix Z) (settings : InstanceSettings)
    (voxeldimensions : list float) : NeighborCallback :=
  get_neighbors_torsion fl32 g data_term
    (num_edges mesh_map connectivity) connectivity
    (fst (start_end_sets g mesh_map connectivity))
    (length_cost_functor voxeldimensions (length_penalty settings))
    (curvature_cost_functor voxeldimensions (curvature_penalty settings)
       (curvature_power settings))
    (torsion_cost_functor voxeldimensions (torsion_penalty settings)
       (torsion_power settings)).

(** The callback on 32-bit [int], with the same captures. *)
Definition edgepair_callback_int32 (g : Grid)
    (mesh_map : matrix Z) (data_term : Segment)
    (connectivity : matrix Z) (settings : InstanceSettings)
    (voxeldimensions : list float)
    : Z -> list Neighbor -> option (list Neighbor) :=
  get_neighbors_torsion_int32 fl32 g data_term
    (num_edges mesh_map connectivity) connectivity
    (fst (start_end_sets g mesh_map connectivity))
    (length_cost_functor voxeldimensions (length_penalty settings))
    (curvature_cost_functor voxeldimensions (curvature_penalty settings)
       (curvature_power settings))
    (torsion_cost_functor voxeldimensions (torsion_penalty settings)
       (torsion_power settings)).

End EdgePairCallback.


Definition label_at (mesh_map : matrix Z) (p : Point) : Z :=
  label mesh_map (px p) (py p) (pz p).

(** The pair (root, e1, e2) is one the loop of lines 116-152 reaches its
    insertions with: its second and third voxels are in bounds and the third
    is not the first. *)
Definition admissible_pair (g : Grid) (connectivity : matrix Z)
    (root e1 e2 : Z) : Prop :=
  let p0 := make_point g root in
  let p1 := move p0 connectivity e1 in
  let p2 := move p1 connectivity e2 in
  validind_point g p1 = true /\ point_eqb p0 p2 = false /\
  validind_point g p2 = true.


(** The start set or the end set of the pair built by [start_end_sets]. *)
Definition pick (first : bool) (sets : list Z * list Z) : list Z :=
  if first then fst sets else snd sets.

(** The call of the search made by [edgepair_segmentation] (lines 269-275). *)
Definition edgepair_search
    (fl32 : float -> float)
    (length_cost_functor : list float -> float -> Segment)
    (curvature_cost_functor : list float -> float -> float -> Triple)
    (torsion_cost_functor : list float -> float -> float -> Quadruple)
    (shortest_path : ShortestPath) (g : Grid)
    (mesh_map : matrix Z) (data_term : Segment)
    (connectivity : matrix Z) (settings : InstanceSettings)
    (voxeldimensions : list float) (options : ShortestPathOptions)
    : result SearchOutput :=
  shortest_path (num_edges mesh_map connectivity + 1)
    [num_edges mesh_map connectivity]
    (snd (start_end_sets g mesh_map connectivity))
    (edgepair_callback fl32 length_cost_functor curvature_cost_functor
       torsion_cost_functor g mesh_map data_term connectivity settings
       voxeldimensions)
    options.


(** ** The search *)

(** Modelled from the spec: the open set of [shortest_path], a routine that
    is declared in [curve_segmentation.h] and defined outside the sources at
    hand.  An entry holds a state, its tentative distance and the parent
    pointer recorded when it was relaxed (spec, section 4.5). *)
Record OpenEntry : Type := mkOpenEntry {
  open_state : Z;
  open_dist : float;
  open_parent : option Z
}.

(** Modelled from the spec: the state of the search of [shortest_path]: the
    open set, the finalized states with their parent pointers (latest first)
    and the number of calls of the callback. *)
Record SearchState : Type := mkSearchState {
  open_set : list OpenEntry;
  closed_set : list (Z * option Z);
  callback_calls : Z
}.

Fixpoint parent_of (s : Z) (closed : list (Z * option Z)) : option (option Z) :=
  match closed with
  | [] => None
  | (t, p) :: rest => if t =? s then Some p else parent_of s rest
  end.

Definition is_closed (s : Z) (closed : list (Z * option Z)) : bool :=
  match parent_of s closed with
  | Some _ => true
  | None => false
  end.

(** The first entry of least tentative distance. *)
Fixpoint least_entry (best : OpenEntry) (entries : list OpenEntry) : OpenEntry :=
  match entries with
  | [] => best
  | e :: rest =>
      if PrimFloat.ltb (open_dist e) (open_dist best)
      then least_entry e rest
      else least_entry best rest
  end.

Definition remove_entry (s : Z) (entries : list OpenEntry) : list OpenEntry :=
  filter (fun e => negb (open_state e =? s)) entries.

(** Relaxation of one neighbour of the state [s] finalized at distance [d]. *)
Fixpoint relax_open (s : Z) (dist : float) (t : Z) (entries : list OpenEntry)
    : list OpenEntry :=
  match entries with
  | [] => [mkOpenEntry t dist (Some s)]
  | e :: rest =>
      if open_state e =? t
      then (if PrimFloat.ltb dist (open_dist e)
            then mkOpenEntry t dist (Some s) :: rest
            else e :: rest)
      else e :: relax_open s dist t rest
  end.

Definition relax (s : Z) (d : float) (closed : list (Z * option Z))
    (entries : list OpenEntry) (nb : Neighbor) : list OpenEntry :=
  if is_closed (neighbor_dest nb) closed then entries
  else relax_open s (PrimFloat.add d (neighbor_cost nb)) (neighbor_dest nb) entries.

(** The path to [s] along the parent pointers.  The closed states are kept
    latest first, and a parent is finalized before its children. *)
Fixpoint path_to (closed : list (Z * option Z)) (s : Z) (suffix : list Z)
    : list Z :=
  match closed with
  | [] => s :: suffix
  | (t, parent) :: earlier =>
      if t =? s then
        match parent with
        | Some p => path_to earlier p (s :: suffix)
        | None => s :: suffix
        end
      else path_to earlier s suffix
  end.

(** Modelled from the spec: one round of [shortest_path] finalizes the open
    state of least tentative distance; the search stops with success when it
    is a goal state, and otherwise expands it through the callback, relaxes
    its neighbours and fails if the open set has grown past the queue cap.
    An empty open set ends the search with an empty path. *)
Fixpoint search_loop (fuel : nat) (goal_set : list Z)
    (get_neighbors : NeighborCallback) (options : ShortestPathOptions)
    (st : SearchState) : result SearchOutput :=
  match fuel with
  | 0%nat => Err (OutOfRange "state")
  | S fuel' =>
      match open_set st with
      | [] => Ok (mkSearchOutput PrimFloat.infinity [] (callback_calls st))
      | first :: others =>
          let e := least_entry first others in
          let s := open_state e in
          let closed := (s, open_parent e) :: closed_set st in
          if existsb (Z.eqb s) goal_set
          then Ok (mkSearchOutput (open_dist e) (path_to closed s [])
                     (callback_calls st))
          else
            let neighbors := get_neighbors s [] in
            let entries :=
              fold_left (relax s (open_dist e) closed) neighbors
                (remove_entry s (open_set st)) in
            if maximum_queue_size options <? Z.of_nat (List.length entries)
            then Err ResourceExhausted
            else search_loop fuel' goal_set get_neighbors options
                   (mkSearchState entries closed (callback_calls st + 1))
      end
  end.

(** Modelled from the spec: [shortest_path], which is declared in
    [curve_segmentation.h] and defined outside the sources at hand.  Section
    4.5 of the spec: a best-first search over an abstract state space, all
    start states at cost 0, the neighbours computed on demand by the
    callback; states are finalized in nondecreasing order of tentative
    distance; the search stops as soon as a goal state is finalized and
    returns its distance and the path rebuilt from the parent pointers
    recorded at relaxation time; it fails when the open set grows past the
    queue cap; it counts the calls of the callback; it returns an empty path
    when no goal is reachable.  Ties are broken by the order of insertion.
    One round finalizes one state, so [n + 1] rounds exhaust [n] states. *)
Definition shortest_path_model : ShortestPath :=
  fun n start_set goal_set get_neighbors options =>
    search_loop (S (Z.to_nat n)) goal_set get_neighbors options
      (mkSearchState
         (map (fun s => mkOpenEntry s 0%float None) start_set) [] 0).


(** ** The entry point of the search ([curve_segmentation_mex.cpp]) *)

(** A call that prints: the log of [mexPrintf] is passed along, an error
    stops the call. *)
Definition Mex (A : Type) : Type := list string -> result A * list string.

Definition mex_ret {A : Type} (a : A) : Mex A := fun log => (Ok a, log).

Definition mex_bind {A B : Type} (m : Mex A) (k : A -> Mex B) : Mex B :=
  fun log =>
    match m log with
    | (Ok a, log') => k a log'
    | (Err e, log') => (Err e, log')
    end.

Notation "x <-- m ;; k" := (mex_bind m (fun x => k))
  (at level 61, m at next level, right associativity).

Definition mexPrintf (text : string) : Mex unit :=
  fun log => (Ok tt, log ++ [text]).

Definition mexErrMsgTxt {A : Type} (message : string) : Mex A :=
  fun log => (Err (MexError message), log).

Definition mex_lift {A : Type} (r : result A) : Mex A := fun log => (r, log).

Definition mex_assert (condition : bool) (text : string) : Mex unit :=
  mex_lift (ASSERT condition text).

Definition mex_when (condition : bool) (m : Mex unit) : Mex unit :=
  if condition then m else mex_ret tt.

Definition newline : string := String (Ascii.ascii_of_nat 10) EmptyString.

Definition torsion_warning : string :=
  ("Torsion is always zero in a plane. " ++ newline)%string.

Definition PointSets : Type := list (list Point).

(** The arguments of a formatted [mexPrintf]. *)
Inductive PrintfArg : Type :=
  | IntArg (n : Z)
  | DoubleArg (x : float)
  | StringArg (s : string).

(** What [mexFunction] receives: the numbers [nlhs] and [nrhs] of results
    and of arguments, the three arrays (there when [nrhs] is at least 3), the
    settings and voxel dimensions as read from the parameter structure, the
    optional cell arrays of extra start and end points, and the global
    [VERBOSE] of line 3 as the reading of the parameters leaves it. *)
Record MexArguments : Type := mkMexArguments {
  arg_nlhs : Z;
  arg_nrhs : Z;
  arg_mesh_map : matrix Z;
  arg_unary : matrix float;
  arg_connectivity : matrix Z;
  arg_settings : InstanceSettings;
  arg_voxeldimensions : list float;
  arg_start_sets : option (list (matrix float));
  arg_end_sets : option (list (matrix float));
  arg_VERBOSE : bool
}.

Definition set_torsion_penalty (settings : InstanceSettings) (value : float)
    : InstanceSettings :=
  mkInstanceSettings (length_penalty settings) (curvature_penalty settings)
    value (curvature_power settings) (torsion_power settings)
    (regularization_radius settings) (store_visit_time settings)
    (VERBOSE settings).

(** [x != 0] on a [double]. *)
Definition nonzero (x : float) : bool := negb (PrimFloat.eqb x 0%float).

(** Lines 156-165. *)
Definition use_pairs (settings : InstanceSettings) : bool :=
  if nonzero (torsion_penalty settings) then true else false.

Definition use_edges (settings : InstanceSettings) : bool :=
  if nonzero (torsion_penalty settings) then false
  else if nonzero (curvature_penalty settings) then true
  else false.

(** The three kinds of variables of the graph (lines 287-293). *)
Inductive Lifting : Type :=
  | EdgePairLifting
  | EdgeLifting
  | NodeLifting.

Definition selected_lifting (settings : InstanceSettings) : Lifting :=
  if use_pairs settings then EdgePairLifting
  else if use_edges settings then EdgeLifting
  else NodeLifting.

(** The signature shared by [edge_segmentation] and [node_segmentation]. *)
Definition SegmentationRoutine : Type :=
  Grid -> matrix Z -> Segment -> matrix Z -> InstanceSettings ->
  PointSets -> PointSets -> list float -> ShortestPathOptions ->
  result Segmentation.

Section FindPath.

Variable fl32 : float -> float.
Variable length_cost_functor : list float -> float -> Segment.
Variable curvature_cost_functor : list float -> float -> float -> Triple.
Variable torsion_cost_functor : list float -> float -> float -> Quadruple.
Variable shortest_path : ShortestPath.

(** Defined elsewhere: the data term built from the unary array, the two
    other segmentation routines, and [Mesh::Point] built from doubles. *)
Variable PieceWiseConstant : list float -> Z -> Z -> Z -> list float -> Segment.
Variable edge_segmentation : SegmentationRoutine.
Variable node_segmentation : SegmentationRoutine.
Variable Mesh_Point : float -> float -> float -> Point.

(** The text the C library makes of a format and its arguments, and the time
    the clock gives between line 92 and line 236. *)
Variable sprintf : string -> list PrintfArg -> string.
Variable reading_time : float.

(** Lines 170-233: one cell array of extra points. *)
Definition read_point_sets (message : string)
    (sets_cell : option (list (matrix float))) : Mex PointSets :=
  match sets_cell with
  | None => mex_ret []
  | Some elements =>
      fold_left
        (fun (acc : Mex PointSets) (points_matrix : matrix float) =>
           sets <-- acc ;;
           if mat_N points_matrix =? 3 then
             mex_ret (sets ++
               [map (fun j => Mesh_Point
                                (mat_get 0%float points_matrix j 0 0)
                                (mat_get 0%float points_matrix j 1 0)
                                (mat_get 0%float points_matrix j 2 0))
                    (zseq (mat_M points_matrix))])
           else if mat_N points_matrix =? 2 then
             mex_ret (sets ++
               [map (fun j => Mesh_Point
                                (mat_get 0%float points_matrix j 0 0)
                                (mat_get 0%float points_matrix j 1 0)
                                0%float)
                    (zseq (mat_M points_matrix))])
           else mexErrMsgTxt message)
        elements (mex_ret [])
  end.

(** Lines 287-312: the routine of the selected lifting is run. *)
Definition run_lifting (g : Grid) (mesh_map : matrix Z) (data_term : Segment)
    (connectivity : matrix Z) (settings : InstanceSettings)
    (start_sets end_sets : PointSets) (voxeldimensions : list float)
    (options : ShortestPathOptions) : result Segmentation :=
  if use_pairs settings then
    edgepair_segmentation fl32 length_cost_functor curvature_cost_functor
      torsion_cost_functor shortest_path g mesh_map data_term connectivity
      settings voxeldimensions options
  else if use_edges settings then
    edge_segmentation g mesh_map data_term connectivity settings
      start_sets end_sets voxeldimensions options
  else
    node_segmentation g mesh_map data_term connectivity settings
      start_sets end_sets voxeldimensions options.

(** Lines 149-154: no torsion for 2D. *)
Definition downgrade_torsion (mesh_map : matrix Z) (settings : InstanceSettings)
    : Mex InstanceSettings :=
  if (mat_ndim mesh_map =? 2) && nonzero (torsion_penalty settings) then
    _ <-- mexPrintf torsion_warning ;;
    mex_ret (set_torsion_penalty settings 0%float)
  else mex_ret settings.

(** Lines 94-147: the checks on the input; the grid sizes [M], [N], [O] are
    set from the unary array and the voxel dimensions default to 1. *)
Definition check_arguments (a : MexArguments) : Mex (Grid * list float) :=
  _ <-- mex_assert (arg_nlhs a =? 1) "nlhs == 1" ;;
  _ <-- mex_assert (arg_nrhs a >=? 3) "nrhs >= 3" ;;
  let mesh_map := arg_mesh_map a in
  let unary := arg_unary a in
  let connectivity := arg_connectivity a in
  _ <-- mex_assert (mat_N connectivity =? 3) "connectivity.N == 3" ;;
  _ <-- mex_assert (mat_ndim connectivity =? 2) "connectivity.ndim() == 2" ;;
  let g := mkGrid (mat_M unary) (mat_N unary) (mat_O unary) in
  _ <-- mex_when (negb (mat_ndim mesh_map =? 2) && negb (mat_ndim mesh_map =? 3))
          (mexErrMsgTxt ("only 2d and 3d grid supported " ++ newline)) ;;
  let settings := arg_settings a in
  let voxeldimensions :=
    match arg_voxeldimensions a with
    | [] => [1%float; 1%float; 1%float]
    | v => v
    end in
  _ <-- mex_assert (Z.of_nat (List.length voxeldimensions) =? 3)
          "voxeldimensions.size() == 3" ;;
  _ <-- mex_assert (PrimFloat.ltb 0%float (regularization_radius settings))
          "settings.regularization_radius > 0" ;;
  _ <-- mex_assert (mat_ndim mesh_map =? mat_ndim unary)
          "mesh_map.ndim() == unary.ndim()" ;;
  _ <-- mex_assert (mat_M mesh_map =? mat_M unary) "mesh_map.M == unary.M" ;;
  _ <-- mex_assert (mat_N mesh_map =? mat_N unary) "mesh_map.N == unary.N" ;;
  _ <-- mex_assert (mat_O mesh_map =? mat_O unary) "mesh_map.O == unary.O" ;;
  _ <-- mex_assert (PrimFloat.leb 0%float (length_penalty settings))
          "settings.length_penalty >= 0" ;;
  _ <-- mex_assert (PrimFloat.leb 0%float (curvature_penalty settings))
          "settings.curvature_penalty >= 0" ;;
  _ <-- mex_assert (PrimFloat.leb 0%float (torsion_penalty settings))
          "settings.torsion_penalty >= 0" ;;
  mex_ret (g, voxeldimensions).

(** Lines 156-312: the extra start and end sets are read, the data term is
    built and the routine of the selected lifting is run; under [VERBOSE]
    the size of the template (line 167), the time taken so far (line 235)
    and the coefficients (lines 279-284) are printed on the way. *)
Definition run_query (a : MexArguments) (g : Grid)
    (voxeldimensions : list float) (settings : InstanceSettings)
    : Mex Segmentation :=
  let unary := arg_unary a in
  _ <-- mex_when (arg_VERBOSE a)
          (mexPrintf
             (sprintf ("Connectivity size is %d. " ++ newline)
                [IntArg (mat_M (arg_connectivity a))])) ;;
  start_sets <-- read_point_sets "Error in defined start sets."
                   (arg_start_sets a) ;;
  end_sets <-- read_point_sets "Error in defined end sets." (arg_end_sets a) ;;
  _ <-- mex_when (arg_VERBOSE a)
          (mexPrintf
             (sprintf ("%s : %g (s). " ++ newline)
                [StringArg "Reading data"; DoubleArg reading_time])) ;;
  let options := mkShortestPathOptions false (1000 * 1000 * 1000) false in
  let data_term :=
    PieceWiseConstant (mat_data unary) (mat_M unary) (mat_N unary)
      (mat_O unary) voxeldimensions in
  _ <-- mex_when (store_visit_time settings)
          (mexErrMsgTxt "store_visit_time is not supported yet.") ;;
  _ <-- mex_when (arg_VERBOSE a)
          (_ <-- mexPrintf
                   (sprintf
                      ("Regularization coefficients. Length: %g Curvature: %g Torsion: %g "
                       ++ newline)
                      [DoubleArg (length_penalty settings);
                       DoubleArg (curvature_penalty settings);
                       DoubleArg (torsion_penalty settings)]) ;;
           mexPrintf
             (sprintf
                ("Regularization powers: curvature: %g torsion %g " ++ newline)
                [DoubleArg (curvature_power settings);
                 DoubleArg (torsion_power settings)])) ;;
  mex_lift (run_lifting g (arg_mesh_map a) data_term (arg_connectivity a)
              settings start_sets end_sets voxeldimensions options).

Definition mexFunction (a : MexArguments) : Mex Segmentation :=
  checked <-- check_arguments a ;;
  settings <-- downgrade_torsion (arg_mesh_map a) (arg_settings a) ;;
  run_query a (fst checked) (snd checked) settings.

End FindPath.


(** ** Concrete inputs *)

Module Examples.

(** The costs below are small integers, which the narrowing to [float]
    leaves as they are. *)
Definition no_rounding : float -> float := fun x => x.

(** A data term that is zero everywhere, a length cost of [penalty] per
    move, no curvature and no torsion cost. *)
Definition zero_data : list float -> Z -> Z -> Z -> list float -> Segment :=
  fun _ _ _ _ _ _ _ _ _ _ _ => 0%float.

Definition per_move : list float -> float -> Segment :=
  fun _ penalty _ _ _ _ _ _ => penalty.

Definition no_curvature : list float -> float -> float -> Triple :=
  fun _ _ _ _ _ _ _ _ _ _ _ _ => 0%float.

Definition no_torsion : list float -> float -> float -> Quadruple :=
  fun _ _ _ _ _ _ _ _ _ _ _ _ _ _ _ => 0%float.

Definition no_routine : SegmentationRoutine :=
  fun _ _ _ _ _ _ _ _ _ => Err (MexError "not an edge-pair query").

(** A stand-in for the edge and node routines: it returns no point and, as
    its cost, the torsion penalty it was called with. *)
Definition echo_routine : SegmentationRoutine :=
  fun _ _ _ _ settings _ _ _ _ =>
    Ok (mkSegmentation [] 0 (torsion_penalty settings)).

Definition point_of_doubles : float -> float -> float -> Point :=
  fun _ _ _ => mkPoint 0 0 0.

(** A stand-in for the formatting: the format, its arguments left out. *)
Definition format_only : string -> list PrintfArg -> string :=
  fun format _ => format.

(** A grid of 5 x 1 x 2 voxels and the moves along x and along z. *)
Definition grid : Grid := mkGrid 5 1 2.

Definition moves : matrix Z :=
  mkMatrix 4 3 1 2 [1; -1; 0; 0;   0; 0; 0; 0;   0; 0; 1; -1].

(** Start at x = 0, end at x = 4, everything else allowed. *)
Definition open_map : matrix Z :=
  mkMatrix 5 1 2 3 [2; 1; 1; 1; 3;   2; 1; 1; 1; 3].

(** The same with the plane x = 2 disallowed: it separates start from end. *)
Definition walled_map : matrix Z :=
  mkMatrix 5 1 2 3 [2; 1; 0; 1; 3;   2; 1; 0; 1; 3].

Definition zero_unary : matrix float :=
  mkMatrix 5 1 2 3 (repeat 0%float 10).

Definition settings : InstanceSettings :=
  mkInstanceSettings 1%float 0%float 1%float 2%float 2%float 1%float false false.

Definition options : ShortestPathOptions :=
  mkShortestPathOptions false (1000 * 1000 * 1000) false.

Definition callback (g : Grid) (mesh_map connectivity : matrix Z)
    : NeighborCallback :=
  edgepair_callback no_rounding per_move no_curvature no_torsion g mesh_map
    (zero_data [] 0 0 0 []) connectivity settings [].

(** A whole query and the search it runs. *)
Definition find_path (mesh_map : matrix Z) (unary : matrix float)
    (connectivity : matrix Z) : result Segmentation * list string :=
  mexFunction no_rounding per_move no_curvature no_torsion shortest_path_model
    zero_data no_routine no_routine point_of_doubles format_only 0%float
    (mkMexArguments 1 3 mesh_map unary connectivity settings [] None None
       false) [].

Definition search (g : Grid) (mesh_map connectivity : matrix Z)
    : result SearchOutput :=
  edgepair_search no_rounding per_move no_curvature no_torsion shortest_path_model
    g mesh_map (zero_data [] 0 0 0 []) connectivity settings [] options.

Definition segmentation (g : Grid) (mesh_map connectivity : matrix Z)
    : result Segmentation :=
  edgepair_segmentation no_rounding per_move no_curvature no_torsion
    shortest_path_model g mesh_map (zero_data [] 0 0 0 []) connectivity
    settings [] options.

(** Two slices of 2 x 1 voxels, start at x = 0 and end at x = 1, with a
    template that holds the zero offset and the move +1 along x. *)
Definition small : Grid := mkGrid 2 1 2.

Definition small_map : matrix Z := mkMatrix 2 1 2 3 [2; 3;   2; 3].

Definition small_unary : matrix float := mkMatrix 2 1 2 3 (repeat 0%float 4).

Definition with_zero_offset : matrix Z := mkMatrix 2 3 1 2 [0; 1;  0; 0;  0; 0].

(** A 2-D query: a 3 x 3 image with a torsion penalty of 1. *)
Definition flat_map : matrix Z := mkMatrix 3 3 1 2 [2; 1; 1;  1; 1; 1;  1; 1; 3].

Definition flat_unary : matrix float := mkMatrix 3 3 1 2 (repeat 0%float 9).

Definition flat_moves : matrix Z :=
  mkMatrix 4 3 1 2 [1; -1; 0; 0;   0; 0; 1; -1;   0; 0; 0; 0].

Definition flat_arguments : MexArguments :=
  mkMexArguments 1 3 flat_map flat_unary flat_moves settings [] None None
    false.

(** A cube of 1000 x 1000 x 1000 voxels: with the 4 moves it has 16 * 10^9
    states.  A plane of 65536 x 4096 voxels: with the 4 moves it has 2^32
    states.  Of their mesh maps the sizes alone are given. *)
Definition cube : Grid := mkGrid 1000 1000 1000.

Definition cube_map : matrix Z := mkMatrix 1000 1000 1000 3 [].

Definition wide : Grid := mkGrid 65536 4096 1.

Definition wide_map : matrix Z := mkMatrix 65536 4096 1 2 [].

End Examples.


(** The decoding in the words of the spec (section 4.2), to be compared with
    [pairpath_to_points]: the first two points of the first state, then the
    third point of every state after the first. *)
Definition decode_as_worded (g : Grid) (path : list Z)
    (connectivity : matrix Z) : list Point :=
  match path with
  | [] => []
  | s :: rest =>
      let '(p1, p2, _) := points_in_a_edgepair g s connectivity in
      make_point g p1 :: make_point g p2
        :: map (fun t =>
                  let '(_, _, p3) := points_in_a_edgepair g t connectivity in
                  make_point g p3)
               rest
  end.


(** ** Local refinement ([local_optimization_mex.cpp]) *)

Module LocalOptimization.

(** [struct Point { double xyz[3]; }] *)
Record Point : Type := mkPoint { xyz0 : float; xyz1 : float; xyz2 : float }.

Inductive Unary_type : Type := trilinear | linear.
Inductive Solver_method : Type := newton | lbfgs | nelder_mead.
Inductive Factorization_method : Type := bkp | iterative.

(** The fields read from the parameter structure, defaults applied. *)
Record Params : Type := mkParams {
  unary_type : string;
  local_solver : string;
  factorization_method : string;
  function_improvement_tolerance : float;
  argument_improvement_tolerance : float;
  maxiter : Z
}.

(** [std::max], [std::min] and the conversion of an [int] to a [double]. *)
Definition std_max (a b : float) : float := if PrimFloat.ltb a b then b else a.
Definition std_min (a b : float) : float := if PrimFloat.ltb b a then b else a.

Definition double_of_int (z : Z) : float :=
  if z <? 0 then PrimFloat.opp (PrimFloat.of_uint63 (Uint63.of_Z (- z)))
  else PrimFloat.of_uint63 (Uint63.of_Z z).

(** The double nearest to 0.1. *)
Definition magic_one_offset : float := 0x1.999999999999ap-4%float.

(** The objective of the solver library (spii), as this file uses it: the
    variables in the order they were added, each with its box and a flag set
    by [set_constant], and the terms over the variables.  A variable is known
    by the index of the point it points to. *)
Record Var : Type := mkVar {
  value : Point;
  lower_bound : list float;
  upper_bound : list float;
  constant : bool
}.

Inductive Term : Type :=
  | UnaryTerm (i j : Z)
  | LengthTerm (i j : Z)
  | CurvatureTerm (i j k : Z)
  | TorsionTerm (i j k l : Z).

Record Objective : Type := mkObjective {
  variables : list Var;
  terms : list Term
}.

Record SolverSetup : Type := mkSolverSetup {
  method : Solver_method;
  factorization : Factorization_method;
  maximum_iterations : Z;
  function_tolerance : float;
  argument_tolerance : float
}.

(** What [mexFunction_main] returns: the rows of [resulting_path], of which
    the first [dim] coordinates are columns of the array, and the cost. *)
Record Refinement : Type := mkRefinement {
  resulting_path : list Point;
  resulting_dim : Z;
  o_cost : float
}.

Definition add_variable_with_change (f : Objective) (p : Point)
    (lower upper : list float) : Objective :=
  mkObjective (variables f ++ [mkVar p lower upper false]) (terms f).

Definition add_term (f : Objective) (t : Term) : Objective :=
  mkObjective (variables f) (terms f ++ [t]).

Fixpoint mark_constant (i : nat) (vars : list Var) : list Var :=
  match vars, i with
  | [], _ => []
  | v :: rest, 0%nat =>
      mkVar (value v) (lower_bound v) (upper_bound v) true :: rest
  | v :: rest, S i' => v :: mark_constant i' rest
  end.

(** [points[k]] on a vector of [size] elements. *)
Definition vector_at (size k : Z) : result Z :=
  if (0 <=? k) && (k <? size) then Ok k
  else Err (UndefinedBehaviour "points[k]").

(** [f.set_constant(p, true)] for the variable number [i]: the library
    looks the variable up. *)
Definition set_constant (f : Objective) (i : Z) : result Objective :=
  if (0 <=? i) && (i <? Z.of_nat (List.length (variables f)))
  then Ok (mkObjective (mark_constant (Z.to_nat i) (variables f)) (terms f))
  else Err (OutOfRange "set_constant").

(** [for (int i = first; i < n; ++i) f.add_term(...)] *)
Definition add_terms (first n : Z) (term_at : Z -> Term) (f : Objective)
    : Objective :=
  fold_left (fun f k => add_term f (term_at (first + k))) (zseq (n - first)) f.

Section Solver.

(** The minimiser of the solver library proposes a value for every variable;
    [evaluate] is the value of the objective. *)
Variable minimise : SolverSetup -> Objective -> list Point.
Variable evaluate : Objective -> float.

(** [solver->solve(f, &results)]: a constant variable keeps its value. *)
Fixpoint update (vars : list Var) (proposed : list Point) : list Var :=
  match vars with
  | [] => []
  | v :: rest =>
      let v' :=
        if constant v then v
        else
          match proposed with
          | p :: _ => mkVar p (lower_bound v) (upper_bound v) (constant v)
          | [] => v
          end in
      v' :: update rest (tl proposed)
  end.

Definition solve (setup : SolverSetup) (f : Objective) : Objective :=
  mkObjective (update (variables f) (minimise setup f)) (terms f).

(** Lines 242-244 read [path(i,0)], [path(i,1)] and [path(i,2)]: all three
    lie in the array. *)
Definition row_inside (path : matrix float) (i : Z) : bool :=
  mat_inside path i 0 0 && mat_inside path i 1 0 && mat_inside path i 2 0.

(** Lines 242-255: the point made of row [i] of the path, for a row that
    [row_inside] holds of. *)
Definition initial_point (unary_matrix : matrix float) (path : matrix float)
    (i : Z) : Point :=
  let x := PrimFloat.sub (mat_get PrimFloat.nan path i 0 0) 1%float in
  let y := PrimFloat.sub (mat_get PrimFloat.nan path i 1 0) 1%float in
  let z := PrimFloat.sub (mat_get PrimFloat.nan path i 2 0) 1%float in
  let x := std_max x magic_one_offset in
  let y := std_max y magic_one_offset in
  let z := std_max z magic_one_offset in
  let x :=
    std_min x (PrimFloat.sub
                 (PrimFloat.sub (double_of_int (mat_M unary_matrix)) 1%float)
                 magic_one_offset) in
  let y :=
    std_min y (PrimFloat.sub
                 (PrimFloat.sub (double_of_int (mat_N unary_matrix)) 1%float)
                 magic_one_offset) in
  let z :=
    std_min z (PrimFloat.sub
                 (PrimFloat.sub (double_of_int (mat_O unary_matrix)) 1%float)
                 magic_one_offset) in
  mkPoint x y z.

(** Lines 376-382: a row of the path returned. *)
Definition resulting_row (p : Point) : Point :=
  mkPoint (PrimFloat.add (xyz0 p) 1%float) (PrimFloat.add (xyz1 p) 1%float)
          (PrimFloat.add (xyz2 p) 1%float).

(** Lines 147-401, for a call with three arguments ([nrhs == 3], line
    152).  A row of the path is read (lines 242-244) and a row of the result
    is written (lines 376-382) in three columns, whatever [dim] is, and
    [points[0]], [points[1]], [points[n-2]] and [points[n-1]] are taken from
    a vector of [n] points (lines 261-265).  What the call prints under
    [settings.VERBOSE] and the time it takes are not part of the result. *)
Definition mexFunction_main (unary_matrix : matrix float) (path : matrix float)
    (params : Params) (settings : InstanceSettings)
    : result Refinement :=
  unary_kind <-
    (if String.eqb (unary_type params) "linear" then Ok linear
     else if String.eqb (unary_type params) "trilinear" then Ok trilinear
     else Err (Exception "Unknown unary type")) ;;
  solver_method <-
    (if String.eqb (local_solver params) "newton" then Ok newton
     else if String.eqb (local_solver params) "lbfgs" then Ok lbfgs
     else if String.eqb (local_solver params) "nelder_mead" then Ok nelder_mead
     else Err (Exception "Unknown Solver")) ;;
  factorization_kind <-
    (if String.eqb (factorization_method params) "iterative" then Ok iterative
     else if String.eqb (factorization_method params) "bkp" then Ok bkp
     else Err (Exception "Unknown factorization method")) ;;
  let n := mat_M path in
  let dim := mat_N path in
  _ <- ASSERT ((dim =? 2) || (dim =? 3)) "(dim == 2) || (dim == 3)" ;;
  let lower_bound :=
    if mat_O unary_matrix =? 1
    then [0%float; 0%float; PrimFloat.opp 1%float]
    else [0%float; 0%float; 0%float] in
  let upper_bound :=
    if mat_O unary_matrix =? 1
    then [double_of_int (mat_M unary_matrix - 1);
          double_of_int (mat_N unary_matrix - 1); 1%float]
    else [double_of_int (mat_M unary_matrix - 1);
          double_of_int (mat_N unary_matrix - 1);
          double_of_int (mat_O unary_matrix - 1)] in
  f <-
    for_loop_result n
      (fun i f =>
         if row_inside path i
         then Ok (add_variable_with_change f
                    (initial_point unary_matrix path i)
                    lower_bound upper_bound)
         else Err (UndefinedBehaviour "path(i,j)"))
      (mkObjective [] []) ;;
  k <- vector_at n 0 ;;
  f <- set_constant f k ;;
  k <- vector_at n 1 ;;
  f <- set_constant f k ;;
  k <- vector_at n (n - 2) ;;
  f <- set_constant f k ;;
  k <- vector_at n (n - 1) ;;
  f <- set_constant f k ;;
  f <-
    match unary_kind with
    | linear => Ok (add_terms 1 n (fun i => UnaryTerm (i - 1) i) f)
    | trilinear => Err (MexError "Trilinear not supported.")
    end ;;
  let f :=
    if PrimFloat.ltb 0%float (length_penalty settings)
    then add_terms 1 n (fun i => LengthTerm (i - 1) i) f
    else f in
  let f :=
    if PrimFloat.ltb 0%float (curvature_penalty settings)
    then add_terms 2 n (fun i => CurvatureTerm (i - 2) (i - 1) i) f
    else f in
  let f :=
    if PrimFloat.ltb 0%float (torsion_penalty settings)
    then add_terms 3 n (fun i => TorsionTerm (i - 3) (i - 2) (i - 1) i) f
    else f in
  _ <-
    match solver_method with
    | newton => Ok tt
    | lbfgs => Ok tt
    | nelder_mead => Err (MexError "NM not upported.")
    end ;;
  let setup :=
    mkSolverSetup solver_method factorization_kind (maxiter params)
      (function_improvement_tolerance params)
      (argument_improvement_tolerance params) in
  let f := solve setup f in
  let resulting_path := mkMatrix n dim 1 2 (@nil float) in
  _ <-
    for_loop_result n
      (fun i u =>
         if mat_inside resulting_path i 0 0 && mat_inside resulting_path i 1 0
            && mat_inside resulting_path i 2 0
         then Ok u
         else Err (UndefinedBehaviour "resulting_path(i,j)"))
      tt ;;
  Ok (mkRefinement (map (fun v => resulting_row (value v)) (variables f))
        dim (evaluate f)).

(** Lines 403-414: an exception becomes an error message. *)
Definition mexFunction (unary_matrix : matrix float) (path : matrix float)
    (params : Params) (settings : InstanceSettings)
    : result Refinement :=
  match mexFunction_main unary_matrix path params settings with
  | Err (Exception what) => Err (MexError what)
  | r => r
  end.

End Solver.

End LocalOptimization.


Module LocalExamples.

(** An image of 5 x 5 x 5 voxels; a backend that moves every variable to the
    middle of the image; one-based paths along the diagonal. *)
Definition unary_matrix : matrix float := mkMatrix 5 5 5 3 (repeat 0%float 125).

Definition to_the_middle
    : LocalOptimization.SolverSetup -> LocalOptimization.Objective ->
      list LocalOptimization.Point :=
  fun _ f =>
    map (fun _ => LocalOptimization.mkPoint 2.5%float 2.5%float 2.5%float)
        (LocalOptimization.variables f).

Definition no_value : LocalOptimization.Objective -> float := fun _ => 0%float.

Definition params : LocalOptimization.Params :=
  LocalOptimization.mkParams "linear" "lbfgs" "iterative" 0%float 0%float 1000.

Definition settings : InstanceSettings :=
  mkInstanceSettings 1%float 1%float 1%float 2%float 2%float 1%float false false.

Definition diagonal (coordinates : list float) : matrix float :=
  mkMatrix (Z.of_nat (List.length coordinates)) 3 1 2
    (coordinates ++ coordinates ++ coordinates).

Definition five_points : matrix float :=
  diagonal [1%float; 2%float; 3%float; 4%float; 5%float].

Definition three_points : matrix float :=
  diagonal [2%float; 3%float; 4%float].

Definition refine (path : matrix float) : result LocalOptimization.Refinement :=
  LocalOptimization.mexFunction to_the_middle no_value unary_matrix path
    params settings.

(** The rows returned for the path of five points. *)
Definition five_rows : list LocalOptimization.Point :=
  Eval vm_compute in
    match refine five_points with
    | Ok r => LocalOptimization.resulting_path r
    | Err _ => []
    end.

End LocalExamples.


(** The variable number [i] holds the point [p] and is constant. *)
Definition fixed_at (vars : list LocalOptimization.Var) (i : nat)
    (p : LocalOptimization.Point) : Prop :=
  exists v, nth_error vars i = Some v /\
            LocalOptimization.value v = p /\
            LocalOptimization.constant v = true.




(** Soundness of the parent pointers of the search: a closed state without
    parent is a start state, and a parent was closed earlier and pushed its
    child when it was expanded. *)
Definition parent_ok (start_set : list Z) (callback : NeighborCallback)
    (closed : list (Z * option Z)) (s : Z) (parent : option Z) : Prop :=
  match parent with
  | None => In s start_set
  | Some p => is_closed p closed = true /\ successor_of callback p s = true
  end.

Fixpoint closed_ok (start_set : list Z) (callback : NeighborCallback)
    (closed : list (Z * option Z)) : Prop :=
  match closed with
  | [] => True
  | (s, parent) :: earlier =>
      closed_ok start_set callback earlier /\
      parent_ok start_set callback earlier s parent
  end.

Definition open_ok (start_set : list Z) (callback : NeighborCallback)
    (closed : list (Z * option Z)) (entries : list OpenEntry) : Prop :=
  Forall (fun e => parent_ok start_set callback closed
                     (open_state e) (open_parent e)) entries.


(** No point of the list is the point two places before it. *)
Fixpoint no_back_move (points : list Point) : bool :=
  match points with
  | a :: rest =>
      match rest with
      | _ :: c :: _ => negb (point_eqb a c)
      | _ => true
      end && no_back_move rest
  | [] => true
  end.


(** The variables a term of the objective is attached to. *)
Definition term_points (t : LocalOptimization.Term) : list Z :=
  match t with
  | LocalOptimization.UnaryTerm i j => [i; j]
  | LocalOptimization.LengthTerm i j => [i; j]
  | LocalOptimization.CurvatureTerm i j k => [i; j; k]
  | LocalOptimization.TorsionTerm i j k l => [i; j; k; l]
  end.


(** * Properties *)

(** ** Grid index *)

Lemma validind_true_iff (g : Grid) (x y z : Z) :
  validind g x y z = true <->
  0 <= x < gridM g /\ 0 <= y < gridN g /\ 0 <= z < gridO g.
Proof.
  unfold validind.
  destruct (x >? gridM g - 1) eqn:E1, (y >? gridN g - 1) eqn:E2,
           (z >? gridO g - 1) eqn:E3, (x <? 0) eqn:E4, (y <? 0) eqn:E5,
           (z <? 0) eqn:E6; simpl; split; intros H; try discriminate; try reflexivity;
  rewrite ?Z.gtb_ltb, ?Z.ltb_lt, ?Z.ltb_ge in *; lia.
Qed.

Lemma lin2_bounds (m n x y : Z) :
  0 <= x < m -> 0 <= y < n -> 0 <= x + y * m < m * n.
Proof.
  intros Hx Hy.
  assert (0 <= y * m) by (apply Z.mul_nonneg_nonneg; lia).
  assert (y * m <= (n - 1) * m) by (apply Z.mul_le_mono_nonneg_r; lia).
  lia.
Qed.

Lemma quot_lin (d q r : Z) :
  0 <= r < d -> 0 <= q -> Z.quot (r + q * d) d = q.
Proof.
  intros Hr Hq.
  assert (0 <= q * d) by (apply Z.mul_nonneg_nonneg; lia).
  rewrite Z.quot_div_nonneg by lia.
  symmetry. apply (Z.div_unique _ _ q r); lia.
Qed.

Lemma rem_lin (d q r : Z) :
  0 <= r < d -> 0 <= q -> Z.rem (r + q * d) d = r.
Proof.
  intros Hr Hq.
  pose proof (Z.quot_rem' (r + q * d) d) as E.
  rewrite (quot_lin d q r Hr Hq) in E. lia.
Qed.

Lemma quot_rem_nonneg (n d : Z) :
  0 <= n -> 0 < d ->
  n = Z.rem n d + Z.quot n d * d /\ 0 <= Z.rem n d < d /\ 0 <= Z.quot n d.
Proof.
  intros Hn Hd.
  pose proof (Z.quot_rem' n d) as E.
  pose proof (Z.rem_bound_pos n d Hn Hd) as B.
  pose proof (Z.quot_pos n d Hn Hd) as Q.
  repeat split; lia.
Qed.

Lemma quot_upper (n d k : Z) :
  0 <= n < d * k -> 0 < d -> Z.quot n d < k.
Proof.
  intros Hn Hd.
  destruct (quot_rem_nonneg n d (proj1 Hn) Hd) as (E & R & Q).
  destruct (Z_lt_le_dec (Z.quot n d) k) as [L | G]; [exact L | exfalso].
  assert (k * d <= Z.quot n d * d) by (apply Z.mul_le_mono_nonneg_r; lia).
  lia.
Qed.

Lemma sub2ind_range (g : Grid) (x y z : Z) :
  0 <= x < gridM g -> 0 <= y < gridN g -> 0 <= z < gridO g ->
  0 <= sub2ind g x y z < numel g.
Proof.
  intros Hx Hy Hz. unfold sub2ind, numel.
  pose proof (lin2_bounds _ _ _ _ Hx Hy) as H1.
  pose proof (lin2_bounds _ _ _ _ H1 Hz) as H2.
  lia.
Qed.

Lemma ind2sub_sub2ind (g : Grid) (x y z : Z) :
  0 <= x < gridM g -> 0 <= y < gridN g -> 0 <= z < gridO g ->
  ind2sub g (sub2ind g x y z) = (x, y, z).
Proof.
  intros Hx Hy Hz. unfold ind2sub, sub2ind. cbv zeta.
  pose proof (lin2_bounds _ _ _ _ Hx Hy) as H1.
  assert (Hz' : Z.quot (x + y * gridM g + z * gridM g * gridN g)
                       (gridM g * gridN g) = z).
  { replace (x + y * gridM g + z * gridM g * gridN g)
      with ((x + y * gridM g) + z * (gridM g * gridN g)) by lia.
    apply quot_lin; lia. }
  rewrite Hz'.
  assert (Hy' : Z.quot (x + y * gridM g + z * gridM g * gridN g
                        - z * gridM g * gridN g) (gridM g) = y).
  { replace (x + y * gridM g + z * gridM g * gridN g - z * gridM g * gridN g)
      with (x + y * gridM g) by lia.
    apply quot_lin; lia. }
  rewrite Hy'. repeat f_equal; lia.
Qed.

Lemma sub2ind_ind2sub (g : Grid) (n : Z) :
  let '(x, y, z) := ind2sub g n in sub2ind g x y z = n.
Proof.
  unfold ind2sub, sub2ind. cbv zeta. lia.
Qed.

Lemma ind2sub_valid (g : Grid) (n : Z) :
  0 < gridM g -> 0 < gridN g -> 0 <= n < numel g ->
  let '(x, y, z) := ind2sub g n in validind g x y z = true.
Proof.
  intros HM HN Hn. unfold ind2sub, numel in *. cbv zeta.
  apply validind_true_iff.
  assert (Hd : 0 < gridM g * gridN g) by (apply Z.mul_pos_pos; lia).
  destruct (quot_rem_nonneg n (gridM g * gridN g) (proj1 Hn) Hd) as (E & R & Q).
  pose proof (quot_upper n (gridM g * gridN g) (gridO g) Hn Hd) as U.
  set (z := Z.quot n (gridM g * gridN g)) in *.
  replace (n - z * gridM g * gridN g) with (Z.rem n (gridM g * gridN g)) by lia.
  set (r := Z.rem n (gridM g * gridN g)) in *.
  destruct (quot_rem_nonneg r (gridM g) (proj1 R) HM) as (E2 & R2 & Q2).
  pose proof (quot_upper r (gridM g) (gridN g) R HM) as U2.
  set (y := Z.quot r (gridM g)) in *.
  replace (n - y * gridM g - z * gridM g * gridN g) with (Z.rem r (gridM g)) by lia.
  lia.
Qed.

(** ** The index in the [int] of the compiler *)

(** Within [INT_MIN, INT_MAX] an operation on [int] gives the value it has
    in [Z]. *)
Lemma wrap_exact (z : Z) : INT_MIN <= z <= INT_MAX -> wrap z = z.
Proof.
  unfold wrap, INT_MIN, INT_MAX. intros H.
  rewrite Z.mod_small by lia. lia.
Qed.

Lemma int32_add_exact (a b : Z) :
  INT_MIN <= a + b <= INT_MAX -> Int32.add a b = a + b.
Proof. apply wrap_exact. Qed.

Lemma int32_sub_exact (a b : Z) :
  INT_MIN <= a - b <= INT_MAX -> Int32.sub a b = a - b.
Proof. apply wrap_exact. Qed.

Lemma int32_mul_exact (a b : Z) :
  INT_MIN <= a * b <= INT_MAX -> Int32.mul a b = a * b.
Proof. apply wrap_exact. Qed.

Lemma int32_div_exact (a b : Z) :
  INT_MIN <= a <= INT_MAX -> 0 < b -> Int32.div a b = Some (Z.quot a b).
Proof.
  intros Ha Hb. unfold Int32.div.
  destruct (b =? 0) eqn:E; [apply Z.eqb_eq in E; lia|].
  rewrite wrap_exact; [reflexivity|].
  unfold INT_MIN, INT_MAX in *.
  destruct (Z_le_gt_dec 0 a) as [P | N].
  - pose proof (Z.quot_pos a b P Hb). pose proof (Z.quot_le_upper_bound a b a).
    assert (Z.quot a b <= a).
    { apply Z.quot_le_upper_bound; [lia|]. nia. }
    lia.
  - pose proof (Z.quot_opp_l a b ltac:(lia)) as E1.
    assert (0 <= Z.quot (- a) b) by (apply Z.quot_pos; lia).
    assert (Z.quot (- a) b <= - a).
    { apply Z.quot_le_upper_bound; [lia|]. nia. }
    lia.
Qed.

Lemma int32_rem_exact (a b : Z) :
  INT_MIN <= a <= INT_MAX -> 0 < b -> Int32.rem a b = Some (Z.rem a b).
Proof.
  intros Ha Hb. unfold Int32.rem.
  destruct (b =? 0) eqn:E; [apply Z.eqb_eq in E; lia|].
  rewrite wrap_exact; [reflexivity|].
  unfold INT_MIN, INT_MAX in *.
  destruct (Z_le_gt_dec 0 a) as [P | N].
  - pose proof (Z.rem_bound_pos a b P Hb).
    pose proof (Z.quot_rem' a b). pose proof (Z.quot_pos a b P Hb). nia.
  - pose proof (Z.rem_opp_l a b ltac:(lia)) as E1.
    pose proof (Z.rem_bound_pos (- a) b ltac:(lia) Hb).
    pose proof (Z.quot_rem' (- a) b).
    pose proof (Z.quot_pos (- a) b ltac:(lia) Hb). nia.
Qed.

Lemma quot_rem_signed (n d : Z) :
  0 < d ->
  n = Z.rem n d + Z.quot n d * d /\
  (0 <= n -> 0 <= Z.rem n d < d /\ 0 <= Z.quot n d <= n) /\
  (n <= 0 -> - d < Z.rem n d <= 0 /\ n <= Z.quot n d <= 0).
Proof.
  intros Hd. pose proof (Z.quot_rem' n d) as E.
  split; [lia|]. split; intros Hn.
  - pose proof (Z.rem_bound_pos n d Hn Hd).
    pose proof (Z.quot_pos n d Hn Hd). split; [lia | nia].
  - pose proof (Z.rem_opp_l n d ltac:(lia)) as E1.
    pose proof (Z.quot_opp_l n d ltac:(lia)) as E2.
    pose proof (Z.rem_bound_pos (- n) d ltac:(lia) Hd).
    pose proof (Z.quot_pos (- n) d ltac:(lia) Hd).
    split; [lia | nia].
Qed.

Lemma int32_sub2ind_exact (g : Grid) (x y z : Z) :
  numel g <= INT_MAX -> validind g x y z = true ->
  Int32.sub2ind g x y z = sub2ind g x y z.
Proof.
  intros Hsize V. apply validind_true_iff in V. destruct V as (Hx & Hy & Hz).
  unfold Int32.sub2ind, Int32.add, Int32.mul, sub2ind, numel in *.
  pose proof (lin2_bounds _ _ _ _ Hx Hy) as H1.
  pose proof (lin2_bounds _ _ _ _ H1 Hz) as H2.
  assert (0 <= y * gridM g) by (apply Z.mul_nonneg_nonneg; lia).
  assert (0 <= z * gridM g) by (apply Z.mul_nonneg_nonneg; lia).
  assert (0 <= z * gridM g * gridN g) by (apply Z.mul_nonneg_nonneg; lia).
  assert (z * gridM g <= z * gridM g * gridN g) by nia.
  rewrite (wrap_exact (y * gridM g)) by (unfold INT_MIN, INT_MAX in *; lia).
  rewrite (wrap_exact (x + y * gridM g))
    by (unfold INT_MIN, INT_MAX in *; lia).
  rewrite (wrap_exact (z * gridM g)) by (unfold INT_MIN, INT_MAX in *; lia).
  rewrite (wrap_exact (z * gridM g * gridN g))
    by (unfold INT_MIN, INT_MAX in *; lia).
  apply wrap_exact. unfold INT_MIN, INT_MAX in *. lia.
Qed.

Lemma int32_ind2sub_exact (g : Grid) (n : Z) :
  0 < gridM g -> 0 < gridN g -> gridM g * gridN g <= INT_MAX ->
  INT_MIN <= n <= INT_MAX ->
  Int32.ind2sub g n = Some (ind2sub g n).
Proof.
  intros HM HN Hsize Hn. unfold Int32.ind2sub, ind2sub. cbv zeta.
  assert (Hd : 0 < gridM g * gridN g) by (apply Z.mul_pos_pos; lia).
  destruct (quot_rem_signed n (gridM g * gridN g) Hd) as (E & Pos & Neg).
  set (z := Z.quot n (gridM g * gridN g)) in *.
  set (r := Z.rem n (gridM g * gridN g)) in *.
  destruct (quot_rem_signed r (gridM g) HM) as (E2 & Pos2 & Neg2).
  set (y := Z.quot r (gridM g)) in *.
  assert (Er : n - z * gridM g * gridN g = r) by lia.
  assert (Bz : Z.abs (z * gridM g) <= Z.abs n /\
               Z.abs (z * gridM g * gridN g) <= Z.abs n /\
               Z.abs r <= Z.abs n /\
               Z.abs (y * gridM g) <= Z.abs r /\
               Z.abs (n - y * gridM g) <= Z.abs n).
  { destruct (Z_le_gt_dec 0 n) as [P | N].
    - specialize (Pos P). assert (Hr : 0 <= r) by lia. specialize (Pos2 Hr).
      assert (0 <= z * gridM g) by (apply Z.mul_nonneg_nonneg; lia).
      assert (z * gridM g * 1 <= z * gridM g * gridN g)
        by (apply Z.mul_le_mono_nonneg_l; lia).
      assert (0 <= y * gridM g) by (apply Z.mul_nonneg_nonneg; lia).
      lia.
    - assert (N' : n <= 0) by lia. specialize (Neg N').
      assert (Hr : r <= 0) by lia. specialize (Neg2 Hr).
      assert (0 <= (- z) * gridM g) by (apply Z.mul_nonneg_nonneg; lia).
      assert ((- z) * gridM g * 1 <= (- z) * gridM g * gridN g)
        by (apply Z.mul_le_mono_nonneg_l; lia).
      assert (0 <= (- y) * gridM g) by (apply Z.mul_nonneg_nonneg; lia).
      lia. }
  destruct Bz as (B1 & B2 & B3 & B4 & B5).
  unfold Int32.mul, Int32.sub.
  rewrite (wrap_exact (gridM g * gridN g))
    by (unfold INT_MIN, INT_MAX in *; lia).
  rewrite int32_div_exact by (unfold INT_MIN, INT_MAX in *; lia). fold z.
  rewrite (wrap_exact (z * gridM g)) by (unfold INT_MIN, INT_MAX in *; lia).
  rewrite (wrap_exact (z * gridM g * gridN g))
    by (unfold INT_MIN, INT_MAX in *; lia).
  rewrite (wrap_exact (n - z * gridM g * gridN g))
    by (unfold INT_MIN, INT_MAX in *; lia).
  rewrite Er.
  rewrite int32_div_exact by (unfold INT_MIN, INT_MAX in *; lia). fold y.
  rewrite (wrap_exact (y * gridM g)) by (unfold INT_MIN, INT_MAX in *; lia).
  rewrite (wrap_exact (n - y * gridM g))
    by (unfold INT_MIN, INT_MAX in *; lia).
  rewrite (wrap_exact (n - y * gridM g - z * gridM g * gridN g))
    by (unfold INT_MIN, INT_MAX in *; lia).
  reflexivity.
Qed.

Lemma int32_make_point_exact (g : Grid) (n : Z) :
  0 < gridM g -> 0 < gridN g -> gridM g * gridN g <= INT_MAX ->
  INT_MIN <= n <= INT_MAX ->
  Int32.make_point g n = Some (make_point g n).
Proof.
  intros HM HN Hsize Hn. unfold Int32.make_point.
  rewrite int32_ind2sub_exact by assumption. reflexivity.
Qed.

(** A coordinate to which an offset is added, [x2 = x1 + connectivity(e,0)]:
    when the sum leaves [int] it comes back negative, out of bounds as the
    sum in [Z] is; so the bounds checks of [validind] and the comparison
    with an in-bounds coordinate give the same on both, and an in-bounds sum
    is computed without wrap-around. *)
Lemma int32_coordinate_exact (size x c : Z) :
  0 <= x < size -> size <= INT_MAX -> INT_MIN <= c <= INT_MAX ->
  (0 <=? Int32.add x c) && (Int32.add x c <? size)
  = (0 <=? x + c) && (x + c <? size) /\
  (0 <= x + c < size -> Int32.add x c = x + c) /\
  (forall x1, 0 <= x1 < size -> (x1 =? Int32.add x c) = (x1 =? x + c)).
Proof.
  intros Hx Hsize Hc. unfold Int32.add.
  destruct (Z_le_gt_dec (x + c) INT_MAX) as [L | G].
  - rewrite wrap_exact by (unfold INT_MIN, INT_MAX in *; lia).
    split; [reflexivity|]. split; intros; reflexivity.
  - assert (E : wrap (x + c) = x + c - 4294967296).
    { unfold wrap, INT_MIN, INT_MAX in *.
      replace (x + c - -2147483648)
        with ((x + c - 2147483648) + 1 * 4294967296) by lia.
      rewrite Z.mod_add by lia. rewrite Z.mod_small by lia. lia. }
    rewrite E. unfold INT_MIN, INT_MAX in *.
    split; [|split; [lia|]].
    + replace (0 <=? x + c - 4294967296) with false
        by (symmetry; apply Z.leb_gt; lia).
      replace (x + c <? size) with false by (symmetry; apply Z.ltb_ge; lia).
      rewrite andb_false_r. reflexivity.
    + intros x1 Hx1.
      replace (x1 =? x + c - 4294967296) with false
        by (symmetry; apply Z.eqb_neq; lia).
      symmetry. apply Z.eqb_neq. lia.
Qed.

Lemma validind_by_coordinate (g : Grid) (x y z : Z) :
  validind g x y z
  = ((0 <=? x) && (x <? gridM g)) && ((0 <=? y) && (y <? gridN g))
    && ((0 <=? z) && (z <? gridO g)).
Proof.
  destruct (validind g x y z) eqn:V.
  - apply validind_true_iff in V. destruct V as (Hx & Hy & Hz).
    symmetry. rewrite !andb_true_iff, !Z.leb_le, !Z.ltb_lt. lia.
  - symmetry. apply not_true_is_false. intros H.
    rewrite !andb_true_iff, !Z.leb_le, !Z.ltb_lt in H.
    assert (V' : validind g x y z = true) by (apply validind_true_iff; lia).
    congruence.
Qed.

(** Lines 122-126, 131-139 and 232-240: the voxel reached from an in-bounds
    voxel by an offset of the template, its coordinates computed in [int],
    passes [validind] exactly when the voxel computed in [Z] does, and is
    then that voxel. *)
Lemma int32_move_exact (g : Grid) (p : Point) (connectivity : matrix Z)
    (e : Z) :
  validind_point g p = true ->
  gridM g <= INT_MAX -> gridN g <= INT_MAX -> gridO g <= INT_MAX ->
  INT_MIN <= conn connectivity e 0 <= INT_MAX ->
  INT_MIN <= conn connectivity e 1 <= INT_MAX ->
  INT_MIN <= conn connectivity e 2 <= INT_MAX ->
  let q := mkPoint (Int32.add (px p) (conn connectivity e 0))
                   (Int32.add (py p) (conn connectivity e 1))
                   (Int32.add (pz p) (conn connectivity e 2)) in
  validind_point g q = validind_point g (move p connectivity e) /\
  (validind_point g (move p connectivity e) = true ->
   q = move p connectivity e).
Proof.
  intros V HM HN HO H0 H1 H2 q.
  apply validind_true_iff in V. destruct V as (Hx & Hy & Hz).
  destruct (int32_coordinate_exact _ _ _ Hx HM H0) as (Bx & Ex & _).
  destruct (int32_coordinate_exact _ _ _ Hy HN H1) as (B_y & Ey & _).
  destruct (int32_coordinate_exact _ _ _ Hz HO H2) as (Bz & Ez & _).
  split.
  - unfold validind_point, q, move. cbn [px py pz].
    rewrite !validind_by_coordinate, Bx, B_y, Bz. reflexivity.
  - intros V. apply validind_true_iff in V. unfold move in V.
    cbn [px py pz] in V. destruct V as (Vx & Vy & Vz).
    unfold q, move. rewrite (Ex Vx), (Ey Vy), (Ez Vz). reflexivity.
Qed.

(** C9 (amended).  On a grid of size M x N x O with at most [INT_MAX]
    voxels, every in-bounds coordinate (x,y,z) has the column-major linear
    index x + y*M + z*M*N, computed in [int] without wrap-around, and
    [ind2sub] is the exact inverse of [sub2ind] over in-bounds values:
    decoding the index of an in-bounds coordinate gives the coordinate back,
    and every index n with 0 <= n < M*N*O decodes to an in-bounds coordinate
    whose index is n.  The computations in [Z] give the same values. *)
Theorem C9_linear_index_roundtrip (g : Grid) :
  numel g <= INT_MAX ->
  (forall x y z,
      0 <= x < gridM g -> 0 <= y < gridN g -> 0 <= z < gridO g ->
      Int32.sub2ind g x y z = x + y * gridM g + z * gridM g * gridN g /\
      sub2ind g x y z = Int32.sub2ind g x y z /\
      0 <= Int32.sub2ind g x y z < numel g /\
      Int32.ind2sub g (Int32.sub2ind g x y z) = Some (x, y, z) /\
      Int32.make_point g (Int32.sub2ind g x y z) = Some (mkPoint x y z) /\
      ind2sub g (sub2ind g x y z) = (x, y, z) /\
      make_point g (sub2ind g x y z) = mkPoint x y z) /\
  (forall n,
      0 < gridM g -> 0 < gridN g -> 0 <= n < numel g ->
      exists x y z,
        Int32.ind2sub g n = Some (x, y, z) /\
        ind2sub g n = (x, y, z) /\
        validind g x y z = true /\
        Int32.sub2ind g x y z = n).
Proof.
  intros Hsize. split.
  - intros x y z Hx Hy Hz.
    assert (V : validind g x y z = true)
      by (apply validind_true_iff; auto).
    pose proof (int32_sub2ind_exact g x y z Hsize V) as E32.
    pose proof (sub2ind_range g x y z Hx Hy Hz) as R.
    pose proof (ind2sub_sub2ind g x y z Hx Hy Hz) as E.
    assert (HMN : gridM g * gridN g <= INT_MAX).
    { unfold numel in Hsize.
      assert (gridM g * gridN g * 1 <= gridM g * gridN g * gridO g)
        by (apply Z.mul_le_mono_nonneg_l; [apply Z.mul_nonneg_nonneg|]; lia).
      lia. }
    assert (I : Int32.ind2sub g (sub2ind g x y z) = Some (x, y, z)).
    { rewrite int32_ind2sub_exact, E; [reflexivity| | | |]; try lia.
      unfold INT_MIN. lia. }
    rewrite E32.
    split; [reflexivity|]. split; [reflexivity|]. split; [exact R|].
    split; [exact I|].
    split; [unfold Int32.make_point; rewrite I; reflexivity|].
    split; [exact E|].
    unfold make_point. unfold ind2sub in E. cbv zeta in *.
    injection E as E1 E2 E3. rewrite E3 in *. rewrite E2 in *.
    f_equal; assumption.
  - intros n HM HN Hn.
    pose proof (ind2sub_valid g n HM HN Hn) as V.
    pose proof (sub2ind_ind2sub g n) as S.
    assert (HMN : gridM g * gridN g <= INT_MAX).
    { unfold numel in Hsize, Hn.
      assert (0 < gridM g * gridN g) by (apply Z.mul_pos_pos; lia).
      assert (0 < gridO g) by nia.
      assert (gridM g * gridN g * 1 <= gridM g * gridN g * gridO g)
        by (apply Z.mul_le_mono_nonneg_l; lia).
      lia. }
    assert (I : Int32.ind2sub g n = Some (ind2sub g n))
      by (apply int32_ind2sub_exact; try assumption; unfold INT_MIN; lia).
    destruct (ind2sub g n) as [[x y] z].
    exists x, y, z.
    split; [exact I|]. split; [reflexivity|]. split; [exact V|].
    rewrite int32_sub2ind_exact by assumption. exact S.
Qed.

Lemma C9_linear_index_roundtrip_witness :
  let g := mkGrid 3 4 5 in
  (Int32.sub2ind g 2 3 4 = 2 + 3 * 3 + 4 * 3 * 4 /\
   sub2ind g 2 3 4 = Int32.sub2ind g 2 3 4 /\
   0 <= Int32.sub2ind g 2 3 4 < numel g /\
   Int32.ind2sub g (Int32.sub2ind g 2 3 4) = Some (2, 3, 4) /\
   Int32.make_point g (Int32.sub2ind g 2 3 4) = Some (mkPoint 2 3 4) /\
   ind2sub g (sub2ind g 2 3 4) = (2, 3, 4) /\
   make_point g (sub2ind g 2 3 4) = mkPoint 2 3 4) /\
  (exists x y z,
     Int32.ind2sub g 59 = Some (x, y, z) /\
     ind2sub g 59 = (x, y, z) /\
     validind g x y z = true /\
     Int32.sub2ind g x y z = 59).
Proof.
  assert (Hsize : numel (mkGrid 3 4 5) <= INT_MAX)
    by (vm_compute; discriminate).
  split.
  - apply (proj1 (C9_linear_index_roundtrip (mkGrid 3 4 5) Hsize) 2 3 4);
      simpl; lia.
  - apply (proj2 (C9_linear_index_roundtrip (mkGrid 3 4 5) Hsize) 59);
      unfold numel; simpl; lia.
Defined.

(** C9 as stated fails on a grid of more than [INT_MAX] voxels.  On the
    50000 x 50000 x 2 grid the in-bounds coordinate (0,0,1) gets the index
    -1794967296, which is not 0 + 0*M + 1*M*N; and the index [INT_MAX], which
    lies in [0, M*N*O), decodes to a coordinate outside the grid. *)
Lemma C9_counterexample :
  let g := mkGrid 50000 50000 2 in
  validind g 0 0 1 = true /\
  Int32.sub2ind g 0 0 1 = -1794967296 /\
  Int32.sub2ind g 0 0 1 <> 0 + 0 * gridM g + 1 * gridM g * gridN g /\
  0 <= INT_MAX < numel g /\
  Int32.ind2sub g INT_MAX = Some (16351, 7050, -1) /\
  validind g 16351 7050 (-1) = false.
Proof.
  cbv zeta. split; [reflexivity|]. split; [vm_compute; reflexivity|].
  split; [vm_compute; discriminate|].
  split; [split; vm_compute; [discriminate | reflexivity]|].
  split; vm_compute; reflexivity.
Qed.

(** ** Loops and sets *)

Lemma In_zseq (n i : Z) : In i (zseq n) <-> 0 <= i < n.
Proof.
  unfold zseq. rewrite in_map_iff. split.
  - intros (k & E & H). apply in_seq in H. lia.
  - intros H. exists (Z.to_nat i). split; [lia|]. apply in_seq. lia.
Qed.

Lemma for_loop_invariant {S : Type} (P : S -> Prop) (n : Z)
    (body : Z -> S -> S) (s : S) :
  P s ->
  (forall i acc, 0 <= i < n -> P acc -> P (body i acc)) ->
  P (for_loop n body s).
Proof.
  unfold for_loop. intros H0 Hstep.
  assert (G : forall l acc, (forall i, In i l -> 0 <= i < n) -> P acc ->
                            P (fold_left (fun acc i => body i acc) l acc)).
  { induction l as [|i l IH]; intros acc Hl Hacc; simpl.
    - exact Hacc.
    - apply IH.
      + intros j Hj. apply Hl. right. exact Hj.
      + apply Hstep; [apply Hl; left; reflexivity | exact Hacc]. }
  apply G; [intros i Hi; apply In_zseq; exact Hi | exact H0].
Qed.

(** A loop whose body only adds members to a set held in the loop state. *)
Lemma for_loop_members {S : Type} (members : S -> list Z) (n : Z)
    (body : Z -> S -> S) (added : Z -> Z -> Prop) :
  (forall i acc x, 0 <= i < n ->
      (In x (members (body i acc)) <-> In x (members acc) \/ added i x)) ->
  forall s x,
    In x (members (for_loop n body s)) <->
    In x (members s) \/ exists i, 0 <= i < n /\ added i x.
Proof.
  intros Hbody s x. unfold for_loop.
  assert (G : forall l acc, (forall i, In i l -> 0 <= i < n) ->
            (In x (members (fold_left (fun acc i => body i acc) l acc)) <->
             In x (members acc) \/ exists i, In i l /\ added i x)).
  { induction l as [|i l IH]; intros acc Hl; simpl.
    - split; [intros H; left; exact H | intros [H | (i & [] & _)]; exact H].
    - rewrite IH by (intros j Hj; apply Hl; right; exact Hj).
      rewrite Hbody by (apply Hl; left; reflexivity).
      split.
      + intros [[H | H] | (j & Hj & Hadd)].
        * left; exact H.
        * right; exists i; split; [left; reflexivity | exact H].
        * right; exists j; split; [right; exact Hj | exact Hadd].
      + intros [H | (j & [E | Hj] & Hadd)].
        * left; left; exact H.
        * subst j. left; right; exact Hadd.
        * right; exists j; split; assumption. }
  rewrite G by (intros i Hi; apply In_zseq; exact Hi).
  split; intros [H | (i & Hi & Hadd)]; try (left; exact H);
    right; exists i; (split; [apply In_zseq; exact Hi | exact Hadd]).
Qed.

(** A loop whose body pushes at most one element per round. *)
Lemma for_loop_push {A : Type} (n : Z) (keep : Z -> bool) (f : Z -> A)
    (body : Z -> list A -> list A) :
  (forall i acc, 0 <= i < n ->
      body i acc = if keep i then acc ++ [f i] else acc) ->
  forall acc, for_loop n body acc = acc ++ map f (filter keep (zseq n)).
Proof.
  intros Hbody acc. unfold for_loop.
  assert (G : forall l acc, (forall i, In i l -> 0 <= i < n) ->
            fold_left (fun acc i => body i acc) l acc
            = acc ++ map f (filter keep l)).
  { induction l as [|i l IH]; intros acc0 Hl; simpl.
    - rewrite app_nil_r. reflexivity.
    - rewrite IH by (intros j Hj; apply Hl; right; exact Hj).
      rewrite Hbody by (apply Hl; left; reflexivity).
      destruct (keep i); simpl; [rewrite <- app_assoc|]; reflexivity. }
  apply G. intros i Hi. apply In_zseq. exact Hi.
Qed.

Lemma fold_left_push {A B : Type} (f : B -> A) (l : list B) (acc : list A) :
  fold_left (fun acc b => acc ++ [f b]) l acc = acc ++ map f l.
Proof.
  revert acc. induction l as [|b l IH]; intros acc; simpl.
  - rewrite app_nil_r. reflexivity.
  - rewrite IH, <- app_assoc. reflexivity.
Qed.

Lemma set_insert_In (x y : Z) (s : list Z) :
  In x (set_insert y s) <-> x = y \/ In x s.
Proof.
  induction s as [|a s IH]; simpl.
  - intuition.
  - destruct (y <? a) eqn:E1; [simpl; intuition|].
    destruct (y =? a) eqn:E2.
    + apply Z.eqb_eq in E2. subst a. simpl. intuition.
    + simpl. rewrite IH. intuition.
Qed.

Lemma set_insert_increasing (y : Z) (s : list Z) :
  increasing s -> increasing (set_insert y s).
Proof.
  induction 1 as [|a s Ha Hs IH]; simpl.
  - constructor; [intros b [] | constructor].
  - destruct (y <? a) eqn:E1.
    + apply Z.ltb_lt in E1. constructor.
      * intros b [E | Hb]; [lia | specialize (Ha b Hb); lia].
      * constructor; assumption.
    + destruct (y =? a) eqn:E2.
      * constructor; assumption.
      * apply Z.ltb_ge in E1. apply Z.eqb_neq in E2. constructor.
        -- intros b Hb. apply set_insert_In in Hb. destruct Hb as [E | Hb].
           ++ lia.
           ++ apply Ha; exact Hb.
        -- exact IH.
Qed.

Lemma increasing_NoDup (s : list Z) : increasing s -> NoDup s.
Proof.
  induction 1 as [|a s Ha Hs IH]; constructor.
  - intros Hin. specialize (Ha a Hin). lia.
  - exact IH.
Qed.

Lemma for_loop_ext {S : Type} (n : Z) (body1 body2 : Z -> S -> S) (s : S) :
  (forall i acc, 0 <= i < n -> body1 i acc = body2 i acc) ->
  for_loop n body1 s = for_loop n body2 s.
Proof.
  intros Hext. unfold for_loop.
  assert (G : forall l acc, (forall i, In i l -> 0 <= i < n) ->
            fold_left (fun acc i => body1 i acc) l acc
            = fold_left (fun acc i => body2 i acc) l acc).
  { induction l as [|i l IH]; intros acc Hl; cbn [fold_left]; [reflexivity|].
    rewrite Hext by (apply Hl; left; reflexivity).
    apply IH. intros j Hj. apply Hl. right. exact Hj. }
  apply G. intros i Hi. apply In_zseq. exact Hi.
Qed.

Lemma for_loop_some {S : Type} (n : Z) (body : Z -> S -> S)
    (body' : Z -> option S -> option S) (s : S) :
  (forall i acc, 0 <= i < n -> body' i (Some acc) = Some (body i acc)) ->
  for_loop n body' (Some s) = Some (for_loop n body s).
Proof.
  intros H. unfold for_loop.
  assert (G : forall l acc, (forall i, In i l -> 0 <= i < n) ->
            fold_left (fun acc i => body' i acc) l (Some acc)
            = Some (fold_left (fun acc i => body i acc) l acc)).
  { induction l as [|i l IH]; intros acc Hl; cbn [fold_left]; [reflexivity|].
    rewrite H by (apply Hl; left; reflexivity).
    apply IH. intros j Hj. apply Hl. right. exact Hj. }
  apply G. intros i Hi. apply In_zseq. exact Hi.
Qed.

Lemma fold_left_some {S B : Type} (body : S -> B -> S)
    (body' : option S -> B -> option S) (l : list B) :
  (forall b acc, In b l -> body' (Some acc) b = Some (body acc b)) ->
  forall s, fold_left body' l (Some s) = Some (fold_left body l s).
Proof.
  induction l as [|b l IH]; intros H s; cbn [fold_left]; [reflexivity|].
  rewrite H by (left; reflexivity).
  apply IH. intros b' acc Hb'. apply H. right. exact Hb'.
Qed.

(** ** Edge-pair expansion *)

Lemma make_point_ind2sub (g : Grid) (n : Z) :
  ind2sub g n = (px (make_point g n), py (make_point g n), pz (make_point g n)).
Proof. reflexivity. Qed.

Lemma point_eqb_eq (a b : Point) : point_eqb a b = true <-> a = b.
Proof.
  destruct a as [ax ay az], b as [bx b_y bz]. unfold point_eqb. simpl.
  rewrite !andb_true_iff, !Z.eqb_eq. split.
  - intros [[-> ->] ->]. reflexivity.
  - intros E. injection E as -> -> ->. auto.
Qed.

Lemma point_eqb_sym (a b : Point) : point_eqb a b = point_eqb b a.
Proof.
  unfold point_eqb. rewrite (Z.eqb_sym (px a)), (Z.eqb_sym (py a)),
    (Z.eqb_sym (pz a)). reflexivity.
Qed.

Lemma usual_expansion_eq
    (fl32 : float -> float) (g : Grid) (data_term : Segment) (e_super : Z)
    (connectivity : matrix Z) (start_set_pairs : list Z)
    (length_cost : Segment) (curvature_cost : Triple) (torsion_cost : Quadruple)
    (ep : Z) (neighbors : list Neighbor) :
  ep <> e_super ->
  let p0 := pt0 g connectivity ep in
  let p1 := pt1 g connectivity ep in
  let p2 := pt2 g connectivity ep in
  let e2 := state_e2 connectivity ep in
  get_neighbors_torsion fl32 g data_term e_super connectivity start_set_pairs
    length_cost curvature_cost torsion_cost ep neighbors
  = neighbors ++
    map (fun e3 =>
           let p3 := move p2 connectivity e3 in
           mkNeighbor
             (edgepair_index connectivity (sub2ind_point g p1) e2 e3)
             (float_sum fl32
                [on_segment data_term p2 p3;
                 on_segment length_cost p2 p3;
                 on_quadruple torsion_cost p0 p1 p2 p3;
                 on_triple curvature_cost p1 p2 p3]))
        (filter (fun e3 =>
                   let p3 := move p2 connectivity e3 in
                   validind_point g p3 && negb (point_eqb p3 p1))
                (zseq (mat_M connectivity))).
Proof.
  intros Hne p0 p1 p2 e2.
  unfold get_neighbors_torsion.
  destruct (ep =? e_super) eqn:E; [apply Z.eqb_eq in E; contradiction|].
  subst p0 p1 p2 e2.
  unfold pt2, pt1, pt0, state_e2, state_e1, state_root.
  destruct (decompose_pair_of_edgepairs ep connectivity) as [root edgepair_id].
  cbn [fst snd].
  destruct (decompose_edgepair edgepair_id connectivity) as [e1 e2].
  cbn [fst snd].
  rewrite (make_point_ind2sub g root).
  set (p0 := make_point g root).
  apply for_loop_push.
  intros e3 acc He3.
  unfold validind_point, move, sub2ind_point, edgepair_index,
    on_segment, on_triple, on_quadruple, float_sum.
  cbn [px py pz fold_left].
  destruct (validind g _ _ _); cbn [negb andb]; [|reflexivity].
  rewrite point_eqb_sym. unfold point_eqb. cbn [px py pz].
  destruct (_ && _ && _); cbn [negb]; [reflexivity|].
  do 3 f_equal. lia.
Qed.

(** ** Decoding of states *)

Lemma points_in_a_edgepair_eq (g : Grid) (connectivity : matrix Z) (s : Z) :
  points_in_a_edgepair g s connectivity
  = (state_root connectivity s,
     sub2ind_point g (pt1 g connectivity s),
     sub2ind_point g (pt2 g connectivity s)).
Proof.
  unfold points_in_a_edgepair, pt2, pt1, pt0, state_e2, state_e1, state_root.
  destruct (decompose_pair_of_edgepairs s connectivity) as [root edgepair_id].
  cbn [fst snd].
  destruct (decompose_edgepair edgepair_id connectivity) as [e1 e2].
  cbn [fst snd].
  rewrite (make_point_ind2sub g root). reflexivity.
Qed.

Lemma make_point_sub2ind (g : Grid) (p : Point) :
  validind_point g p = true -> make_point g (sub2ind_point g p) = p.
Proof.
  intros V. apply validind_true_iff in V. destruct V as (Hx & Hy & Hz).
  pose proof (ind2sub_sub2ind g _ _ _ Hx Hy Hz) as E.
  rewrite make_point_ind2sub in E. unfold sub2ind_point.
  destruct p as [x y z]. cbn [px py pz] in *.
  destruct (make_point g (sub2ind g x y z)) as [x' y' z'].
  cbn [px py pz] in E. congruence.
Qed.

Lemma validind_point_range (g : Grid) (p : Point) :
  validind_point g p = true -> 0 <= sub2ind_point g p < numel g.
Proof.
  intros V. apply validind_true_iff in V. destruct V as (Hx & Hy & Hz).
  apply sub2ind_range; assumption.
Qed.

Lemma decode_index (connectivity : matrix Z) (root e1 e2 : Z) :
  0 <= root ->
  0 <= e1 < mat_M connectivity -> 0 <= e2 < mat_M connectivity ->
  state_root connectivity (edgepair_index connectivity root e1 e2) = root /\
  state_e1 connectivity (edgepair_index connectivity root e1 e2) = e1 /\
  state_e2 connectivity (edgepair_index connectivity root e1 e2) = e2.
Proof.
  intros Hr H1 H2.
  unfold state_root, state_e1, state_e2, decompose_pair_of_edgepairs,
    decompose_edgepair, edgepair_index. cbn [fst snd].
  set (K := mat_M connectivity) in *.
  pose proof (lin2_bounds K K e2 e1 H2 H1) as B.
  replace (root * (K * K) + K * e1 + e2)
    with ((e2 + e1 * K) + root * (K * K)) by lia.
  rewrite quot_lin, rem_lin by lia.
  rewrite quot_lin, rem_lin by lia.
  auto.
Qed.

Lemma decode_range (connectivity : matrix Z) (s : Z) :
  0 <= s -> 0 < mat_M connectivity ->
  0 <= state_root connectivity s /\
  0 <= state_e1 connectivity s < mat_M connectivity /\
  0 <= state_e2 connectivity s < mat_M connectivity /\
  s = edgepair_index connectivity (state_root connectivity s)
        (state_e1 connectivity s) (state_e2 connectivity s).
Proof.
  intros Hs HK.
  unfold state_root, state_e1, state_e2, decompose_pair_of_edgepairs,
    decompose_edgepair, edgepair_index. cbn [fst snd].
  set (K := mat_M connectivity) in *.
  assert (HKK : 0 < K * K) by (apply Z.mul_pos_pos; lia).
  destruct (quot_rem_nonneg s (K * K) Hs HKK) as (E & R & Q).
  destruct (quot_rem_nonneg (Z.rem s (K * K)) K (proj1 R) HK) as (E2 & R2 & Q2).
  pose proof (quot_upper (Z.rem s (K * K)) K K R HK) as U.
  repeat split; lia.
Qed.

Lemma feasible_spec (g : Grid) (connectivity : matrix Z) (s : Z) :
  feasible g connectivity s = true <->
  0 <= s /\ 0 < mat_M connectivity /\ state_root connectivity s < numel g /\
  validind_point g (pt1 g connectivity s) = true /\
  validind_point g (pt2 g connectivity s) = true.
Proof.
  unfold feasible. rewrite !andb_true_iff, Z.leb_le, !Z.ltb_lt. tauto.
Qed.

Lemma grid_positive (g : Grid) (p : Point) :
  validind_point g p = true -> 0 < gridM g /\ 0 < gridN g /\ 0 < gridO g.
Proof.
  intros V. apply validind_true_iff in V. lia.
Qed.

Lemma feasible_pt0 (g : Grid) (connectivity : matrix Z) (s : Z) :
  feasible g connectivity s = true ->
  validind_point g (pt0 g connectivity s) = true.
Proof.
  intros F. apply feasible_spec in F. destruct F as (Hs & HK & Hr & V1 & V2).
  destruct (grid_positive _ _ V1) as (HM & HN & HO).
  destruct (decode_range connectivity s Hs HK) as (R0 & _).
  pose proof (ind2sub_valid g (state_root connectivity s) HM HN (conj R0 Hr)) as V.
  rewrite make_point_ind2sub in V. exact V.
Qed.

(** The state pushed for the candidate [e3] continues the state [s]. *)
Lemma successor_state (g : Grid) (connectivity : matrix Z) (s e3 : Z) :
  feasible g connectivity s = true ->
  0 <= e3 < mat_M connectivity ->
  validind_point g (move (pt2 g connectivity s) connectivity e3) = true ->
  let t := edgepair_index connectivity
             (sub2ind_point g (pt1 g connectivity s))
             (state_e2 connectivity s) e3 in
  state_root connectivity t = sub2ind_point g (pt1 g connectivity s) /\
  state_e1 connectivity t = state_e2 connectivity s /\
  state_e2 connectivity t = e3 /\
  pt0 g connectivity t = pt1 g connectivity s /\
  pt1 g connectivity t = pt2 g connectivity s /\
  pt2 g connectivity t = move (pt2 g connectivity s) connectivity e3 /\
  feasible g connectivity t = true.
Proof.
  intros F He3 V3 t.
  pose proof F as F'. apply feasible_spec in F'.
  destruct F' as (Hs & HK & Hr & V1 & V2).
  destruct (decode_range connectivity s Hs HK) as (R0 & R1 & R2 & _).
  pose proof (validind_point_range g _ V1) as B1.
  destruct (decode_index connectivity (sub2ind_point g (pt1 g connectivity s))
              (state_e2 connectivity s) e3 (proj1 B1) R2 He3) as (D0 & D1 & D2).
  fold t in D0, D1, D2.
  assert (P0 : pt0 g connectivity t = pt1 g connectivity s).
  { unfold pt0 at 1. rewrite D0. apply make_point_sub2ind. exact V1. }
  assert (P1 : pt1 g connectivity t = pt2 g connectivity s).
  { unfold pt1 at 1. rewrite P0, D1. reflexivity. }
  assert (P2 : pt2 g connectivity t = move (pt2 g connectivity s) connectivity e3).
  { unfold pt2 at 1. rewrite P1, D2. reflexivity. }
  repeat split; try assumption.
  apply feasible_spec. rewrite D0, P1, P2.
  repeat split; try assumption; try lia.
  unfold t, edgepair_index.
  assert (0 <= sub2ind_point g (pt1 g connectivity s)
               * (mat_M connectivity * mat_M connectivity))
    by (apply Z.mul_nonneg_nonneg; [lia | apply Z.mul_nonneg_nonneg; lia]).
  assert (0 <= mat_M connectivity * state_e2 connectivity s)
    by (apply Z.mul_nonneg_nonneg; lia).
  lia.
Qed.

(** ** The indices of edge pairs in [int] *)

Lemma int_sized_spec (mesh_map connectivity : matrix Z) :
  int_sized mesh_map connectivity = true ->
  0 <= mat_M connectivity /\ 0 <= mat_numel mesh_map /\
  mat_M connectivity * mat_M connectivity <= INT_MAX /\
  mat_numel mesh_map <= INT_MAX /\
  num_edges mesh_map connectivity + 1 <= INT_MAX.
Proof.
  unfold int_sized. rewrite !andb_true_iff, !Z.leb_le. tauto.
Qed.

Lemma conn_int (mesh_map connectivity : matrix Z) (e k : Z) :
  int_sized mesh_map connectivity = true ->
  INT_MIN <= conn connectivity e k <= INT_MAX.
Proof.
  intros H. unfold int_sized in H. apply andb_true_iff in H.
  destruct H as [_ H]. unfold conn, mat_get.
  assert (Z0 : INT_MIN <= 0 <= INT_MAX) by (split; discriminate).
  destruct (_ <? 0); [exact Z0|].
  destruct (nth_in_or_default
              (Z.to_nat (e + k * mat_M connectivity
                         + 0 * mat_M connectivity * mat_N connectivity))
              (mat_data connectivity) 0) as [Hin | ->]; [|exact Z0].
  unfold int_entries in H. rewrite forallb_forall in H.
  specialize (H _ Hin). apply andb_true_iff in H.
  rewrite !Z.leb_le in H. exact H.
Qed.

Lemma int32_num_edges_exact (mesh_map connectivity : matrix Z) :
  int_sized mesh_map connectivity = true ->
  Int32.num_edges mesh_map connectivity = num_edges mesh_map connectivity /\
  Int32.add (Int32.num_edges mesh_map connectivity) 1
  = num_edges mesh_map connectivity + 1 /\
  0 <= num_edges mesh_map connectivity.
Proof.
  intros H. apply int_sized_spec in H. destruct H as (HK & Hn & HKK & Hnum & He).
  assert (P : 0 <= num_edges mesh_map connectivity).
  { unfold num_edges. apply Z.mul_nonneg_nonneg; [|exact Hn].
    apply Z.mul_nonneg_nonneg; exact HK. }
  assert (E : Int32.num_edges mesh_map connectivity
              = num_edges mesh_map connectivity).
  { unfold Int32.num_edges, Int32.mul, num_edges in *. cbv zeta.
    assert (0 <= mat_M connectivity * mat_M connectivity)
      by (apply Z.mul_nonneg_nonneg; exact HK).
    rewrite (wrap_exact (mat_numel mesh_map))
      by (unfold INT_MIN, INT_MAX in *; lia).
    rewrite (wrap_exact (mat_M connectivity * mat_M connectivity))
      by (unfold INT_MIN, INT_MAX in *; lia).
    apply wrap_exact. unfold INT_MIN, INT_MAX in *. lia. }
  split; [exact E|]. split; [|exact P].
  rewrite E. unfold Int32.add. apply wrap_exact.
  unfold INT_MIN, INT_MAX in *. lia.
Qed.

Lemma int32_decompose_exact (connectivity : matrix Z) (s : Z) :
  0 < mat_M connectivity ->
  mat_M connectivity * mat_M connectivity <= INT_MAX ->
  INT_MIN <= s <= INT_MAX ->
  Int32.decompose_pair_of_edgepairs s connectivity
  = Some (decompose_pair_of_edgepairs s connectivity) /\
  Int32.decompose_edgepair
    (snd (decompose_pair_of_edgepairs s connectivity)) connectivity
  = Some (decompose_edgepair
            (snd (decompose_pair_of_edgepairs s connectivity)) connectivity).
Proof.
  intros HK HKK Hs.
  assert (Hd : 0 < mat_M connectivity * mat_M connectivity)
    by (apply Z.mul_pos_pos; exact HK).
  unfold Int32.decompose_pair_of_edgepairs, Int32.decompose_edgepair,
    decompose_pair_of_edgepairs, decompose_edgepair, Int32.mul.
  cbv zeta. cbn [snd].
  rewrite (wrap_exact (mat_M connectivity * mat_M connectivity))
    by (unfold INT_MIN, INT_MAX in *; lia).
  rewrite (int32_div_exact s), (int32_rem_exact s) by assumption.
  split; [reflexivity|].
  destruct (quot_rem_signed s (mat_M connectivity * mat_M connectivity) Hd)
    as (_ & Pos & Neg).
  assert (Hr : INT_MIN <= Z.rem s (mat_M connectivity * mat_M connectivity)
               <= INT_MAX).
  { unfold INT_MIN, INT_MAX in *.
    destruct (Z_le_gt_dec 0 s) as [P | N];
      [specialize (Pos P) | specialize (Neg ltac:(lia))]; lia. }
  rewrite int32_div_exact, int32_rem_exact by assumption.
  reflexivity.
Qed.

Lemma int32_edgepair_index_exact (g : Grid) (mesh_map connectivity : matrix Z)
    (x y z e1 e2 : Z) :
  int_sized mesh_map connectivity = true ->
  mat_numel mesh_map = numel g ->
  validind g x y z = true ->
  0 <= e1 < mat_M connectivity -> 0 <= e2 < mat_M connectivity ->
  Int32.pair_id g connectivity x y z e1 e2
  = edgepair_index connectivity (sub2ind g x y z) e1 e2 /\
  Int32.dest g connectivity x y z e1 e2
  = edgepair_index connectivity (sub2ind g x y z) e1 e2 /\
  0 <= edgepair_index connectivity (sub2ind g x y z) e1 e2
    < num_edges mesh_map connectivity.
Proof.
  intros Hsized Hsize V H1 H2.
  apply int_sized_spec in Hsized.
  destruct Hsized as (HK & Hn & HKK & Hnum & He).
  pose proof V as V'. apply validind_true_iff in V'.
  destruct V' as (Hx & Hy & Hz).
  pose proof (sub2ind_range g x y z Hx Hy Hz) as R.
  unfold Int32.pair_id, Int32.dest. cbv zeta.
  rewrite (int32_sub2ind_exact g x y z) by (try exact V; lia).
  unfold edgepair_index, num_edges, Int32.add, Int32.mul in *.
  rewrite Hsize in *.
  set (K := mat_M connectivity) in *.
  set (root := sub2ind g x y z) in *.
  pose proof (lin2_bounds K K e2 e1 H2 H1) as B.
  assert (0 <= K * K) by (apply Z.mul_nonneg_nonneg; lia).
  assert (0 <= root * (K * K)) by (apply Z.mul_nonneg_nonneg; lia).
  assert ((root + 1) * (K * K) <= numel g * (K * K))
    by (apply Z.mul_le_mono_nonneg_r; lia).
  assert (0 <= K * e1) by (apply Z.mul_nonneg_nonneg; lia).
  rewrite (wrap_exact (K * K)) by (unfold INT_MIN, INT_MAX in *; lia).
  rewrite (wrap_exact (root * (K * K)))
    by (unfold INT_MIN, INT_MAX in *; lia).
  rewrite (wrap_exact (K * e1)) by (unfold INT_MIN, INT_MAX in *; lia).
  rewrite (wrap_exact (root * (K * K) + K * e1))
    by (unfold INT_MIN, INT_MAX in *; lia).
  rewrite (wrap_exact (K * e1 + e2)) by (unfold INT_MIN, INT_MAX in *; lia).
  rewrite (wrap_exact (root * (K * K) + K * e1 + e2))
    by (unfold INT_MIN, INT_MAX in *; lia).
  rewrite (wrap_exact (root * (K * K) + (K * e1 + e2)))
    by (unfold INT_MIN, INT_MAX in *; lia).
  split; [reflexivity|]. split; lia.
Qed.

(** ** Start and end sets *)

Lemma start_end_sets_members (first : bool) (g : Grid)
    (mesh_map connectivity : matrix Z) (s : Z) :
  In s (pick first (start_end_sets g mesh_map connectivity)) <->
  exists root, 0 <= root < mat_numel mesh_map /\
  exists e1, 0 <= e1 < mat_M connectivity /\
  exists e2, 0 <= e2 < mat_M connectivity /\
    admissible_pair g connectivity root e1 e2 /\
    (if first
     then label_at mesh_map (make_point g root) = 2
     else label_at mesh_map
            (move (move (make_point g root) connectivity e1) connectivity e2) = 3)
    /\ s = edgepair_index connectivity root e1 e2.
Proof.
  unfold start_end_sets.
  rewrite (for_loop_members (pick first) _ _
    (fun root s =>
       exists e1, 0 <= e1 < mat_M connectivity /\
       exists e2, 0 <= e2 < mat_M connectivity /\
         admissible_pair g connectivity root e1 e2 /\
         (if first
          then label_at mesh_map (make_point g root) = 2
          else label_at mesh_map
                 (move (move (make_point g root) connectivity e1)
                    connectivity e2) = 3)
         /\ s = edgepair_index connectivity root e1 e2)).
  - destruct first; simpl; intuition.
  - intros root acc x Hroot.
    rewrite (make_point_ind2sub g root).
    set (p0 := make_point g root).
    rewrite (for_loop_members (pick first) _ _
      (fun e1 s =>
         exists e2, 0 <= e2 < mat_M connectivity /\
           admissible_pair g connectivity root e1 e2 /\
           (if first
            then label_at mesh_map p0 = 2
            else label_at mesh_map (move (move p0 connectivity e1)
                                      connectivity e2) = 3)
           /\ s = edgepair_index connectivity root e1 e2)).
    + reflexivity.
    + intros e1 acc1 x1 He1.
      destruct (validind g (px p0 + conn connectivity e1 0)
                  (py p0 + conn connectivity e1 1)
                  (pz p0 + conn connectivity e1 2)) eqn:V1; cbn [negb].
      * rewrite (for_loop_members (pick first) _ _
          (fun e2 s =>
             admissible_pair g connectivity root e1 e2 /\
             (if first
              then label_at mesh_map p0 = 2
              else label_at mesh_map (move (move p0 connectivity e1)
                                        connectivity e2) = 3)
             /\ s = edgepair_index connectivity root e1 e2)).
        -- reflexivity.
        -- intros e2 acc2 x2 He2.
           unfold admissible_pair. fold p0.
           unfold validind_point, point_eqb, move, label_at. cbn [px py pz].
           rewrite V1.
           destruct ((px p0 =? _) && (py p0 =? _) && (pz p0 =? _)) eqn:B.
           { split; [intros H; left; exact H|].
             intros [H | ((_ & H & _) & _)]; [exact H | discriminate]. }
           destruct (validind g
                       (px p0 + conn connectivity e1 0 + conn connectivity e2 0)
                       (py p0 + conn connectivity e1 1 + conn connectivity e2 1)
                       (pz p0 + conn connectivity e1 2 + conn connectivity e2 2))
             eqn:V2; cbn [negb].
           2:{ split; [intros H; left; exact H|].
               intros [H | ((_ & _ & H) & _)]; [exact H | discriminate]. }
           assert (Eid : sub2ind g (px p0) (py p0) (pz p0)
                           * (mat_M connectivity * mat_M connectivity)
                         + mat_M connectivity * e1 + e2
                         = edgepair_index connectivity root e1 e2).
           { unfold edgepair_index.
             pose proof (sub2ind_ind2sub g root) as S.
             rewrite make_point_ind2sub in S. fold p0 in S. rewrite S.
             reflexivity. }
           rewrite Eid.
           destruct acc2 as [start_set_pairs end_set_pairs].
           destruct first; cbn [pick fst snd].
           ++ destruct (label mesh_map (px p0) (py p0) (pz p0) =? 2) eqn:L.
              ** apply Z.eqb_eq in L. rewrite set_insert_In. intuition.
              ** apply Z.eqb_neq in L. intuition.
           ++ destruct (label mesh_map _ _ _ =? 3) eqn:L.
              ** apply Z.eqb_eq in L. rewrite set_insert_In. intuition.
              ** apply Z.eqb_neq in L. intuition.
      * split; [intros H; left; exact H|].
        intros [H | (e2 & _ & (H & _) & _)]; [exact H|].
        fold p0 in H. unfold validind_point, move in H. cbn [px py pz] in H.
        congruence.
Qed.

Lemma start_end_sets_increasing (g : Grid) (mesh_map connectivity : matrix Z) :
  increasing (fst (start_end_sets g mesh_map connectivity)) /\
  increasing (snd (start_end_sets g mesh_map connectivity)).
Proof.
  unfold start_end_sets.
  apply (for_loop_invariant
           (fun sets => increasing (fst sets) /\ increasing (snd sets))).
  - split; constructor.
  - intros root acc _ Hacc.
    destruct (ind2sub g root) as [[x1 y1] z1].
    apply for_loop_invariant; [exact Hacc|].
    intros e1 acc1 _ Hacc1.
    destruct (negb _); [exact Hacc1|].
    apply for_loop_invariant; [exact Hacc1|].
    intros e2 acc2 _ Hacc2.
    destruct (_ && _ && _); [exact Hacc2|].
    destruct (negb _); [exact Hacc2|].
    destruct acc2 as [start_set_pairs end_set_pairs].
    cbn [fst snd] in *. destruct Hacc2 as [H1 H2].
    split.
    + destruct (_ =? 2); [apply set_insert_increasing|]; exact H1.
    + destruct (_ =? 3); [apply set_insert_increasing|]; exact H2.
Qed.

Lemma fold_left_push_in {A B : Type} (body : list A -> B -> list A)
    (f : B -> A) (l : list B) :
  (forall b acc, In b l -> body acc b = acc ++ [f b]) ->
  forall acc, fold_left body l acc = acc ++ map f l.
Proof.
  induction l as [|b l IH]; intros Hbody acc; simpl.
  - rewrite app_nil_r. reflexivity.
  - rewrite Hbody by (left; reflexivity).
    rewrite IH by (intros b' acc' Hb'; apply Hbody; right; exact Hb').
    rewrite <- app_assoc. reflexivity.
Qed.

(** A member of the start set is a feasible state and decodes to the pair it
    was inserted for. *)
Lemma start_set_feasible (g : Grid) (mesh_map connectivity : matrix Z) (s : Z) :
  In s (fst (start_end_sets g mesh_map connectivity)) ->
  mat_numel mesh_map = numel g ->
  feasible g connectivity s = true.
Proof.
  intros Hin Hnumel.
  apply (start_end_sets_members true) in Hin.
  destruct Hin as (root & Hroot & e1 & He1 & e2 & He2 & (V1 & B & V2) & L & ->).
  destruct (decode_index connectivity root e1 e2 (proj1 Hroot) He1 He2)
    as (D0 & D1 & D2).
  apply feasible_spec. unfold pt2, pt1, pt0. rewrite D0, D1, D2.
  repeat split; try assumption; try lia.
  unfold edgepair_index.
  assert (0 <= root * (mat_M connectivity * mat_M connectivity))
    by (apply Z.mul_nonneg_nonneg; [lia | apply Z.mul_nonneg_nonneg; lia]).
  assert (0 <= mat_M connectivity * e1) by (apply Z.mul_nonneg_nonneg; lia).
  lia.
Qed.

Lemma start_set_points (g : Grid) (mesh_map connectivity : matrix Z) (s : Z) :
  In s (fst (start_end_sets g mesh_map connectivity)) ->
  validind_point g (pt1 g connectivity s) = true /\
  validind_point g (pt2 g connectivity s) = true.
Proof.
  intros Hin.
  apply (start_end_sets_members true) in Hin.
  destruct Hin as (root & Hroot & e1 & He1 & e2 & He2 & (V1 & B & V2) & L & ->).
  destruct (decode_index connectivity root e1 e2 (proj1 Hroot) He1 He2)
    as (D0 & D1 & D2).
  unfold pt2, pt1, pt0. rewrite D0, D1, D2. split; assumption.
Qed.

Lemma super_expansion_eq
    (fl32 : float -> float) (g : Grid) (data_term : Segment)
    (mesh_map connectivity : matrix Z) (e_super : Z)
    (length_cost : Segment) (curvature_cost : Triple) (torsion_cost : Quadruple)
    (neighbors : list Neighbor) :
  get_neighbors_torsion fl32 g data_term e_super connectivity
    (fst (start_end_sets g mesh_map connectivity))
    length_cost curvature_cost torsion_cost e_super neighbors
  = neighbors ++
    map (fun s =>
           let p0 := pt0 g connectivity s in
           let p1 := pt1 g connectivity s in
           let p2 := pt2 g connectivity s in
           mkNeighbor s
             (float_sum fl32
                [on_segment data_term p0 p1;
                 on_segment data_term p1 p2;
                 on_triple curvature_cost p0 p1 p2;
                 on_segment length_cost p0 p1;
                 on_segment length_cost p1 p2]))
        (fst (start_end_sets g mesh_map connectivity)).
Proof.
  unfold get_neighbors_torsion. rewrite Z.eqb_refl.
  apply fold_left_push_in.
  intros s acc Hin.
  destruct (start_set_points g mesh_map connectivity s Hin) as [V1 V2].
  rewrite points_in_a_edgepair_eq.
  rewrite !make_point_ind2sub.
  rewrite (make_point_sub2ind g _ V1), (make_point_sub2ind g _ V2).
  reflexivity.
Qed.

(** ** The lifting in [int] *)

Lemma feasible_below_super (g : Grid) (mesh_map connectivity : matrix Z) (s : Z) :
  mat_numel mesh_map = numel g ->
  feasible g connectivity s = true ->
  0 <= s < num_edges mesh_map connectivity.
Proof.
  intros Hnumel F. apply feasible_spec in F.
  destruct F as (Hs & HK & Hr & _).
  destruct (decode_range connectivity s Hs HK) as (R0 & R1 & R2 & E).
  split; [exact Hs|].
  unfold num_edges. rewrite Hnumel.
  set (K := mat_M connectivity) in *.
  pose proof (lin2_bounds K K _ _ R2 R1) as B.
  unfold edgepair_index in E. fold K in E.
  assert (H : (state_root connectivity s + 1) * (K * K) <= numel g * (K * K))
    by (apply Z.mul_le_mono_nonneg_r; lia).
  lia.
Qed.

Lemma positive_sizes (g : Grid) :
  0 <= gridM g -> 0 <= gridN g -> 0 < numel g <= INT_MAX ->
  0 < gridM g /\ 0 < gridN g /\ 0 < gridO g /\
  gridM g * gridN g <= INT_MAX.
Proof.
  unfold numel. intros HM HN Hn.
  assert (HM' : 0 < gridM g).
  { destruct (Z.eq_dec (gridM g) 0) as [E | E]; [|lia].
    rewrite E in Hn. cbn in Hn. lia. }
  assert (HN' : 0 < gridN g).
  { destruct (Z.eq_dec (gridN g) 0) as [E | E]; [|lia].
    rewrite E, Z.mul_0_r in Hn. cbn in Hn. lia. }
  assert (0 < gridM g * gridN g) by (apply Z.mul_pos_pos; assumption).
  assert (HO' : 0 < gridO g).
  { destruct (Z_lt_le_dec 0 (gridO g)) as [L | L]; [exact L|].
    pose proof (Z.mul_nonneg_nonpos (gridM g * gridN g) (gridO g)
                  ltac:(lia) L).
    lia. }
  assert (gridM g * gridN g * 1 <= gridM g * gridN g * gridO g)
    by (apply Z.mul_le_mono_nonneg_l; lia).
  repeat split; try assumption. lia.
Qed.

Lemma sizes_below_numel (g : Grid) :
  0 < gridM g -> 0 < gridN g -> 0 < gridO g ->
  gridM g <= numel g /\ gridN g <= numel g /\ gridO g <= numel g /\
  gridM g * gridN g <= numel g.
Proof.
  intros HM HN HO. unfold numel.
  assert (0 < gridM g * gridN g) by (apply Z.mul_pos_pos; assumption).
  assert (gridM g * 1 <= gridM g * gridN g)
    by (apply Z.mul_le_mono_nonneg_l; lia).
  assert (1 * gridN g <= gridM g * gridN g)
    by (apply Z.mul_le_mono_nonneg_r; lia).
  assert (gridM g * gridN g * 1 <= gridM g * gridN g * gridO g)
    by (apply Z.mul_le_mono_nonneg_l; lia).
  assert (1 * gridO g <= gridM g * gridN g * gridO g)
    by (apply Z.mul_le_mono_nonneg_r; lia).
  lia.
Qed.

Lemma int32_add_in_bounds (size x c : Z) :
  0 <= x + c < size -> size <= INT_MAX -> Int32.add x c = x + c.
Proof.
  intros H Hs. apply wrap_exact. unfold INT_MIN, INT_MAX in *. lia.
Qed.

Lemma usual_case_on_int (fl32 : float -> float) (g : Grid)
    (data_term : Segment) (mesh_map connectivity : matrix Z)
    (start_set_pairs : list Z)
    (length_cost : Segment) (curvature_cost : Triple) (torsion_cost : Quadruple)
    (ep : Z) (neighbors : list Neighbor) :
  int_sized mesh_map connectivity = true ->
  mat_numel mesh_map = numel g ->
  feasible g connectivity ep = true ->
  get_neighbors_torsion_int32 fl32 g data_term
    (num_edges mesh_map connectivity) connectivity start_set_pairs
    length_cost curvature_cost torsion_cost ep neighbors
  = Some (get_neighbors_torsion fl32 g data_term
            (num_edges mesh_map connectivity) connectivity start_set_pairs
            length_cost curvature_cost torsion_cost ep neighbors).
Proof.
  intros Hsized Hsize F.
  pose proof (feasible_below_super g mesh_map connectivity ep Hsize F) as B.
  pose proof (feasible_pt0 g connectivity ep F) as V0.
  pose proof F as F'. apply feasible_spec in F'.
  destruct F' as (Hs & HK & Hr & V1 & V2).
  destruct (decode_range connectivity ep Hs HK) as (R0 & R1 & R2 & _).
  pose proof Hsized as Hb. apply int_sized_spec in Hb.
  destruct Hb as (_ & _ & HKK & Hnum & He).
  rewrite Hsize in Hnum.
  destruct (grid_positive _ _ V1) as (HM & HN & HO).
  destruct (sizes_below_numel g HM HN HO) as (BM & BN & BO & BMN).
  destruct (int32_decompose_exact connectivity ep HK HKK) as (D1 & D2).
  { unfold INT_MIN, INT_MAX in *. lia. }
  assert (I0 : Int32.ind2sub g (state_root connectivity ep)
               = Some (ind2sub g (state_root connectivity ep))).
  { apply int32_ind2sub_exact; try assumption; [lia|].
    unfold INT_MIN, INT_MAX in *. lia. }
  unfold get_neighbors_torsion_int32, get_neighbors_torsion.
  replace (ep =? num_edges mesh_map connectivity) with false
    by (symmetry; apply Z.eqb_neq; lia).
  unfold pt2, pt1, pt0, state_e2, state_e1, state_root in *.
  rewrite D1.
  destruct (decompose_pair_of_edgepairs ep connectivity) as [root id].
  cbn [fst snd] in *. rewrite D2.
  destruct (decompose_edgepair id connectivity) as [e1 e2].
  cbn [fst snd] in *. rewrite I0.
  rewrite (make_point_ind2sub g root).
  set (p0 := make_point g root) in *. clearbody p0.
  pose proof V1 as W1. pose proof V2 as W2.
  apply validind_true_iff in W1. apply validind_true_iff in W2.
  unfold move in W1, W2. cbn [px py pz] in W1, W2.
  destruct W1 as (W1x & W1y & W1z). destruct W2 as (W2x & W2y & W2z).
  rewrite (int32_add_in_bounds _ _ _ W1x) by lia.
  rewrite (int32_add_in_bounds _ _ _ W1y) by lia.
  rewrite (int32_add_in_bounds _ _ _ W1z) by lia.
  rewrite (int32_add_in_bounds _ _ _ W2x) by lia.
  rewrite (int32_add_in_bounds _ _ _ W2y) by lia.
  rewrite (int32_add_in_bounds _ _ _ W2z) by lia.
  f_equal. apply for_loop_ext. intros e3 acc He3.
  destruct (int32_move_exact g _ connectivity e3 V2) as (Hv & Hq);
    try lia; try (apply (conn_int mesh_map); exact Hsized).
  unfold validind_point, move in Hv, Hq. cbn [px py pz] in Hv, Hq.
  cbv zeta. rewrite Hv.
  destruct (validind g _ _ _) eqn:V3 in |- *; cbn [negb]; [|reflexivity].
  rewrite V3 in Hq. specialize (Hq eq_refl). injection Hq as Q0 Q1 Q2.
  rewrite Q0, Q1, Q2.
  destruct (_ && _ && _); [reflexivity|].
  destruct (int32_edgepair_index_exact g mesh_map connectivity
              _ _ _ e2 e3 Hsized Hsize V1 R2 He3) as (_ & Ed & _).
  unfold move in Ed. cbn [px py pz] in Ed. rewrite Ed.
  unfold edgepair_index. do 3 f_equal. lia.
Qed.

Lemma int32_points_in_a_edgepair_exact (g : Grid)
    (mesh_map connectivity : matrix Z) (s : Z) :
  int_sized mesh_map connectivity = true ->
  mat_numel mesh_map = numel g ->
  feasible g connectivity s = true ->
  Int32.points_in_a_edgepair g s connectivity
  = Some (points_in_a_edgepair g s connectivity).
Proof.
  intros Hsized Hsize F.
  pose proof (feasible_below_super g mesh_map connectivity s Hsize F) as B.
  pose proof F as F'. apply feasible_spec in F'.
  destruct F' as (Hs & HK & Hr & V1 & V2).
  destruct (decode_range connectivity s Hs HK) as (R0 & _).
  pose proof Hsized as Hb. apply int_sized_spec in Hb.
  destruct Hb as (_ & _ & HKK & Hnum & He).
  rewrite Hsize in Hnum.
  destruct (grid_positive _ _ V1) as (HM & HN & HO).
  destruct (sizes_below_numel g HM HN HO) as (BM & BN & BO & BMN).
  destruct (int32_decompose_exact connectivity s HK HKK) as (D1 & D2).
  { unfold INT_MIN, INT_MAX in *. lia. }
  assert (I0 : Int32.ind2sub g (state_root connectivity s)
               = Some (ind2sub g (state_root connectivity s))).
  { apply int32_ind2sub_exact; try assumption; [lia|].
    unfold INT_MIN, INT_MAX in *. lia. }
  unfold Int32.points_in_a_edgepair, points_in_a_edgepair.
  unfold pt2, pt1, pt0, state_e2, state_e1, state_root in *.
  rewrite D1.
  destruct (decompose_pair_of_edgepairs s connectivity) as [root id].
  cbn [fst snd] in *. rewrite D2.
  destruct (decompose_edgepair id connectivity) as [e1 e2].
  cbn [fst snd] in *. rewrite I0.
  rewrite (make_point_ind2sub g root).
  set (p0 := make_point g root) in *. clearbody p0.
  pose proof V1 as W1. pose proof V2 as W2.
  apply validind_true_iff in W1. apply validind_true_iff in W2.
  unfold move in W1, W2. cbn [px py pz] in W1, W2.
  destruct W1 as (W1x & W1y & W1z). destruct W2 as (W2x & W2y & W2z).
  cbv zeta.
  rewrite (int32_add_in_bounds _ _ _ W1x) by lia.
  rewrite (int32_add_in_bounds _ _ _ W1y) by lia.
  rewrite (int32_add_in_bounds _ _ _ W1z) by lia.
  rewrite (int32_add_in_bounds _ _ _ W2x) by lia.
  rewrite (int32_add_in_bounds _ _ _ W2y) by lia.
  rewrite (int32_add_in_bounds _ _ _ W2z) by lia.
  unfold validind_point, move in V1, V2. cbn [px py pz] in V1, V2.
  rewrite (int32_sub2ind_exact g _ _ _ Hnum V1).
  rewrite (int32_sub2ind_exact g _ _ _ Hnum V2).
  reflexivity.
Qed.

Lemma super_case_on_int (fl32 : float -> float) (g : Grid)
    (data_term : Segment) (mesh_map connectivity : matrix Z)
    (length_cost : Segment) (curvature_cost : Triple) (torsion_cost : Quadruple)
    (neighbors : list Neighbor) :
  int_sized mesh_map connectivity = true ->
  mat_numel mesh_map = numel g ->
  let e_super := num_edges mesh_map connectivity in
  let start_set_pairs := fst (start_end_sets g mesh_map connectivity) in
  get_neighbors_torsion_int32 fl32 g data_term e_super connectivity
    start_set_pairs length_cost curvature_cost torsion_cost e_super neighbors
  = Some (get_neighbors_torsion fl32 g data_term e_super connectivity
            start_set_pairs length_cost curvature_cost torsion_cost e_super
            neighbors).
Proof.
  intros Hsized Hsize e_super start_set_pairs.
  unfold get_neighbors_torsion_int32, get_neighbors_torsion.
  rewrite Z.eqb_refl.
  apply fold_left_some. intros s acc Hin.
  pose proof (start_set_feasible g mesh_map connectivity s Hin Hsize) as F.
  rewrite (int32_points_in_a_edgepair_exact g mesh_map connectivity s
             Hsized Hsize F).
  rewrite points_in_a_edgepair_eq.
  pose proof F as F'. apply feasible_spec in F'.
  destruct F' as (Hs & HK & Hr & V1 & V2).
  destruct (decode_range connectivity s Hs HK) as (R0 & _).
  pose proof Hsized as Hb. apply int_sized_spec in Hb.
  destruct Hb as (_ & _ & _ & Hnum & _).
  rewrite Hsize in Hnum.
  destruct (grid_positive _ _ V1) as (HM & HN & HO).
  destruct (sizes_below_numel g HM HN HO) as (_ & _ & _ & BMN).
  pose proof (validind_point_range g _ V1) as B1.
  pose proof (validind_point_range g _ V2) as B2.
  rewrite !int32_ind2sub_exact;
    try assumption; try lia; try (unfold INT_MIN, INT_MAX in *; lia).
  destruct (ind2sub g (state_root connectivity s)) as [[x2 y2] z2].
  destruct (ind2sub g (sub2ind_point g (pt1 g connectivity s)))
    as [[x3 y3] z3].
  destruct (ind2sub g (sub2ind_point g (pt2 g connectivity s)))
    as [[x4 y4] z4].
  reflexivity.
Qed.

Lemma start_end_sets_on_int (g : Grid) (mesh_map connectivity : matrix Z) :
  int_sized mesh_map connectivity = true ->
  mat_numel mesh_map = numel g ->
  0 <= gridM g -> 0 <= gridN g ->
  start_end_sets_int32 g mesh_map connectivity
  = Some (start_end_sets g mesh_map connectivity).
Proof.
  intros Hsized Hsize HM0 HN0.
  pose proof Hsized as Hb. apply int_sized_spec in Hb.
  destruct Hb as (_ & _ & _ & Hnum & _).
  unfold start_end_sets_int32, start_end_sets.
  apply for_loop_some. intros n sets Hn.
  rewrite Hsize in Hn, Hnum.
  destruct (positive_sizes g HM0 HN0 ltac:(lia)) as (HM & HN & HO & HMN).
  destruct (sizes_below_numel g HM HN HO) as (BM & BN & BO & _).
  rewrite int32_ind2sub_exact
    by (try assumption; unfold INT_MIN, INT_MAX in *; lia).
  pose proof (ind2sub_valid g n HM HN Hn) as V0.
  rewrite (make_point_ind2sub g n) in V0 |- *.
  set (p0 := make_point g n) in *. clearbody p0.
  change (validind_point g p0 = true) in V0.
  f_equal. apply for_loop_ext. intros e1 sets1 He1.
  destruct (int32_move_exact g p0 connectivity e1 V0) as (Hv & Hq);
    try lia; try (apply (conn_int mesh_map); exact Hsized).
  unfold validind_point, move in Hv, Hq. cbn [px py pz] in Hv, Hq.
  cbv zeta. rewrite Hv.
  destruct (validind g _ _ _) eqn:V1 in |- *; cbn [negb]; [|reflexivity].
  rewrite V1 in Hq. specialize (Hq eq_refl). injection Hq as Q0 Q1 Q2.
  rewrite Q0, Q1, Q2.
  apply for_loop_ext. intros e2 sets2 He2.
  pose proof V0 as W0. apply validind_true_iff in W0.
  destruct W0 as (W0x & W0y & W0z).
  pose proof V1 as W1. apply validind_true_iff in W1.
  destruct W1 as (W1x & W1y & W1z).
  destruct (int32_coordinate_exact (gridM g) _ (conn connectivity e2 0) W1x)
    as (_ & _ & Ex); [lia | apply (conn_int mesh_map); exact Hsized |].
  destruct (int32_coordinate_exact (gridN g) _ (conn connectivity e2 1) W1y)
    as (_ & _ & Ey); [lia | apply (conn_int mesh_map); exact Hsized |].
  destruct (int32_coordinate_exact (gridO g) _ (conn connectivity e2 2) W1z)
    as (_ & _ & Ez); [lia | apply (conn_int mesh_map); exact Hsized |].
  rewrite (Ex _ W0x), (Ey _ W0y), (Ez _ W0z).
  destruct (_ && _ && _); [reflexivity|].
  destruct (int32_move_exact g
              (mkPoint (px p0 + conn connectivity e1 0)
                       (py p0 + conn connectivity e1 1)
                       (pz p0 + conn connectivity e1 2))
              connectivity e2 V1) as (Hv2 & Hq2);
    try lia; try (apply (conn_int mesh_map); exact Hsized).
  unfold validind_point, move in Hv2, Hq2. cbn [px py pz] in Hv2, Hq2.
  rewrite Hv2.
  destruct (validind g _ _ _) eqn:V2 in |- *; cbn [negb]; [|reflexivity].
  rewrite V2 in Hq2. specialize (Hq2 eq_refl). injection Hq2 as P0 P1 P2.
  rewrite P0, P1, P2.
  destruct (int32_edgepair_index_exact g mesh_map connectivity
              (px p0) (py p0) (pz p0) e1 e2 Hsized Hsize V0 He1 He2)
    as (Ep & _ & _).
  rewrite Ep. unfold edgepair_index. reflexivity.
Qed.

Lemma start_set_below_super (g : Grid) (mesh_map connectivity : matrix Z) (s : Z) :
  In s (fst (start_end_sets g mesh_map connectivity)) ->
  0 <= s < num_edges mesh_map connectivity.
Proof.
  intros Hin.
  apply (start_end_sets_members true) in Hin.
  destruct Hin as (root & Hroot & e1 & He1 & e2 & He2 & _ & _ & ->).
  unfold num_edges, edgepair_index.
  set (K := mat_M connectivity) in *.
  pose proof (lin2_bounds K K _ _ He2 He1) as B.
  assert (0 <= root * (K * K))
    by (apply Z.mul_nonneg_nonneg; [lia | apply Z.mul_nonneg_nonneg; lia]).
  assert ((root + 1) * (K * K) <= mat_numel mesh_map * (K * K))
    by (apply Z.mul_le_mono_nonneg_r; lia).
  lia.
Qed.

(** C3 (amended).  On a query whose mesh map has the sizes of the grid and
    whose number of states, the super-state and the count handed to the
    search included, is at most [INT_MAX], expanding the super-state pushes
    exactly one neighbour for each member of the start set, in increasing
    order of state index.  The start set holds the states (root, e1, e2)
    whose root voxel p0 is labelled start (2), whose voxels
    p1 = p0 + offset e1 and p2 = p1 + offset e2 are in bounds and whose p2
    differs from p0, and no other.  The cost of the neighbour is the data
    term over p0 -> p1 and over p1 -> p2, plus the curvature cost of
    p0,p1,p2, plus the length costs of the two segments, added up in that
    order in a [float]; no torsion cost enters it.  The sets and the callback
    computed on 32-bit [int] are the same, and the number of the super-state
    is computed in [int] without wrap-around. *)
Theorem C3_super_expansion
    (fl32 : float -> float) (g : Grid) (data_term : Segment)
    (mesh_map connectivity : matrix Z)
    (length_cost : Segment) (curvature_cost : Triple) (torsion_cost : Quadruple)
    (neighbors : list Neighbor) :
  int_sized mesh_map connectivity = true ->
  mat_numel mesh_map = numel g ->
  0 <= gridM g -> 0 <= gridN g ->
  let e_super := num_edges mesh_map connectivity in
  let start_set_pairs := fst (start_end_sets g mesh_map connectivity) in
  get_neighbors_torsion fl32 g data_term e_super connectivity start_set_pairs
    length_cost curvature_cost torsion_cost e_super neighbors
  = neighbors ++
    map (fun s =>
           let p0 := pt0 g connectivity s in
           let p1 := pt1 g connectivity s in
           let p2 := pt2 g connectivity s in
           mkNeighbor s
             (float_sum fl32
                [on_segment data_term p0 p1;
                 on_segment data_term p1 p2;
                 on_triple curvature_cost p0 p1 p2;
                 on_segment length_cost p0 p1;
                 on_segment length_cost p1 p2]))
        start_set_pairs
  /\ NoDup start_set_pairs
  /\ (forall s,
       In s start_set_pairs <->
       exists root, 0 <= root < mat_numel mesh_map /\
       exists e1, 0 <= e1 < mat_M connectivity /\
       exists e2, 0 <= e2 < mat_M connectivity /\
         let p0 := make_point g root in
         let p1 := move p0 connectivity e1 in
         let p2 := move p1 connectivity e2 in
         label_at mesh_map p0 = 2 /\
         validind_point g p1 = true /\ validind_point g p2 = true /\
         p2 <> p0 /\
         s = edgepair_index connectivity root e1 e2)
  /\ Int32.num_edges mesh_map connectivity = e_super
  /\ (forall s, In s start_set_pairs -> 0 <= s < e_super)
  /\ start_end_sets_int32 g mesh_map connectivity
     = Some (start_end_sets g mesh_map connectivity)
  /\ get_neighbors_torsion_int32 fl32 g data_term e_super connectivity
       start_set_pairs length_cost curvature_cost torsion_cost e_super
       neighbors
     = Some (get_neighbors_torsion fl32 g data_term e_super connectivity
               start_set_pairs length_cost curvature_cost torsion_cost
               e_super neighbors).
Proof.
  intros Hsized Hsize HM HN e_super start_set_pairs.
  split; [|split; [|split; [|split; [|split; [|split]]]]].
  - apply super_expansion_eq.
  - apply increasing_NoDup. apply start_end_sets_increasing.
  - intros s. unfold start_set_pairs.
    pose proof (start_end_sets_members true g mesh_map connectivity s) as Hmem.
    cbn [pick] in Hmem. rewrite Hmem. clear Hmem.
    split.
    + intros (root & Hroot & e1 & He1 & e2 & He2 & (V1 & B & V2) & L & E).
      exists root; split; [exact Hroot|].
      exists e1; split; [exact He1|].
      exists e2; split; [exact He2|].
      cbv zeta. repeat split; try assumption.
      intros Heq. rewrite Heq in B.
      assert (T : point_eqb (make_point g root) (make_point g root) = true)
        by (apply point_eqb_eq; reflexivity).
      congruence.
    + intros (root & Hroot & e1 & He1 & e2 & He2 & L & V1 & V2 & Hne & E).
      exists root; split; [exact Hroot|].
      exists e1; split; [exact He1|].
      exists e2; split; [exact He2|].
      repeat split; try assumption.
      destruct (point_eqb (make_point g root) _) eqn:B; [|reflexivity].
      apply point_eqb_eq in B. exfalso. apply Hne. symmetry. exact B.
  - exact (proj1 (int32_num_edges_exact mesh_map connectivity Hsized)).
  - intros s Hs. apply (start_set_below_super g). exact Hs.
  - apply start_end_sets_on_int; assumption.
  - apply super_case_on_int; assumption.
Qed.

Lemma C3_super_expansion_witness :
  get_neighbors_torsion Examples.no_rounding Examples.grid
    (Examples.zero_data [] 0 0 0 [])
    (num_edges Examples.open_map Examples.moves) Examples.moves
    (fst (start_end_sets Examples.grid Examples.open_map Examples.moves))
    (Examples.per_move [] 1%float) (Examples.no_curvature [] 0%float 2%float)
    (Examples.no_torsion [] 1%float 2%float)
    (num_edges Examples.open_map Examples.moves) []
  = map (fun s => mkNeighbor s 2%float) [0; 2; 8; 80; 83; 92].
Proof.
  assert (Hsized : int_sized Examples.open_map Examples.moves = true)
    by (vm_compute; reflexivity).
  assert (Hsize : mat_numel Examples.open_map = numel Examples.grid)
    by reflexivity.
  assert (HM : 0 <= gridM Examples.grid) by (vm_compute; discriminate).
  assert (HN : 0 <= gridN Examples.grid) by (vm_compute; discriminate).
  rewrite (proj1 (C3_super_expansion Examples.no_rounding Examples.grid
             (Examples.zero_data [] 0 0 0 []) Examples.open_map Examples.moves
             (Examples.per_move [] 1%float)
             (Examples.no_curvature [] 0%float 2%float)
             (Examples.no_torsion [] 1%float 2%float) [] Hsized Hsize HM HN)).
  vm_compute. reflexivity.
Defined.

(** ** Chains of states *)

Section Chains.

Variable fl32 : float -> float.
Variable g : Grid.
Variable data_term : Segment.
Variables mesh_map connectivity : matrix Z.
Variable length_cost : Segment.
Variable curvature_cost : Triple.
Variable torsion_cost : Quadruple.
Hypothesis same_size : mat_numel mesh_map = numel g.

Let e_super := num_edges mesh_map connectivity.
Let callback : NeighborCallback :=
  get_neighbors_torsion fl32 g data_term e_super connectivity
    (fst (start_end_sets g mesh_map connectivity))
    length_cost curvature_cost torsion_cost.

Lemma super_successor (t : Z) :
  successor_of callback e_super t = true ->
  In t (fst (start_end_sets g mesh_map connectivity)).
Proof.
  unfold successor_of, callback. rewrite super_expansion_eq.
  cbn [app]. rewrite existsb_exists.
  intros (nb & Hin & E). apply in_map_iff in Hin.
  destruct Hin as (s & <- & Hs). cbn [neighbor_dest] in E.
  apply Z.eqb_eq in E. subst t. exact Hs.
Qed.

Lemma usual_successor (s t : Z) :
  feasible g connectivity s = true ->
  successor_of callback s t = true ->
  exists e3,
    0 <= e3 < mat_M connectivity /\
    validind_point g (move (pt2 g connectivity s) connectivity e3) = true /\
    move (pt2 g connectivity s) connectivity e3 <> pt1 g connectivity s /\
    t = edgepair_index connectivity
          (sub2ind_point g (pt1 g connectivity s))
          (state_e2 connectivity s) e3.
Proof.
  intros F. pose proof (feasible_below_super g mesh_map connectivity s same_size F) as B.
  unfold successor_of, callback.
  rewrite usual_expansion_eq by (unfold e_super; lia).
  cbn [app]. rewrite existsb_exists.
  intros (nb & Hin & E). apply in_map_iff in Hin.
  destruct Hin as (e3 & <- & He3). cbn [neighbor_dest] in E.
  apply Z.eqb_eq in E. subst t.
  apply filter_In in He3. destruct He3 as [Hr Hk].
  apply In_zseq in Hr. cbv zeta in Hk.
  apply andb_true_iff in Hk. destruct Hk as [V Hneq].
  exists e3. repeat split; try assumption; try lia.
  intros Heq. rewrite Heq in Hneq.
  assert (T : point_eqb (pt1 g connectivity s) (pt1 g connectivity s) = true)
    by (apply point_eqb_eq; reflexivity).
  rewrite T in Hneq. discriminate.
Qed.

Lemma template_move_intro (a : Point) (e : Z) :
  0 <= e < mat_M connectivity ->
  template_move connectivity a (move a connectivity e) = true.
Proof.
  intros He. unfold template_move. apply existsb_exists.
  exists e. split; [apply In_zseq; exact He | apply point_eqb_eq; reflexivity].
Qed.

(** Along a chain that starts in a feasible state every state is feasible,
    continues the state before it, and the third voxels form a chain of
    template moves. *)
Lemma chain_feasible (rest : list Z) :
  forall s,
    feasible g connectivity s = true ->
    is_state_chain callback (s :: rest) = true ->
    Forall (fun t => feasible g connectivity t = true) (s :: rest) /\
    connected_chain connectivity (map (pt2 g connectivity) (s :: rest)) = true.
Proof.
  induction rest as [|t rest IH]; intros s F Hchain.
  - split; [constructor; [exact F | constructor] | reflexivity].
  - cbn [is_state_chain] in Hchain. apply andb_true_iff in Hchain.
    destruct Hchain as [Hst Hrest].
    destruct (usual_successor s t F Hst) as (e3 & He3 & V3 & _ & Et).
    destruct (successor_state g connectivity s e3 F He3 V3)
      as (_ & _ & _ & _ & _ & P2 & Ft).
    rewrite <- Et in P2, Ft.
    destruct (IH t Ft Hrest) as [Hall Hconn].
    split; [constructor; assumption|].
    change (map (pt2 g connectivity) (s :: t :: rest))
      with (pt2 g connectivity s :: map (pt2 g connectivity) (t :: rest)).
    cbn [connected_chain]. rewrite Hconn.
    cbn [map]. rewrite P2, template_move_intro by exact He3. reflexivity.
Qed.

(** Consecutive states of a chain share two voxels. *)
Lemma chain_step (s t : Z) :
  feasible g connectivity s = true ->
  successor_of callback s t = true ->
  pt0 g connectivity t = pt1 g connectivity s /\
  pt1 g connectivity t = pt2 g connectivity s /\
  template_move connectivity (pt2 g connectivity s) (pt2 g connectivity t) = true /\
  validind_point g (pt2 g connectivity t) = true /\
  feasible g connectivity t = true.
Proof.
  intros F Hst.
  destruct (usual_successor s t F Hst) as (e3 & He3 & V3 & _ & Et).
  destruct (successor_state g connectivity s e3 F He3 V3)
    as (_ & _ & _ & P0 & P1 & P2 & Ft).
  rewrite <- Et in P0, P1, P2, Ft.
  repeat split; try assumption.
  - rewrite P2. apply template_move_intro. exact He3.
  - rewrite P2. exact V3.
Qed.

Lemma pairpath_to_points_feasible (path : list Z) :
  Forall (fun t => feasible g connectivity t = true) path ->
  pairpath_to_points g path connectivity
  = match path with
    | [] => []
    | s :: _ =>
        pt0 g connectivity s :: pt1 g connectivity s
          :: map (pt2 g connectivity) path
    end.
Proof.
  intros Hall. unfold pairpath_to_points.
  rewrite (fold_left_push_in _
             (fun s => pt2 g connectivity s) path).
  - destruct path as [|s rest]; [reflexivity|].
    rewrite points_in_a_edgepair_eq.
    inversion Hall as [|s' rest' F Hrest]; subst.
    apply feasible_spec in F. destruct F as (_ & _ & _ & V1 & _).
    rewrite (make_point_sub2ind g _ V1). reflexivity.
  - intros s acc Hin. rewrite points_in_a_edgepair_eq.
    rewrite Forall_forall in Hall. specialize (Hall s Hin).
    apply feasible_spec in Hall. destruct Hall as (_ & _ & _ & _ & V2).
    rewrite (make_point_sub2ind g _ V2). reflexivity.
Qed.

End Chains.

Lemma end_set_below_super (g : Grid) (mesh_map connectivity : matrix Z) (s : Z) :
  In s (snd (start_end_sets g mesh_map connectivity)) ->
  0 <= s < num_edges mesh_map connectivity.
Proof.
  intros Hin.
  apply (start_end_sets_members false) in Hin.
  destruct Hin as (root & Hroot & e1 & He1 & e2 & He2 & _ & _ & ->).
  unfold num_edges, edgepair_index.
  set (K := mat_M connectivity) in *.
  pose proof (lin2_bounds K K _ _ He2 He1) as B.
  assert (0 <= root * (K * K))
    by (apply Z.mul_nonneg_nonneg; [lia | apply Z.mul_nonneg_nonneg; lia]).
  assert ((root + 1) * (K * K) <= mat_numel mesh_map * (K * K))
    by (apply Z.mul_le_mono_nonneg_r; lia).
  lia.
Qed.

Lemma template_move_distinct (connectivity : matrix Z) (a b : Point) :
  nonzero_offsets connectivity = true ->
  template_move connectivity a b = true ->
  point_eqb a b = false.
Proof.
  intros Hnz Hmove. unfold template_move in Hmove.
  apply existsb_exists in Hmove. destruct Hmove as (e & He & Hb).
  apply point_eqb_eq in Hb. subst b.
  unfold nonzero_offsets in Hnz. rewrite forallb_forall in Hnz.
  specialize (Hnz e He). apply negb_true_iff in Hnz.
  destruct (point_eqb a (move a connectivity e)) eqn:E; [|reflexivity].
  apply point_eqb_eq in E. exfalso.
  assert (Z0 : point_eqb (offset connectivity e) (mkPoint 0 0 0) = true).
  { apply point_eqb_eq. unfold offset. destruct a as [x y z].
    unfold move in E. cbn [px py pz] in E. injection E as Ex Ey Ez.
    f_equal; lia. }
  congruence.
Qed.

Lemma connected_chain_no_duplicates (connectivity : matrix Z) (points : list Point) :
  nonzero_offsets connectivity = true ->
  connected_chain connectivity points = true ->
  no_consecutive_duplicates points = true.
Proof.
  intros Hnz. induction points as [|a rest IH]; intros Hc; [reflexivity|].
  cbn [connected_chain] in Hc. apply andb_true_iff in Hc.
  destruct Hc as [Hhead Hrest].
  cbn [no_consecutive_duplicates]. rewrite (IH Hrest).
  destruct rest as [|b rest']; [reflexivity|].
  rewrite (template_move_distinct connectivity a b Hnz Hhead). reflexivity.
Qed.

(** The decoded points of a chain of states that starts in a feasible state:
    a chain of template moves inside the grid. *)
Lemma decoded_chain (fl32 : float -> float) (g : Grid) (data_term : Segment)
    (mesh_map connectivity : matrix Z)
    (length_cost : Segment) (curvature_cost : Triple) (torsion_cost : Quadruple)
    (s : Z) (rest : list Z) :
  mat_numel mesh_map = numel g ->
  feasible g connectivity s = true ->
  is_state_chain
    (get_neighbors_torsion fl32 g data_term (num_edges mesh_map connectivity)
       connectivity (fst (start_end_sets g mesh_map connectivity))
       length_cost curvature_cost torsion_cost) (s :: rest) = true ->
  Forall (fun t => feasible g connectivity t = true) (s :: rest) /\
  pairpath_to_points g (s :: rest) connectivity
  = pt0 g connectivity s :: pt1 g connectivity s
      :: map (pt2 g connectivity) (s :: rest) /\
  connected_chain connectivity
    (pairpath_to_points g (s :: rest) connectivity) = true /\
  Forall (fun p => validind_point g p = true)
    (pairpath_to_points g (s :: rest) connectivity).
Proof.
  intros Hsize F Hchain.
  destruct (chain_feasible fl32 g data_term mesh_map connectivity length_cost
              curvature_cost torsion_cost Hsize rest s F Hchain) as [Hall Hconn].
  pose proof (pairpath_to_points_feasible g connectivity (s :: rest) Hall) as Epts.
  split; [exact Hall|]. split; [exact Epts|].
  rewrite Epts.
  pose proof F as F'. apply feasible_spec in F'.
  destruct F' as (Hs & HK & Hr & V1 & V2).
  destruct (decode_range connectivity s Hs HK) as (R0 & R1 & R2 & _).
  split.
  - cbn [connected_chain]. rewrite Hconn.
    unfold pt1 at 1. rewrite template_move_intro by exact R1.
    cbn [map]. unfold pt2 at 1. rewrite template_move_intro by exact R2.
    reflexivity.
  - constructor; [apply feasible_pt0; exact F|].
    constructor; [exact V1|].
    apply Forall_forall. intros p Hp. apply in_map_iff in Hp.
    destruct Hp as (t & <- & Ht).
    rewrite Forall_forall in Hall. specialize (Hall t Ht).
    apply feasible_spec in Hall. tauto.
Qed.

(** ** The claims on the edge-pair expansion *)

(** C1 (amended).  On a query whose mesh map has the sizes of the grid and
    whose number of states, the super-state and the count handed to the
    search included, is at most [INT_MAX], expanding a state [ep] whose voxels
    p0 = root, p1 = p0 + offset e1, p2 = p1 + offset e2 lie in the grid, (root,
    e1, e2) being what [ep] decodes to, pushes one neighbour for exactly the
    candidates e3 of the connectivity template, in order, for which
    p3 = p2 + offset e3 is in bounds and p3 <> p1.  Such a state is not the
    super-state.  The cost of the neighbour is the data-term line integral
    over p2 -> p3, plus the length cost of that segment, plus the torsion cost
    of p0,p1,p2,p3, plus the curvature cost of p1,p2,p3, added up in that
    order in a [float].  Its destination is the index of (p1, e2, e3), a
    state below the super-state which decodes to the root p1 and the edges e2
    and e3.  The callback computed on 32-bit [int] pushes the same, and the
    number of the super-state and the index of the destination are computed
    in [int] without wrap-around. *)
Theorem C1_usual_expansion
    (fl32 : float -> float) (g : Grid) (data_term : Segment)
    (mesh_map connectivity : matrix Z) (start_set_pairs : list Z)
    (length_cost : Segment) (curvature_cost : Triple) (torsion_cost : Quadruple)
    (ep : Z) (neighbors : list Neighbor) :
  int_sized mesh_map connectivity = true ->
  mat_numel mesh_map = numel g ->
  feasible g connectivity ep = true ->
  let e_super := num_edges mesh_map connectivity in
  let p0 := pt0 g connectivity ep in
  let p1 := pt1 g connectivity ep in
  let p2 := pt2 g connectivity ep in
  let e2 := state_e2 connectivity ep in
  (Int32.num_edges mesh_map connectivity = e_super /\ ep <> e_super) /\
  get_neighbors_torsion_int32 fl32 g data_term e_super connectivity
    start_set_pairs length_cost curvature_cost torsion_cost ep neighbors
  = Some (get_neighbors_torsion fl32 g data_term e_super connectivity
            start_set_pairs length_cost curvature_cost torsion_cost ep
            neighbors) /\
  get_neighbors_torsion fl32 g data_term e_super connectivity start_set_pairs
    length_cost curvature_cost torsion_cost ep neighbors
  = neighbors ++
    map (fun e3 =>
           let p3 := move p2 connectivity e3 in
           mkNeighbor
             (edgepair_index connectivity (sub2ind_point g p1) e2 e3)
             (float_sum fl32
                [on_segment data_term p2 p3;
                 on_segment length_cost p2 p3;
                 on_quadruple torsion_cost p0 p1 p2 p3;
                 on_triple curvature_cost p1 p2 p3]))
        (filter (fun e3 =>
                   let p3 := move p2 connectivity e3 in
                   validind_point g p3 && negb (point_eqb p3 p1))
                (zseq (mat_M connectivity)))
  /\
  (forall e3, 0 <= e3 < mat_M connectivity ->
     let dest := edgepair_index connectivity (sub2ind_point g p1) e2 e3 in
     Int32.dest g connectivity (px p1) (py p1) (pz p1) e2 e3 = dest /\
     0 <= dest < e_super /\
     state_root connectivity dest = sub2ind_point g p1 /\
     state_e1 connectivity dest = e2 /\
     state_e2 connectivity dest = e3 /\
     pt0 g connectivity dest = p1 /\
     pt1 g connectivity dest = p2).
Proof.
  intros Hsized Hsize F e_super p0 p1 p2 e2.
  pose proof (feasible_below_super g mesh_map connectivity ep Hsize F) as B.
  pose proof F as F'. apply feasible_spec in F'.
  destruct F' as (Hs & HK & Hr & V1 & V2).
  destruct (decode_range connectivity ep Hs HK) as (R0 & R1 & R2 & _).
  pose proof Hsized as Hb. apply int_sized_spec in Hb.
  destruct Hb as (_ & _ & HKK & Hnum & He).
  destruct (int32_num_edges_exact mesh_map connectivity Hsized) as (En & _ & _).
  destruct (grid_positive _ _ V1) as (HM & HN & HO).
  rewrite Hsize in Hnum.
  destruct (positive_sizes g ltac:(lia) ltac:(lia) ltac:(lia))
    as (_ & _ & _ & HMN).
  split; [split; [exact En | unfold e_super; lia]|].
  split; [apply usual_case_on_int; assumption|].
  split; [apply usual_expansion_eq; unfold e_super; lia|].
  intros e3 He3 dest.
  destruct (int32_edgepair_index_exact g mesh_map connectivity
              (px p1) (py p1) (pz p1) e2 e3 Hsized Hsize V1 R2 He3)
    as (_ & Ed & Bd).
  change (sub2ind g (px p1) (py p1) (pz p1)) with (sub2ind_point g p1)
    in Ed, Bd.
  fold dest in Ed, Bd.
  pose proof (validind_point_range g p1 V1) as B1.
  destruct (decode_index connectivity (sub2ind_point g p1) e2 e3
              (proj1 B1) R2 He3) as (D0 & D1 & D2).
  fold dest in D0, D1, D2.
  assert (P0 : pt0 g connectivity dest = p1).
  { unfold pt0. rewrite D0. apply make_point_sub2ind. exact V1. }
  split; [exact Ed|]. split; [exact Bd|].
  repeat split; try assumption.
  unfold pt1. rewrite P0, D1. reflexivity.
Qed.

Lemma C1_usual_expansion_witness :
  get_neighbors_torsion Examples.no_rounding Examples.grid
    (Examples.zero_data [] 0 0 0 [])
    (num_edges Examples.open_map Examples.moves) Examples.moves
    [0; 2; 8; 80; 83; 92]
    (Examples.per_move [] 1%float) (Examples.no_curvature [] 0%float 2%float)
    (Examples.no_torsion [] 1%float 2%float) 16 []
  = [mkNeighbor 32 1%float; mkNeighbor 34 1%float].
Proof.
  assert (Hsized : int_sized Examples.open_map Examples.moves = true)
    by (vm_compute; reflexivity).
  assert (Hsize : mat_numel Examples.open_map = numel Examples.grid)
    by reflexivity.
  assert (F : feasible Examples.grid Examples.moves 16 = true)
    by (vm_compute; reflexivity).
  rewrite (proj1 (proj2 (proj2
             (C1_usual_expansion Examples.no_rounding Examples.grid
                (Examples.zero_data [] 0 0 0 []) Examples.open_map
                Examples.moves [0; 2; 8; 80; 83; 92]
                (Examples.per_move [] 1%float)
                (Examples.no_curvature [] 0%float 2%float)
                (Examples.no_torsion [] 1%float 2%float) 16 []
                Hsized Hsize F)))).
  vm_compute. reflexivity.
Defined.

(** C1 as stated fails for two kinds of states, the callback being computed
    on 32-bit [int] as the code does.  The state 4 = (root 0, -x, +x) of the
    5 x 1 x 2 grid is not the super-state and has its second voxel (-1,0,0)
    outside the grid: its expansion pushes -16 and -14, and -14 does not
    decode to that voxel as its root.  And on the plane of 65536 x 4096
    voxels the number of states is 2^32, so that the code numbers the
    super-state 0: the state 0, whose voxels lie in the grid and which has the
    candidate e3 = 0 in bounds and other than p1, is expanded as the
    super-state and gets no neighbour when no voxel is labelled start. *)
Lemma C1_counterexample :
  (feasible Examples.grid Examples.moves 4 = false /\
   4 <> Int32.num_edges Examples.open_map Examples.moves /\
   pt1 Examples.grid Examples.moves 4 = mkPoint (-1) 0 0 /\
   edgepair_callback_int32 Examples.no_rounding Examples.per_move
     Examples.no_curvature Examples.no_torsion Examples.grid
     Examples.open_map (Examples.zero_data [] 0 0 0 []) Examples.moves
     Examples.settings [] 4 []
   = Some [mkNeighbor (-16) 1%float; mkNeighbor (-14) 1%float] /\
   Int32.decompose_pair_of_edgepairs (-14) Examples.moves = Some (0, -14) /\
   Int32.sub2ind Examples.grid (-1) 0 0 = -1) /\
  (num_edges Examples.wide_map Examples.moves = 4294967296 /\
   Int32.num_edges Examples.wide_map Examples.moves = 0 /\
   feasible Examples.wide Examples.moves 0 = true /\
   (let p1 := pt1 Examples.wide Examples.moves 0 in
    let p3 := move (pt2 Examples.wide Examples.moves 0) Examples.moves 0 in
    validind_point Examples.wide p3 && negb (point_eqb p3 p1) = true) /\
   get_neighbors_torsion_int32 Examples.no_rounding Examples.wide
     (Examples.zero_data [] 0 0 0 [])
     (Int32.num_edges Examples.wide_map Examples.moves) Examples.moves []
     (Examples.per_move [] 1%float) (Examples.no_curvature [] 0%float 2%float)
     (Examples.no_torsion [] 1%float 2%float) 0 []
   = Some []).
Proof.
  split.
  - split; [vm_compute; reflexivity|].
    split; [vm_compute; discriminate|].
    repeat split; vm_compute; reflexivity.
  - repeat split; vm_compute; reflexivity.
Qed.

(** C10 (amended).  Chain consistency, on a query whose mesh map has the
    sizes of the grid and whose number of states, the super-state and the
    count handed to the search included, is at most [INT_MAX].  When a state
    [ep] with its voxels in the grid is expanded, it is not the super-state,
    the callback computed on 32-bit [int] pushes what the callback pushes,
    and every state [t] it pushes is the index, computed in [int] without
    wrap-around, of (p1, e2, e3) for a candidate e3; it lies below the
    super-state and decodes to points whose first two are the last two of
    [ep]; it has its voxels in the grid again, and its third voxel is a
    template move away from the third voxel of [ep].  Hence every chain of
    states that leaves the super-state decodes to voxels of the grid in which
    each consecutive move is an offset of the connectivity template. *)
Theorem C10_chain_consistency
    (fl32 : float -> float) (g : Grid) (data_term : Segment)
    (mesh_map connectivity : matrix Z)
    (length_cost : Segment) (curvature_cost : Triple) (torsion_cost : Quadruple) :
  int_sized mesh_map connectivity = true ->
  mat_numel mesh_map = numel g ->
  let e_super := num_edges mesh_map connectivity in
  let callback :=
    get_neighbors_torsion fl32 g data_term e_super connectivity
      (fst (start_end_sets g mesh_map connectivity))
      length_cost curvature_cost torsion_cost in
  Int32.num_edges mesh_map connectivity = e_super /\
  (forall ep t,
      feasible g connectivity ep = true ->
      successor_of callback ep t = true ->
      ep <> e_super /\
      get_neighbors_torsion_int32 fl32 g data_term e_super connectivity
        (fst (start_end_sets g mesh_map connectivity))
        length_cost curvature_cost torsion_cost ep []
      = Some (callback ep []) /\
      (exists e3,
         0 <= e3 < mat_M connectivity /\
         let p1 := pt1 g connectivity ep in
         t = Int32.dest g connectivity (px p1) (py p1) (pz p1)
               (state_e2 connectivity ep) e3) /\
      0 <= t < e_super /\
      (let '(_, q2, q3) := points_in_a_edgepair g ep connectivity in
       let '(r1, r2, r3) := points_in_a_edgepair g t connectivity in
       r1 = q2 /\ r2 = q3 /\
       template_move connectivity (make_point g q3) (make_point g r3) = true) /\
      feasible g connectivity t = true) /\
  (forall states,
      is_state_chain callback (e_super :: states) = true ->
      Forall (fun t => feasible g connectivity t = true) states /\
      Forall (fun t => 0 <= t < e_super) states /\
      connected_chain connectivity
        (pairpath_to_points g states connectivity) = true /\
      Forall (fun p => validind_point g p = true)
        (pairpath_to_points g states connectivity)).
Proof.
  intros Hsized Hsize e_super callback.
  split; [exact (proj1 (int32_num_edges_exact mesh_map connectivity Hsized))|].
  split.
  - intros ep t F Hst.
    pose proof (feasible_below_super g mesh_map connectivity ep Hsize F) as B.
    split; [unfold e_super; lia|].
    split; [apply usual_case_on_int; assumption|].
    destruct (chain_step fl32 g data_term mesh_map connectivity length_cost
                curvature_cost torsion_cost Hsize ep t F Hst)
      as (P0 & P1 & Hmove & V2t & Ft).
    destruct (usual_successor fl32 g data_term mesh_map connectivity
                length_cost curvature_cost torsion_cost Hsize ep t F Hst)
      as (e3 & He3 & _ & _ & Et).
    pose proof F as F'. apply feasible_spec in F'.
    destruct F' as (Hs & HK' & _ & V1 & V2).
    destruct (decode_range connectivity ep Hs HK') as (_ & _ & R2 & _).
    split.
    { exists e3. split; [exact He3|]. cbv zeta.
      destruct (int32_edgepair_index_exact g mesh_map connectivity
                  (px (pt1 g connectivity ep)) (py (pt1 g connectivity ep))
                  (pz (pt1 g connectivity ep)) (state_e2 connectivity ep) e3
                  Hsized Hsize V1 R2 He3) as (_ & Ed & _).
      rewrite Ed. exact Et. }
    split; [apply (feasible_below_super g); assumption|].
    split; [|exact Ft].
    rewrite !points_in_a_edgepair_eq.
    pose proof Ft as Ft'. apply feasible_spec in Ft'.
    destruct Ft' as (Ht & HK & _ & V1t & _).
    destruct (decode_range connectivity t Ht HK) as (R0 & _).
    rewrite (make_point_sub2ind g _ V2), (make_point_sub2ind g _ V2t).
    repeat split.
    + assert (E : sub2ind_point g (pt0 g connectivity t)
                  = state_root connectivity t).
      { unfold pt0, sub2ind_point.
        pose proof (sub2ind_ind2sub g (state_root connectivity t)) as S.
        rewrite make_point_ind2sub in S. exact S. }
      rewrite <- E, P0. reflexivity.
    + rewrite P1. reflexivity.
    + exact Hmove.
  - intros states Hchain.
    destruct states as [|s rest].
    + repeat split; constructor.
    + cbn [is_state_chain] in Hchain. apply andb_true_iff in Hchain.
      destruct Hchain as [Hfirst Hrest].
      pose proof (super_successor fl32 g data_term mesh_map connectivity
                    length_cost curvature_cost torsion_cost s Hfirst) as Hin.
      pose proof (start_set_feasible g mesh_map connectivity s Hin Hsize) as F.
      destruct (decoded_chain fl32 g data_term mesh_map connectivity
                  length_cost curvature_cost torsion_cost s rest Hsize F Hrest)
        as (Hall & _ & Hconn & Hvalid).
      repeat split; try assumption.
      apply Forall_forall. intros t Ht.
      rewrite Forall_forall in Hall.
      apply (feasible_below_super g); [exact Hsize | apply Hall; exact Ht].
Qed.

Lemma C10_chain_consistency_witness :
  (points_in_a_edgepair Examples.grid 0 Examples.moves = (0, 1, 2) /\
   points_in_a_edgepair Examples.grid 16 Examples.moves = (1, 2, 3) /\
   feasible Examples.grid Examples.moves 16 = true) /\
  (Forall (fun t => feasible Examples.grid Examples.moves t = true)
     [0; 16; 32] /\
   Forall (fun t => 0 <= t < num_edges Examples.open_map Examples.moves)
     [0; 16; 32] /\
   connected_chain Examples.moves
     (pairpath_to_points Examples.grid [0; 16; 32] Examples.moves) = true /\
   Forall (fun p => validind_point Examples.grid p = true)
     (pairpath_to_points Examples.grid [0; 16; 32] Examples.moves)).
Proof.
  assert (Hsized : int_sized Examples.open_map Examples.moves = true)
    by (vm_compute; reflexivity).
  assert (Hsize : mat_numel Examples.open_map = numel Examples.grid)
    by reflexivity.
  pose proof (C10_chain_consistency Examples.no_rounding Examples.grid
                (Examples.zero_data [] 0 0 0 []) Examples.open_map
                Examples.moves (Examples.per_move [] 1%float)
                (Examples.no_curvature [] 0%float 2%float)
                (Examples.no_torsion [] 1%float 2%float) Hsized Hsize)
    as (_ & Hstep & Hchain).
  split.
  - assert (F : feasible Examples.grid Examples.moves 0 = true) by reflexivity.
    destruct (Hstep 0 16 F) as (_ & _ & _ & _ & _ & Ft);
      [vm_compute; reflexivity|].
    split; [reflexivity | split; [reflexivity | exact Ft]].
  - apply (Hchain [0; 16; 32]). vm_compute. reflexivity.
Defined.

(** C10 as stated fails for two kinds of states, the callback being
    computed on 32-bit [int] as the code does.  The state 4 = (root 0, -x,
    +x) of the 5 x 1 x 2 grid is not the super-state; its expansion pushes
    the state -14, whose first decoded point is 0 and not the second decoded
    point -1 of state 4.  And on the cube of 1000 x 1000 x 1000 voxels, which
    has 16 * 10^9 states, the state 2144000008 = (the voxel (0,0,134), +z, +x)
    has its voxels in the grid; its expansion pushes the state -2134967296,
    of root -133435456, while the second voxel (0,0,135) of the state has
    the index 135000000. *)
Lemma C10_counterexample :
  (4 <> Int32.num_edges Examples.open_map Examples.moves /\
   edgepair_callback_int32 Examples.no_rounding Examples.per_move
     Examples.no_curvature Examples.no_torsion Examples.grid
     Examples.open_map (Examples.zero_data [] 0 0 0 []) Examples.moves
     Examples.settings [] 4 []
   = Some [mkNeighbor (-16) 1%float; mkNeighbor (-14) 1%float] /\
   Int32.points_in_a_edgepair Examples.grid 4 Examples.moves
   = Some (0, -1, 0) /\
   Int32.decompose_pair_of_edgepairs (-14) Examples.moves = Some (0, -14)) /\
  (let ep := 2144000008 in
   let p1 := pt1 Examples.cube Examples.moves ep in
   0 <= ep <= INT_MAX /\
   ep <> Int32.num_edges Examples.cube_map Examples.moves /\
   feasible Examples.cube Examples.moves ep = true /\
   p1 = mkPoint 0 0 135 /\
   get_neighbors_torsion_int32 Examples.no_rounding Examples.cube
     (Examples.zero_data [] 0 0 0 [])
     (Int32.num_edges Examples.cube_map Examples.moves) Examples.moves []
     (Examples.per_move [] 1%float) (Examples.no_curvature [] 0%float 2%float)
     (Examples.no_torsion [] 1%float 2%float) ep []
   = Some [mkNeighbor (-2134967296) 1%float; mkNeighbor (-2134967294) 1%float;
           mkNeighbor (-2134967293) 1%float] /\
   Int32.decompose_pair_of_edgepairs (-2134967296) Examples.moves
   = Some (-133435456, 0) /\
   Int32.sub2ind Examples.cube 0 0 135 = 135000000).
Proof.
  split.
  - split; [vm_compute; discriminate|].
    repeat split; vm_compute; reflexivity.
  - cbv zeta. split; [split; vm_compute; discriminate|].
    split; [vm_compute; discriminate|].
    repeat split; vm_compute; reflexivity.
Qed.

Lemma memb_In (x : Z) (s : list Z) : memb x s = true <-> In x s.
Proof.
  unfold memb. rewrite existsb_exists. split.
  - intros (y & Hy & E). apply Z.eqb_eq in E. subst y. exact Hy.
  - intros H. exists x. split; [exact H | apply Z.eqb_refl].
Qed.

(** C2 (amended).  When an edge-pair query succeeds on a template that has no
    zero offset, the mesh map having the sizes of the grid and the number of
    states, the super-state and the count handed to the search included,
    being at most [INT_MAX], and the search having returned a path that meets
    its contract, the state path is the super-state followed by at least one
    state; the super-state is removed and occurs nowhere among the states
    decoded; the points returned are the first two points of the first state
    followed by the third point of every state in order, the first state
    included; and no two consecutive points are equal.  The number of the
    super-state and the count handed to the search are computed in [int]
    without wrap-around, the states decoded lie below the super-state, and
    the sets and, on every state of the path, the callback computed on
    32-bit [int] are those of the search. *)
Theorem C2_decoded_path
    (fl32 : float -> float)
    (length_cost_functor : list float -> float -> Segment)
    (curvature_cost_functor : list float -> float -> float -> Triple)
    (torsion_cost_functor : list float -> float -> float -> Quadruple)
    (shortest_path : ShortestPath) (g : Grid)
    (mesh_map : matrix Z) (data_term : Segment)
    (connectivity : matrix Z) (settings : InstanceSettings)
    (voxeldimensions : list float) (options : ShortestPathOptions)
    (out : SearchOutput) (seg : Segmentation) :
  int_sized mesh_map connectivity = true ->
  mat_numel mesh_map = numel g ->
  nonzero_offsets connectivity = true ->
  edgepair_search fl32 length_cost_functor curvature_cost_functor
    torsion_cost_functor shortest_path g mesh_map data_term connectivity
    settings voxeldimensions options = Ok out ->
  search_contract [num_edges mesh_map connectivity]
    (snd (start_end_sets g mesh_map connectivity))
    (edgepair_callback fl32 length_cost_functor curvature_cost_functor
       torsion_cost_functor g mesh_map data_term connectivity settings
       voxeldimensions)
    (search_path out) = true ->
  edgepair_segmentation fl32 length_cost_functor curvature_cost_functor
    torsion_cost_functor shortest_path g mesh_map data_term connectivity
    settings voxeldimensions options = Ok seg ->
  exists s1 rest,
    search_path out = num_edges mesh_map connectivity :: s1 :: rest /\
    ~ In (num_edges mesh_map connectivity) (s1 :: rest) /\
    seg_points seg = pairpath_to_points g (s1 :: rest) connectivity /\
    seg_points seg
    = pt0 g connectivity s1 :: pt1 g connectivity s1
        :: map (pt2 g connectivity) (s1 :: rest) /\
    no_consecutive_duplicates (seg_points seg) = true /\
    Int32.num_edges mesh_map connectivity = num_edges mesh_map connectivity /\
    Int32.add (Int32.num_edges mesh_map connectivity) 1
    = num_edges mesh_map connectivity + 1 /\
    Forall (fun t => 0 <= t < num_edges mesh_map connectivity) (s1 :: rest) /\
    start_end_sets_int32 g mesh_map connectivity
    = Some (start_end_sets g mesh_map connectivity) /\
    Forall
      (fun t =>
         edgepair_callback_int32 fl32 length_cost_functor
           curvature_cost_functor torsion_cost_functor g mesh_map data_term
           connectivity settings voxeldimensions t []
         = Some (edgepair_callback fl32 length_cost_functor
                   curvature_cost_functor torsion_cost_functor g mesh_map
                   data_term connectivity settings voxeldimensions t []))
      (search_path out).
Proof.
  intros Hsized Hsize Hnz Hsearch Hcontract Hseg.
  assert (Hsuper_int :
            edgepair_callback_int32 fl32 length_cost_functor
              curvature_cost_functor torsion_cost_functor g mesh_map
              data_term connectivity settings voxeldimensions
              (num_edges mesh_map connectivity) []
            = Some (edgepair_callback fl32 length_cost_functor
                      curvature_cost_functor torsion_cost_functor g mesh_map
                      data_term connectivity settings voxeldimensions
                      (num_edges mesh_map connectivity) []))
    by (apply super_case_on_int; assumption).
  assert (Husual_int : forall t,
            feasible g connectivity t = true ->
            edgepair_callback_int32 fl32 length_cost_functor
              curvature_cost_functor torsion_cost_functor g mesh_map
              data_term connectivity settings voxeldimensions t []
            = Some (edgepair_callback fl32 length_cost_functor
                      curvature_cost_functor torsion_cost_functor g mesh_map
                      data_term connectivity settings voxeldimensions t []))
    by (intros t Ft; apply usual_case_on_int; assumption).
  unfold edgepair_segmentation in Hseg.
  unfold edgepair_search, edgepair_callback in Hsearch.
  unfold edgepair_callback in Hcontract.
  destruct (start_end_sets g mesh_map connectivity)
    as [start_set_pairs end_set_pairs] eqn:Esets.
  cbn [fst snd set_insert] in *.
  unfold num_edges in Hsearch.
  rewrite Hsearch in Hseg. cbn [bind] in Hseg.
  destruct (search_path out) as [|s0 path] eqn:Epath;
    [cbn in Hseg; discriminate|].
  replace (Z.of_nat (List.length (s0 :: path)) =? 0) with false in Hseg
    by (symmetry; apply Z.eqb_neq; cbn [List.length]; lia).
  cbn [tl] in Hseg. injection Hseg as <-. cbn [seg_points].
  unfold search_contract in Hcontract.
  apply andb_true_iff in Hcontract. destruct Hcontract as [Hcontract Hgoal].
  apply andb_true_iff in Hcontract. destruct Hcontract as [Hstart Hchain].
  apply memb_In in Hstart. destruct Hstart as [<- | []].
  apply memb_In in Hgoal.
  assert (Hend : forall s, In s end_set_pairs ->
                           0 <= s < num_edges mesh_map connectivity).
  { intros s Hs. apply (end_set_below_super g).
    rewrite Esets. exact Hs. }
  destruct path as [|s1 rest].
  { cbn [last] in Hgoal. specialize (Hend _ Hgoal). lia. }
  exists s1, rest. split; [reflexivity|].
  cbn [is_state_chain] in Hchain. apply andb_true_iff in Hchain.
  destruct Hchain as [Hfirst Hrest].
  assert (Hin : In s1 (fst (start_end_sets g mesh_map connectivity))).
  { apply (super_successor fl32 g data_term mesh_map connectivity
             (length_cost_functor voxeldimensions (length_penalty settings))
             (curvature_cost_functor voxeldimensions
                (curvature_penalty settings) (curvature_power settings))
             (torsion_cost_functor voxeldimensions
                (torsion_penalty settings) (torsion_power settings))).
    rewrite Esets. exact Hfirst. }
  pose proof (start_set_feasible g mesh_map connectivity s1 Hin Hsize) as F.
  assert (Estart : start_set_pairs
                   = fst (start_end_sets g mesh_map connectivity))
    by (rewrite Esets; reflexivity).
  rewrite Estart in Hrest.
  destruct (decoded_chain fl32 g data_term mesh_map connectivity _ _ _
              s1 rest Hsize F Hrest) as (Hall & Epts & Hconn & _).
  split; [|split; [reflexivity | split; [exact Epts|]]].
  - intros Hsuper. rewrite Forall_forall in Hall.
    specialize (Hall _ Hsuper).
    pose proof (feasible_below_super g mesh_map connectivity _ Hsize Hall).
    lia.
  - split; [apply (connected_chain_no_duplicates connectivity); assumption|].
    destruct (int32_num_edges_exact mesh_map connectivity Hsized)
      as (En & En1 & _).
    split; [exact En|]. split; [exact En1|].
    split.
    { apply Forall_forall. intros t Ht. rewrite Forall_forall in Hall.
      apply (feasible_below_super g); [exact Hsize | apply Hall; exact Ht]. }
    split.
    { pose proof F as F'. apply feasible_spec in F'.
      destruct F' as (_ & _ & _ & V1 & _).
      destruct (grid_positive _ _ V1) as (HM & HN & _).
      rewrite <- Esets.
      apply start_end_sets_on_int; try assumption; lia. }
    constructor; [exact Hsuper_int|].
    apply Forall_forall. intros t Ht. rewrite Forall_forall in Hall.
    apply Husual_int. apply Hall. exact Ht.
Qed.

Lemma C2_decoded_path_witness :
  exists s1 rest,
    [160; 0; 16; 32] = num_edges Examples.open_map Examples.moves :: s1 :: rest /\
    ~ In (num_edges Examples.open_map Examples.moves) (s1 :: rest) /\
    [mkPoint 0 0 0; mkPoint 1 0 0; mkPoint 2 0 0; mkPoint 3 0 0; mkPoint 4 0 0]
    = pairpath_to_points Examples.grid (s1 :: rest) Examples.moves /\
    [mkPoint 0 0 0; mkPoint 1 0 0; mkPoint 2 0 0; mkPoint 3 0 0; mkPoint 4 0 0]
    = pt0 Examples.grid Examples.moves s1 :: pt1 Examples.grid Examples.moves s1
        :: map (pt2 Examples.grid Examples.moves) (s1 :: rest) /\
    no_consecutive_duplicates
      [mkPoint 0 0 0; mkPoint 1 0 0; mkPoint 2 0 0; mkPoint 3 0 0; mkPoint 4 0 0]
    = true /\
    Int32.num_edges Examples.open_map Examples.moves
    = num_edges Examples.open_map Examples.moves /\
    Int32.add (Int32.num_edges Examples.open_map Examples.moves) 1
    = num_edges Examples.open_map Examples.moves + 1 /\
    Forall (fun t => 0 <= t < num_edges Examples.open_map Examples.moves)
      (s1 :: rest) /\
    start_end_sets_int32 Examples.grid Examples.open_map Examples.moves
    = Some (start_end_sets Examples.grid Examples.open_map Examples.moves) /\
    Forall
      (fun t =>
         edgepair_callback_int32 Examples.no_rounding Examples.per_move
           Examples.no_curvature Examples.no_torsion Examples.grid
           Examples.open_map (Examples.zero_data [] 0 0 0 []) Examples.moves
           Examples.settings [] t []
         = Some (Examples.callback Examples.grid Examples.open_map
                   Examples.moves t []))
      [160; 0; 16; 32].
Proof.
  apply (C2_decoded_path Examples.no_rounding Examples.per_move Examples.no_curvature
           Examples.no_torsion shortest_path_model Examples.grid
           Examples.open_map (Examples.zero_data [] 0 0 0 []) Examples.moves
           Examples.settings [] Examples.options
           (mkSearchOutput 4%float [160; 0; 16; 32] 15)
           (mkSegmentation
              [mkPoint 0 0 0; mkPoint 1 0 0; mkPoint 2 0 0; mkPoint 3 0 0;
               mkPoint 4 0 0] 15 4%float)).
  - vm_compute. reflexivity.
  - reflexivity.
  - vm_compute. reflexivity.
  - vm_compute. reflexivity.
  - vm_compute. reflexivity.
  - vm_compute. reflexivity.
Defined.

(** C2 as stated fails three times.  With a template that holds the zero
    offset a successful query returns the same voxel twice in a row.  On a
    path of three states the points returned are not the first two points of
    the first state followed by the third point of the states after the
    first: the third point of the first state is returned too.  And on the
    plane of 65536 x 4096 voxels, which has 2^32 states, the code numbers the
    super-state 0 and hands the count 1 to the search, while 0 is the index of
    a state with its voxels in the grid: the super-state is not kept apart
    from the states that are decoded. *)
Lemma C2_counterexample :
  (Examples.find_path Examples.small_map Examples.small_unary
     Examples.with_zero_offset
   = (Ok (mkSegmentation [mkPoint 0 0 0; mkPoint 0 0 0; mkPoint 1 0 0]
            1 2%float), []) /\
   no_consecutive_duplicates [mkPoint 0 0 0; mkPoint 0 0 0; mkPoint 1 0 0]
   = false) /\
  (Examples.search Examples.grid Examples.open_map Examples.moves
   = Ok (mkSearchOutput 4%float [160; 0; 16; 32] 15) /\
   Examples.segmentation Examples.grid Examples.open_map Examples.moves
   = Ok (mkSegmentation
           [mkPoint 0 0 0; mkPoint 1 0 0; mkPoint 2 0 0; mkPoint 3 0 0;
            mkPoint 4 0 0] 15 4%float) /\
   decode_as_worded Examples.grid [0; 16; 32] Examples.moves
   = [mkPoint 0 0 0; mkPoint 1 0 0; mkPoint 3 0 0; mkPoint 4 0 0] /\
   [mkPoint 0 0 0; mkPoint 1 0 0; mkPoint 2 0 0; mkPoint 3 0 0; mkPoint 4 0 0]
   <> decode_as_worded Examples.grid [0; 16; 32] Examples.moves) /\
  (num_edges Examples.wide_map Examples.moves = 4294967296 /\
   Int32.num_edges Examples.wide_map Examples.moves = 0 /\
   Int32.add (Int32.num_edges Examples.wide_map Examples.moves) 1 = 1 /\
   feasible Examples.wide Examples.moves 0 = true).
Proof.
  split; [split | split; [split; [|split; [|split]]|]].
  - vm_compute. reflexivity.
  - reflexivity.
  - vm_compute. reflexivity.
  - vm_compute. reflexivity.
  - vm_compute. reflexivity.
  - vm_compute. intros H. discriminate H.
  - repeat split; vm_compute; reflexivity.
Qed.

Example super_expansion_example :
  Examples.callback Examples.grid Examples.open_map Examples.moves 160 []
  = map (fun s => mkNeighbor s 2%float) [0; 2; 8; 80; 83; 92].
Proof. vm_compute. reflexivity. Qed.

(** C3 as stated fails twice.  The state 1 = (root 0, +x, -x) of the
    5 x 1 x 2 grid has its root labelled start and its three voxels in the
    grid, and the super-state's expansion pushes no neighbour for it.  And on
    the cube of 1000 x 1000 x 1000 voxels, which has 16 * 10^9 states, the
    pair (the voxel (0,0,135), +x, +x) has its voxels in the grid and the
    index 2160000000, while the code computes -2134967296 for it and
    -1179869184 for the super-state. *)
Lemma C3_counterexample :
  (1 = edgepair_index Examples.moves 0 0 1 /\
   label_at Examples.open_map (pt0 Examples.grid Examples.moves 1) = 2 /\
   feasible Examples.grid Examples.moves 1 = true /\
   ~ In 1 (map neighbor_dest
             (Examples.callback Examples.grid Examples.open_map Examples.moves
                (num_edges Examples.open_map Examples.moves) []))) /\
  (let p0 := mkPoint 0 0 135 in
   let p1 := move p0 Examples.moves 0 in
   let p2 := move p1 Examples.moves 0 in
   validind_point Examples.cube p0 = true /\
   validind_point Examples.cube p1 = true /\
   validind_point Examples.cube p2 = true /\
   point_eqb p0 p2 = false /\
   edgepair_index Examples.moves (sub2ind_point Examples.cube p0) 0 0
   = 2160000000 /\
   Int32.pair_id Examples.cube Examples.moves 0 0 135 0 0 = -2134967296 /\
   Int32.num_edges Examples.cube_map Examples.moves = -1179869184).
Proof.
  split.
  - repeat split.
    vm_compute. intros H. repeat (destruct H as [H | H]; [discriminate H|]).
    exact H.
  - cbv zeta. repeat split; vm_compute; reflexivity.
Qed.

(** ** Blocked voxels *)

(** The edge-pair lifting reads the mesh map for the labels 2 and 3 only:
    two maps of the same size with the same start voxels and the same end
    voxels, whatever voxels they disallow, give the same segmentation. *)
Lemma disallowed_label_not_read
    (fl32 : float -> float)
    (length_cost_functor : list float -> float -> Segment)
    (curvature_cost_functor : list float -> float -> float -> Triple)
    (torsion_cost_functor : list float -> float -> float -> Quadruple)
    (shortest_path : ShortestPath) (g : Grid)
    (mesh_map mesh_map' : matrix Z) (data_term : Segment)
    (connectivity : matrix Z) (settings : InstanceSettings)
    (voxeldimensions : list float) (options : ShortestPathOptions) :
  mat_numel mesh_map = mat_numel mesh_map' ->
  (forall x y z,
      (label mesh_map x y z =? 2) = (label mesh_map' x y z =? 2) /\
      (label mesh_map x y z =? 3) = (label mesh_map' x y z =? 3)) ->
  edgepair_segmentation fl32 length_cost_functor curvature_cost_functor
    torsion_cost_functor shortest_path g mesh_map data_term connectivity
    settings voxeldimensions options
  = edgepair_segmentation fl32 length_cost_functor curvature_cost_functor
      torsion_cost_functor shortest_path g mesh_map' data_term connectivity
      settings voxeldimensions options.
Proof.
  intros Hnumel Hlabels.
  assert (Hsets : start_end_sets g mesh_map connectivity
                  = start_end_sets g mesh_map' connectivity).
  { unfold start_end_sets. rewrite Hnumel.
    apply for_loop_ext. intros n sets _.
    destruct (ind2sub g n) as [[x1 y1] z1].
    apply for_loop_ext. intros e1 sets1 _.
    destruct (negb _); [reflexivity|].
    apply for_loop_ext. intros e2 sets2 _.
    destruct (_ && _ && _); [reflexivity|].
    destruct (negb _); [reflexivity|].
    destruct sets2 as [start_set_pairs end_set_pairs].
    rewrite (proj1 (Hlabels x1 y1 z1)).
    rewrite (proj2 (Hlabels _ _ _)). reflexivity. }
  unfold edgepair_segmentation. rewrite Hsets, Hnumel. reflexivity.
Qed.

(** C4, the code at a label map whose plane x = 2 is disallowed and separates
    the start voxels (x = 0) from the end voxels (x = 4), the template moving
    by one voxel along x or z: the query gives what it gives on the map with
    that plane allowed; it does not end with [NoSolution] and returns a path
    through the disallowed voxel (2,0,0). *)
Theorem C4_walled_map_is_crossed :
  (forall y z, 0 <= y < 1 -> 0 <= z < 2 ->
     label Examples.walled_map 2 y z = 0) /\
  Examples.find_path Examples.walled_map Examples.zero_unary Examples.moves
  = Examples.find_path Examples.open_map Examples.zero_unary Examples.moves /\
  Examples.find_path Examples.walled_map Examples.zero_unary Examples.moves
  = (Ok (mkSegmentation
           [mkPoint 0 0 0; mkPoint 1 0 0; mkPoint 2 0 0; mkPoint 3 0 0;
            mkPoint 4 0 0] 15 4%float), []) /\
  Examples.find_path Examples.walled_map Examples.zero_unary Examples.moves
  <> (Err NoSolution, []).
Proof.
  split; [|split; [|split]].
  - intros y z Hy Hz.
    assert (y = 0) by lia. assert (z = 0 \/ z = 1) as [-> | ->] by lia;
      subst y; reflexivity.
  - vm_compute. reflexivity.
  - vm_compute. reflexivity.
  - vm_compute. intros H. discriminate H.
Qed.

(** ** Settings: the torsion weight in 2-D and the choice of the lifting *)

Section Settings.

Variable fl32 : float -> float.
Variable length_cost_functor : list float -> float -> Segment.
Variable curvature_cost_functor : list float -> float -> float -> Triple.
Variable torsion_cost_functor : list float -> float -> float -> Quadruple.
Variable shortest_path : ShortestPath.
Variable PieceWiseConstant : list float -> Z -> Z -> Z -> list float -> Segment.
Variable edge_segmentation : SegmentationRoutine.
Variable node_segmentation : SegmentationRoutine.
Variable Mesh_Point : float -> float -> float -> Point.
Variable sprintf : string -> list PrintfArg -> string.
Variable reading_time : float.

(** The checks print nothing. *)
Lemma check_arguments_log (a : MexArguments) (log : list string) :
  snd (check_arguments a log) = log.
Proof.
  unfold check_arguments, mex_bind, mex_when, mex_assert, mex_lift, ASSERT,
    mexErrMsgTxt, mex_ret.
  repeat match goal with
         | |- context [if ?c then _ else _] => destruct c
         end; reflexivity.
Qed.

(** An input that passes the checks has a mesh map of the size of the grid,
    which is the size of the unary array. *)
Lemma check_arguments_size (a : MexArguments) (log : list string)
    (g : Grid) (voxeldimensions : list float) :
  fst (check_arguments a log) = Ok (g, voxeldimensions) ->
  g = mkGrid (mat_M (arg_unary a)) (mat_N (arg_unary a)) (mat_O (arg_unary a)) /\
  mat_numel (arg_mesh_map a) = numel g.
Proof.
  unfold check_arguments, mex_bind, mex_when, mex_assert, mex_lift, ASSERT,
    mexErrMsgTxt, mex_ret.
  repeat match goal with
         | |- context [if ?c then _ else _] =>
             destruct c eqn:?; cbn [fst]; try (intros H; discriminate H)
         end.
  intros H. injection H as <- _.
  repeat match goal with
         | E : (_ =? _) = true |- _ => apply Z.eqb_eq in E
         end.
  split; [reflexivity|]. unfold mat_numel, numel. cbn [gridM gridN gridO].
  congruence.
Qed.

(** Reading a cell array of extra points. *)
Lemma read_point_sets_fold (message : string) (elements : list (matrix float))
    (log : list string) :
  forall (acc : Mex PointSets) (r : result PointSets),
    acc log = (r, log) ->
    fold_left
      (fun (acc : Mex PointSets) (points_matrix : matrix float) =>
         sets <-- acc ;;
         if mat_N points_matrix =? 3 then
           mex_ret (sets ++
             [map (fun j => Mesh_Point
                              (mat_get 0%float points_matrix j 0 0)
                              (mat_get 0%float points_matrix j 1 0)
                              (mat_get 0%float points_matrix j 2 0))
                  (zseq (mat_M points_matrix))])
         else if mat_N points_matrix =? 2 then
           mex_ret (sets ++
             [map (fun j => Mesh_Point
                              (mat_get 0%float points_matrix j 0 0)
                              (mat_get 0%float points_matrix j 1 0)
                              0%float)
                  (zseq (mat_M points_matrix))])
         else mexErrMsgTxt message)
      elements acc log
    = match r with
      | Err e => (Err e, log)
      | Ok sets =>
          if forallb (fun m => (mat_N m =? 3) || (mat_N m =? 2)) elements
          then (Ok (sets ++
                    map (fun m =>
                           map (fun j =>
                                  Mesh_Point (mat_get 0%float m j 0 0)
                                    (mat_get 0%float m j 1 0)
                                    (if mat_N m =? 3
                                     then mat_get 0%float m j 2 0
                                     else 0%float))
                               (zseq (mat_M m)))
                        elements), log)
          else (Err (MexError message), log)
      end.
Proof.
  induction elements as [|m rest IH]; intros acc r Hacc.
  - cbn [fold_left forallb map]. rewrite Hacc.
    destruct r; [rewrite app_nil_r|]; reflexivity.
  - cbn [fold_left forallb map].
    destruct r as [sets | e].
    + destruct (mat_N m =? 3) eqn:E3.
      * rewrite (IH _ (Ok (sets ++ [map (fun j => Mesh_Point
                              (mat_get 0%float m j 0 0)
                              (mat_get 0%float m j 1 0)
                              (mat_get 0%float m j 2 0))
                             (zseq (mat_M m))]))).
        -- cbn [orb andb]. rewrite <- app_assoc. reflexivity.
        -- unfold mex_bind. rewrite Hacc. reflexivity.
      * destruct (mat_N m =? 2) eqn:E2.
        -- rewrite (IH _ (Ok (sets ++ [map (fun j => Mesh_Point
                              (mat_get 0%float m j 0 0)
                              (mat_get 0%float m j 1 0)
                              0%float)
                             (zseq (mat_M m))]))).
           ++ cbn [orb andb]. rewrite <- app_assoc. reflexivity.
           ++ unfold mex_bind. rewrite Hacc. reflexivity.
        -- rewrite (IH _ (Err (MexError message))).
           ++ reflexivity.
           ++ unfold mex_bind. rewrite Hacc. reflexivity.
    + rewrite (IH _ (Err e)); [reflexivity|].
      unfold mex_bind. rewrite Hacc. reflexivity.
Qed.

Lemma read_point_sets_cases (message : string)
    (sets_cell : option (list (matrix float))) (log : list string) :
  (exists sets,
     read_point_sets Mesh_Point message sets_cell log = (Ok sets, log)) \/
  read_point_sets Mesh_Point message sets_cell log
  = (Err (MexError message), log).
Proof.
  destruct sets_cell as [elements|]; [|left; eexists; reflexivity].
  unfold read_point_sets.
  rewrite (read_point_sets_fold message elements log (mex_ret []) (Ok []))
    by reflexivity.
  destruct (forallb _ elements); [left; eexists|right]; reflexivity.
Qed.

Lemma read_point_sets_any_log (message : string)
    (sets_cell : option (list (matrix float))) (log1 : list string)
    (sets : PointSets) :
  read_point_sets Mesh_Point message sets_cell log1 = (Ok sets, log1) ->
  forall log2,
    read_point_sets Mesh_Point message sets_cell log2 = (Ok sets, log2).
Proof.
  intros H log2. destruct sets_cell as [elements|].
  - unfold read_point_sets in *.
    rewrite (read_point_sets_fold message elements log1 (mex_ret []) (Ok []))
      in H by reflexivity.
    rewrite (read_point_sets_fold message elements log2 (mex_ret []) (Ok []))
      by reflexivity.
    destruct (forallb _ elements); [|discriminate H].
    injection H as <-. reflexivity.
  - cbn in H |- *. unfold mex_ret in *. injection H as <-. reflexivity.
Qed.

(** C7.  On an input that passes the checks of lines 94-147, a mesh map of
    two dimensions with a nonzero torsion penalty does not stop the call: the
    warning is printed, the torsion penalty is set to zero and the query runs
    on with the other settings as they were, on a lifting that is not the
    edge-pair one.  In every other case the query runs on with the settings
    untouched and nothing printed: no other setting is ever corrected. *)
Theorem C7_torsion_downgrade (a : MexArguments) (log : list string)
    (g : Grid) (voxeldimensions : list float) :
  fst (check_arguments a log) = Ok (g, voxeldimensions) ->
  let settings := arg_settings a in
  let run := run_query fl32 length_cost_functor curvature_cost_functor
               torsion_cost_functor shortest_path PieceWiseConstant
               edge_segmentation node_segmentation Mesh_Point sprintf reading_time a g
               voxeldimensions in
  let downgraded := set_torsion_penalty settings 0%float in
  (mat_ndim (arg_mesh_map a) = 2 ->
   nonzero (torsion_penalty settings) = true ->
   mexFunction fl32 length_cost_functor curvature_cost_functor
     torsion_cost_functor shortest_path PieceWiseConstant edge_segmentation
     node_segmentation Mesh_Point sprintf reading_time a log
   = run downgraded (log ++ [torsion_warning]) /\
   selected_lifting downgraded <> EdgePairLifting) /\
  (mat_ndim (arg_mesh_map a) <> 2 \/ nonzero (torsion_penalty settings) = false ->
   mexFunction fl32 length_cost_functor curvature_cost_functor
     torsion_cost_functor shortest_path PieceWiseConstant edge_segmentation
     node_segmentation Mesh_Point sprintf reading_time a log
   = run settings log) /\
  (torsion_penalty downgraded = 0%float /\
   length_penalty downgraded = length_penalty settings /\
   curvature_penalty downgraded = curvature_penalty settings /\
   curvature_power downgraded = curvature_power settings /\
   torsion_power downgraded = torsion_power settings /\
   regularization_radius downgraded = regularization_radius settings /\
   store_visit_time downgraded = store_visit_time settings /\
   VERBOSE downgraded = VERBOSE settings).
Proof.
  intros Hchecks settings run downgraded.
  pose proof (check_arguments_log a log) as Hlog.
  destruct (check_arguments a log) as [checked log'] eqn:E.
  cbn [fst snd] in Hchecks, Hlog. subst checked log'.
  split; [|split].
  - intros Hdim Hnz. split.
    + unfold mexFunction, mex_bind. rewrite E. cbn [fst snd].
      unfold downgrade_torsion. fold settings. rewrite Hdim, Hnz.
      cbn [Z.eqb Pos.eqb andb]. unfold mex_bind, mexPrintf, mex_ret.
      reflexivity.
    + unfold selected_lifting, use_pairs, downgraded, set_torsion_penalty.
      cbn [torsion_penalty].
      replace (nonzero 0%float) with false by reflexivity.
      destruct (use_edges _); discriminate.
  - intros Hcase.
    unfold mexFunction, mex_bind. rewrite E. cbn [fst snd].
    unfold downgrade_torsion. fold settings.
    assert (Hcond : (mat_ndim (arg_mesh_map a) =? 2)
                    && nonzero (torsion_penalty settings) = false).
    { destruct Hcase as [Hdim | Hz].
      - apply Z.eqb_neq in Hdim. rewrite Hdim. reflexivity.
      - rewrite Hz. apply andb_false_r. }
    rewrite Hcond. unfold mex_ret. reflexivity.
  - repeat split.
Qed.

(** The flags of lines 156-165 and the if-chain of lines 294-312. *)
Lemma lifting_of_settings (settings : InstanceSettings) :
  (selected_lifting settings = EdgePairLifting <->
   nonzero (torsion_penalty settings) = true) /\
  (selected_lifting settings = EdgeLifting <->
   nonzero (torsion_penalty settings) = false /\
   nonzero (curvature_penalty settings) = true) /\
  (selected_lifting settings = NodeLifting <->
   nonzero (torsion_penalty settings) = false /\
   nonzero (curvature_penalty settings) = false) /\
  (forall g mesh_map data_term connectivity start_sets end_sets
          voxeldimensions options,
     run_lifting fl32 length_cost_functor curvature_cost_functor
       torsion_cost_functor shortest_path edge_segmentation node_segmentation
       g mesh_map data_term connectivity settings start_sets end_sets
       voxeldimensions options
     = match selected_lifting settings with
       | EdgePairLifting =>
           edgepair_segmentation fl32 length_cost_functor
             curvature_cost_functor torsion_cost_functor shortest_path g
             mesh_map data_term connectivity settings voxeldimensions options
       | EdgeLifting =>
           edge_segmentation g mesh_map data_term connectivity settings
             start_sets end_sets voxeldimensions options
       | NodeLifting =>
           node_segmentation g mesh_map data_term connectivity settings
             start_sets end_sets voxeldimensions options
       end).
Proof.
  unfold selected_lifting, run_lifting, use_pairs, use_edges.
  destruct (nonzero (torsion_penalty settings)) eqn:T;
    destruct (nonzero (curvature_penalty settings)) eqn:C;
    repeat split; intros; try reflexivity; try discriminate;
    match goal with
    | H : _ /\ _ |- _ => destruct H; discriminate
    end.
Qed.

(** C8.  The lifting is selected from the settings left by the torsion
    downgrade: the edge-pair lifting if and only if the torsion penalty is
    then nonzero, the edge lifting if and only if it is zero and the
    curvature penalty is nonzero, the node lifting if and only if both are
    zero.  And on an input that passes the checks, whose extra point sets
    are read and that does not ask for the visit times, what [mexFunction]
    returns is what the routine of the selected lifting returns, run on
    these settings. *)
Theorem C8_lifting_selection (a : MexArguments) (log : list string)
    (g : Grid) (voxeldimensions : list float)
    (start_sets end_sets : PointSets) :
  let settings :=
    if (mat_ndim (arg_mesh_map a) =? 2)
       && nonzero (torsion_penalty (arg_settings a))
    then set_torsion_penalty (arg_settings a) 0%float
    else arg_settings a in
  let unary := arg_unary a in
  let data_term :=
    PieceWiseConstant (mat_data unary) (mat_M unary) (mat_N unary)
      (mat_O unary) voxeldimensions in
  let options := mkShortestPathOptions false (1000 * 1000 * 1000) false in
  let returned :=
    fst (mexFunction fl32 length_cost_functor curvature_cost_functor
           torsion_cost_functor shortest_path PieceWiseConstant
           edge_segmentation node_segmentation Mesh_Point sprintf reading_time
           a log) in
  ((selected_lifting settings = EdgePairLifting <->
    nonzero (torsion_penalty settings) = true) /\
   (selected_lifting settings = EdgeLifting <->
    nonzero (torsion_penalty settings) = false /\
    nonzero (curvature_penalty settings) = true) /\
   (selected_lifting settings = NodeLifting <->
    nonzero (torsion_penalty settings) = false /\
    nonzero (curvature_penalty settings) = false)) /\
  (fst (check_arguments a log) = Ok (g, voxeldimensions) ->
   read_point_sets Mesh_Point "Error in defined start sets."
     (arg_start_sets a) log = (Ok start_sets, log) ->
   read_point_sets Mesh_Point "Error in defined end sets."
     (arg_end_sets a) log = (Ok end_sets, log) ->
   store_visit_time (arg_settings a) = false ->
   returned
   = match selected_lifting settings with
     | EdgePairLifting =>
         edgepair_segmentation fl32 length_cost_functor
           curvature_cost_functor torsion_cost_functor shortest_path g
           (arg_mesh_map a) data_term (arg_connectivity a) settings
           voxeldimensions options
     | EdgeLifting =>
         edge_segmentation g (arg_mesh_map a) data_term (arg_connectivity a)
           settings start_sets end_sets voxeldimensions options
     | NodeLifting =>
         node_segmentation g (arg_mesh_map a) data_term (arg_connectivity a)
           settings start_sets end_sets voxeldimensions options
     end).
Proof.
  intros settings unary data_term options returned.
  assert (Eset : settings
                 = if (mat_ndim (arg_mesh_map a) =? 2)
                      && nonzero (torsion_penalty (arg_settings a))
                   then set_torsion_penalty (arg_settings a) 0%float
                   else arg_settings a) by reflexivity.
  clearbody settings.
  destruct (lifting_of_settings settings) as (I1 & I2 & I3 & Hlift).
  split; [split; [exact I1 | split; [exact I2 | exact I3]]|].
  intros Hchecks Hstart Hend Hstore.
  assert (Hstore' : store_visit_time settings = false).
  { rewrite Eset. destruct (_ && _); [|exact Hstore]. exact Hstore. }
  assert (Hrun : forall log0,
             fst (run_query fl32 length_cost_functor curvature_cost_functor
                    torsion_cost_functor shortest_path PieceWiseConstant
                    edge_segmentation node_segmentation Mesh_Point sprintf
                    reading_time a g voxeldimensions settings log0)
             = run_lifting fl32 length_cost_functor curvature_cost_functor
                 torsion_cost_functor shortest_path edge_segmentation
                 node_segmentation g (arg_mesh_map a) data_term
                 (arg_connectivity a) settings start_sets end_sets
                 voxeldimensions options).
  { intros log0. unfold run_query, mex_bind. rewrite Hstore'.
    unfold mex_when, mexPrintf, mex_ret, mex_lift.
    destruct (arg_VERBOSE a);
      rewrite (read_point_sets_any_log _ _ _ _ Hstart),
              (read_point_sets_any_log _ _ _ _ Hend); reflexivity. }
  rewrite <- Hlift.
  unfold returned, mexFunction, mex_bind.
  pose proof (check_arguments_log a log) as Hlog.
  destruct (check_arguments a log) as [checked log'].
  cbn [fst snd] in Hchecks, Hlog. subst checked log'. cbn [fst snd].
  unfold downgrade_torsion.
  destruct ((mat_ndim (arg_mesh_map a) =? 2)
            && nonzero (torsion_penalty (arg_settings a)));
    unfold mex_bind, mexPrintf, mex_ret; rewrite <- Eset; apply Hrun.
Qed.

End Settings.

Lemma C8_lifting_selection_witness :
  let a := Examples.flat_arguments in
  let g := mkGrid 3 3 1 in
  let voxeldimensions := [1%float; 1%float; 1%float] in
  let settings := set_torsion_penalty (arg_settings a) 0%float in
  let unary := arg_unary a in
  let data_term :=
    Examples.zero_data (mat_data unary) (mat_M unary) (mat_N unary)
      (mat_O unary) voxeldimensions in
  let options := mkShortestPathOptions false (1000 * 1000 * 1000) false in
  selected_lifting settings = NodeLifting /\
  fst (mexFunction Examples.no_rounding Examples.per_move
         Examples.no_curvature Examples.no_torsion shortest_path_model
         Examples.zero_data Examples.no_routine Examples.echo_routine
         Examples.point_of_doubles Examples.format_only 0%float a [])
  = Examples.echo_routine g (arg_mesh_map a) data_term (arg_connectivity a)
      settings [] [] voxeldimensions options.
Proof.
  cbv zeta.
  destruct (C8_lifting_selection Examples.no_rounding Examples.per_move
              Examples.no_curvature Examples.no_torsion shortest_path_model
              Examples.zero_data Examples.no_routine Examples.echo_routine
              Examples.point_of_doubles Examples.format_only 0%float
              Examples.flat_arguments [] (mkGrid 3 3 1)
              [1%float; 1%float; 1%float] [] []) as ((_ & _ & I3) & Hrun).
  split.
  - apply I3. split; reflexivity.
  - rewrite Hrun by reflexivity. reflexivity.
Defined.

Lemma C7_torsion_downgrade_witness :
  mexFunction Examples.no_rounding Examples.per_move Examples.no_curvature
    Examples.no_torsion shortest_path_model Examples.zero_data
    Examples.echo_routine Examples.echo_routine Examples.point_of_doubles Examples.format_only 0%float
    Examples.flat_arguments []
  = (Ok (mkSegmentation [] 0 0%float), [torsion_warning]).
Proof.
  assert (Hchecks : fst (check_arguments Examples.flat_arguments [])
                    = Ok (mkGrid 3 3 1, [1%float; 1%float; 1%float]))
    by (vm_compute; reflexivity).
  assert (Hdim : mat_ndim (arg_mesh_map Examples.flat_arguments) = 2)
    by reflexivity.
  assert (Hnz : nonzero (torsion_penalty (arg_settings Examples.flat_arguments))
                = true) by reflexivity.
  rewrite (proj1 (proj1 (C7_torsion_downgrade Examples.no_rounding Examples.per_move
             Examples.no_curvature Examples.no_torsion shortest_path_model
             Examples.zero_data Examples.echo_routine Examples.echo_routine
             Examples.point_of_doubles Examples.format_only 0%float Examples.flat_arguments []
             (mkGrid 3 3 1) [1%float; 1%float; 1%float] Hchecks) Hdim Hnz)).
  vm_compute. reflexivity.
Defined.

(** ** Local refinement: the fixed points *)

Lemma bind_ok {A B : Type} (r : result A) (k : A -> result B) (b : B) :
  bind r k = Ok b -> exists a, r = Ok a /\ k a = Ok b.
Proof.
  destruct r as [a | e]; cbn [bind]; intros H; [|discriminate].
  exists a. split; [reflexivity | exact H].
Qed.

Lemma nth_error_zseq (n i : Z) :
  0 <= i < n -> nth_error (zseq n) (Z.to_nat i) = Some i.
Proof.
  intros Hi. unfold zseq.
  rewrite nth_error_map.
  rewrite (nth_error_nth' _ 0%nat) by (rewrite length_seq; lia).
  rewrite seq_nth by lia. cbn [option_map]. f_equal. lia.
Qed.

Lemma length_zseq (n : Z) : List.length (zseq n) = Z.to_nat n.
Proof. unfold zseq. rewrite length_map, length_seq. reflexivity. Qed.

(** A loop whose body ends the call exactly where a guard fails. *)
Lemma for_loop_result_guarded {S : Type} (n : Z) (guard : Z -> bool)
    (step : Z -> S -> S) (e : error) (s : S) :
  for_loop_result n (fun i s => if guard i then Ok (step i s) else Err e) s
  = if forallb guard (zseq n) then Ok (for_loop n step s) else Err e.
Proof.
  unfold for_loop_result, for_loop.
  assert (Herr : forall l,
             fold_left
               (fun acc i =>
                  s <- acc ;; (if guard i then Ok (step i s) else Err e))
               l (Err e) = Err e).
  { induction l as [|i l IH]; [reflexivity | exact IH]. }
  generalize (zseq n). intros l. revert s.
  induction l as [|i l IH]; intros s; cbn [fold_left forallb]; [reflexivity|].
  cbn [bind]. destruct (guard i); cbn [andb]; [apply IH | apply Herr].
Qed.

Section Refinement.

Import LocalOptimization.

Lemma mark_constant_length (i : nat) (vars : list Var) :
  List.length (mark_constant i vars) = List.length vars.
Proof.
  revert i. induction vars as [|v rest IH]; intros [|i]; cbn; auto.
Qed.

Lemma mark_constant_fixed (vars : list Var) :
  forall i v, nth_error vars i = Some v ->
              fixed_at (mark_constant i vars) i (value v).
Proof.
  induction vars as [|w rest IH]; intros [|i] v H; cbn in H; try discriminate.
  - injection H as <-. eexists. cbn. repeat split.
  - exact (IH i v H).
Qed.

Lemma mark_constant_keeps (vars : list Var) :
  forall i j p, fixed_at vars j p -> fixed_at (mark_constant i vars) j p.
Proof.
  induction vars as [|w rest IH]; intros i j p (v & Hv & Hp & Hc).
  - destruct j; discriminate.
  - destruct i as [|i], j as [|j]; cbn in Hv |- *.
    + injection Hv as <-. eexists. cbn. repeat split. exact Hp.
    + exists v. auto.
    + exists v. auto.
    + apply (IH i j p). exists v. auto.
Qed.

Lemma mark_constant_values (vars : list Var) :
  forall i, map value (mark_constant i vars) = map value vars.
Proof.
  induction vars as [|w rest IH]; intros [|i]; cbn; auto.
  f_equal. apply IH.
Qed.

Lemma set_constant_ok (f f' : Objective) (i : Z) :
  set_constant f i = Ok f' ->
  0 <= i < Z.of_nat (List.length (variables f)) /\
  variables f' = mark_constant (Z.to_nat i) (variables f) /\
  terms f' = terms f.
Proof.
  unfold set_constant.
  destruct ((0 <=? i) && (i <? Z.of_nat (List.length (variables f)))) eqn:E;
    intros H; [|discriminate].
  injection H as <-. apply andb_true_iff in E. destruct E as [E1 E2].
  apply Z.leb_le in E1. apply Z.ltb_lt in E2. cbn. auto.
Qed.

Lemma add_terms_variables (first n : Z) (term_at : Z -> Term) (f : Objective) :
  variables (add_terms first n term_at f) = variables f.
Proof.
  unfold add_terms. generalize (zseq (n - first)). intros l.
  revert f. induction l as [|k l IH]; intros f; cbn; [reflexivity|].
  rewrite IH. reflexivity.
Qed.



Lemma initial_variables (n : Z) (point_at : Z -> Point)
    (lower upper : list float) :
  variables
    (for_loop n
       (fun i f => add_variable_with_change f (point_at i) lower upper)
       (mkObjective [] []))
  = map (fun i => mkVar (point_at i) lower upper false) (zseq n).
Proof.
  unfold for_loop.
  assert (G : forall l f,
             variables
               (fold_left
                  (fun acc i =>
                     add_variable_with_change acc (point_at i) lower upper)
                  l f)
             = variables f
               ++ map (fun i => mkVar (point_at i) lower upper false) l).
  { induction l as [|i l IH]; intros f; cbn [fold_left map].
    - rewrite app_nil_r. reflexivity.
    - rewrite IH. cbn [add_variable_with_change variables].
      rewrite <- app_assoc. reflexivity. }
  rewrite G. reflexivity.
Qed.

End Refinement.

Section RefinementRun.

Import LocalOptimization.

Variable minimise : SolverSetup -> Objective -> list Point.
Variable evaluate : Objective -> float.

Lemma values_nth (vars : list Var) (point_at : Z -> Point) (n i : Z) :
  map value vars = map point_at (zseq n) ->
  0 <= i < n ->
  exists v, nth_error vars (Z.to_nat i) = Some v /\ value v = point_at i.
Proof.
  intros Hvalues Hi.
  pose proof (f_equal (fun l => nth_error l (Z.to_nat i)) Hvalues) as E.
  cbn beta in E. rewrite !nth_error_map, nth_error_zseq in E by exact Hi.
  destruct (nth_error vars (Z.to_nat i)) as [v|]; cbn in E; [|discriminate].
  exists v. split; [reflexivity | congruence].
Qed.

Lemma set_constant_step (f f' : Objective) (point_at : Z -> Point) (n i : Z) :
  map value (variables f) = map point_at (zseq n) ->
  0 <= n ->
  set_constant f i = Ok f' ->
  0 <= i < n /\
  map value (variables f') = map point_at (zseq n) /\
  fixed_at (variables f') (Z.to_nat i) (point_at i) /\
  (forall j p, fixed_at (variables f) j p -> fixed_at (variables f') j p).
Proof.
  intros Hvalues Hn Hset.
  destruct (set_constant_ok f f' i Hset) as (Hi & Hvars & _).
  assert (Hlen : List.length (variables f) = Z.to_nat n).
  { rewrite <- (length_map value), Hvalues, length_map. apply length_zseq. }
  assert (Hi' : 0 <= i < n) by lia.
  rewrite Hvars. split; [exact Hi'|]. split; [|split].
  - rewrite mark_constant_values. exact Hvalues.
  - destruct (values_nth _ _ _ _ Hvalues Hi') as (v & Hv & <-).
    apply mark_constant_fixed. exact Hv.
  - intros j p Hj. apply mark_constant_keeps. exact Hj.
Qed.

Lemma vector_at_ok (size k k' : Z) :
  vector_at size k = Ok k' -> k' = k /\ 0 <= k < size.
Proof.
  unfold vector_at.
  destruct ((0 <=? k) && (k <? size)) eqn:E; intros H; [|discriminate H].
  injection H as <-. apply andb_true_iff in E.
  rewrite Z.leb_le, Z.ltb_lt in E. split; [reflexivity | exact E].
Qed.

(** What a run that returns has gone through (lines 209-382): every row of
    the path was read inside the array, the four points made constant exist,
    the unary type is linear, the solver is not nelder_mead, and every row
    of the result was written inside its array. *)
Lemma mexFunction_main_run (unary_matrix path : matrix float)
    (params : Params) (settings : InstanceSettings) (r : Refinement) :
  mexFunction_main minimise evaluate unary_matrix path params settings = Ok r ->
  let n := mat_M path in
  let lower :=
    if mat_O unary_matrix =? 1
    then [0%float; 0%float; PrimFloat.opp 1%float]
    else [0%float; 0%float; 0%float] in
  let upper :=
    if mat_O unary_matrix =? 1
    then [double_of_int (mat_M unary_matrix - 1);
          double_of_int (mat_N unary_matrix - 1); 1%float]
    else [double_of_int (mat_M unary_matrix - 1);
          double_of_int (mat_N unary_matrix - 1);
          double_of_int (mat_O unary_matrix - 1)] in
  exists setup f1 f2 f3 f4,
    set_constant
      (for_loop n
         (fun i f =>
            add_variable_with_change f (initial_point unary_matrix path i)
              lower upper)
         (mkObjective [] [])) 0 = Ok f1 /\
    set_constant f1 1 = Ok f2 /\
    set_constant f2 (n - 2) = Ok f3 /\
    set_constant f3 (n - 1) = Ok f4 /\
    (method setup = newton \/ method setup = lbfgs) /\
    maximum_iterations setup = maxiter params /\
    function_tolerance setup = function_improvement_tolerance params /\
    argument_tolerance setup = argument_improvement_tolerance params /\
    (mat_N path = 2 \/ mat_N path = 3) /\
    2 <= n /\
    forallb (row_inside path) (zseq n) = true /\
    forallb (fun i => mat_inside (mkMatrix n (mat_N path) 1 2 (@nil float))
                        i 2 0) (zseq n) = true /\
    let f5 := add_terms 1 n (fun i => UnaryTerm (i - 1) i) f4 in
    let f6 :=
      if PrimFloat.ltb 0%float (length_penalty settings)
      then add_terms 1 n (fun i => LengthTerm (i - 1) i) f5
      else f5 in
    let f7 :=
      if PrimFloat.ltb 0%float (curvature_penalty settings)
      then add_terms 2 n (fun i => CurvatureTerm (i - 2) (i - 1) i) f6
      else f6 in
    let f8 :=
      if PrimFloat.ltb 0%float (torsion_penalty settings)
      then add_terms 3 n (fun i => TorsionTerm (i - 3) (i - 2) (i - 1) i) f7
      else f7 in
    r = mkRefinement
          (map (fun v => resulting_row (value v))
               (variables (solve minimise setup f8)))
          (mat_N path) (evaluate (solve minimise setup f8)).
Proof.
  intros H n lower upper. unfold mexFunction_main in H.
  apply bind_ok in H. destruct H as (unary_kind & _ & H).
  apply bind_ok in H. destruct H as (solver_method & _ & H).
  apply bind_ok in H. destruct H as (factorization_kind & _ & H).
  apply bind_ok in H. destruct H as ([] & Hdim & H).
  apply bind_ok in H. destruct H as (f0 & H0 & H).
  apply bind_ok in H. destruct H as (k0 & Hk0 & H).
  apply bind_ok in H. destruct H as (f1 & H1 & H).
  apply bind_ok in H. destruct H as (k1 & Hk1 & H).
  apply bind_ok in H. destruct H as (f2 & H2 & H).
  apply bind_ok in H. destruct H as (k2 & Hk2 & H).
  apply bind_ok in H. destruct H as (f3 & H3 & H).
  apply bind_ok in H. destruct H as (k3 & Hk3 & H).
  apply bind_ok in H. destruct H as (f4 & H4 & H).
  apply bind_ok in H. destruct H as (f5 & H5 & H).
  apply bind_ok in H. destruct H as ([] & Hsolver & H).
  apply bind_ok in H. destruct H as ([] & Hwrite & H).
  fold n in H0, Hk0, Hk1, Hk2, Hk3, H5, H, Hwrite.
  rewrite for_loop_result_guarded in H0.
  destruct (forallb (row_inside path) (zseq n)) eqn:Hread; [|discriminate H0].
  injection H0 as <-.
  rewrite (for_loop_result_guarded n
             (fun i => mat_inside (mkMatrix n (mat_N path) 1 2 (@nil float)) i 0 0
                       && mat_inside (mkMatrix n (mat_N path) 1 2 (@nil float)) i 1 0
                       && mat_inside (mkMatrix n (mat_N path) 1 2 (@nil float)) i 2 0)
             (fun _ u => u)) in Hwrite.
  match type of Hwrite with
  | (if forallb ?guard _ then _ else _) = _ =>
      destruct (forallb guard (zseq n)) eqn:Hwritten; [|discriminate Hwrite]
  end.
  destruct (vector_at_ok _ _ _ Hk0) as (-> & B0).
  destruct (vector_at_ok _ _ _ Hk1) as (-> & B1).
  destruct (vector_at_ok _ _ _ Hk2) as (-> & B2).
  destruct (vector_at_ok _ _ _ Hk3) as (-> & B3).
  destruct unary_kind; [discriminate H5|]. injection H5 as <-.
  exists (mkSolverSetup solver_method factorization_kind (maxiter params)
            (function_improvement_tolerance params)
            (argument_improvement_tolerance params)), f1, f2, f3, f4.
  cbn [method maximum_iterations function_tolerance argument_tolerance].
  split; [exact H1|]. split; [exact H2|]. split; [exact H3|].
  split; [exact H4|].
  split; [destruct solver_method; auto; discriminate|].
  split; [reflexivity|]. split; [reflexivity|]. split; [reflexivity|].
  split.
  { unfold ASSERT in Hdim.
    destruct ((mat_N path =? 2) || (mat_N path =? 3)) eqn:E; [|discriminate].
    apply orb_true_iff in E. rewrite !Z.eqb_eq in E. exact E. }
  split; [lia|]. split; [reflexivity|]. split.
  { rewrite forallb_forall in Hwritten |- *. intros i Hi.
    specialize (Hwritten i Hi). apply andb_true_iff in Hwritten.
    exact (proj2 Hwritten). }
  cbn zeta. injection H as <-. reflexivity.
Qed.

(** What a run that returns has done: the path has at least two rows, the
    variables hold the points read from the rows, those of the first two and
    the last two rows are constant, and the rows returned are the variables
    after the solver's update. *)
Lemma mexFunction_main_returns (unary_matrix path : matrix float)
    (params : Params) (settings : InstanceSettings) (r : Refinement) :
  mexFunction_main minimise evaluate unary_matrix path params settings = Ok r ->
  let n := mat_M path in
  2 <= n /\
  (mat_N path = 2 \/ mat_N path = 3) /\
  exists vars proposed,
    map value vars = map (initial_point unary_matrix path) (zseq n) /\
    (forall i, i = 0 \/ i = 1 \/ i = n - 2 \/ i = n - 1 ->
               fixed_at vars (Z.to_nat i) (initial_point unary_matrix path i)) /\
    resulting_path r
    = map (fun v => resulting_row (value v)) (update vars proposed).
Proof.
  intros H n.
  destruct (mexFunction_main_run _ _ _ _ _ H)
    as (setup & f1 & f2 & f3 & f4 & H1 & H2 & H3 & H4 & _ & _ & _ & _
        & Hdim & Hn2 & _ & _ & Hr).
  cbn zeta in Hr. fold n in H1, H3, H4, Hn2, Hr.
  match type of H1 with
  | set_constant ?f0 _ = _ =>
      assert (Hv0 : map value (variables f0)
                    = map (initial_point unary_matrix path) (zseq n))
  end.
  { rewrite initial_variables, map_map. reflexivity. }
  assert (Hn : 0 <= n) by lia.
  destruct (set_constant_step _ _ _ _ _ Hv0 Hn H1) as (B1 & Hv1 & F1 & K1).
  destruct (set_constant_step _ _ _ _ _ Hv1 Hn H2) as (B2 & Hv2 & F2 & K2).
  destruct (set_constant_step _ _ _ _ _ Hv2 Hn H3) as (B3 & Hv3 & F3 & K3).
  destruct (set_constant_step _ _ _ _ _ Hv3 Hn H4) as (B4 & Hv4 & F4 & K4).
  split; [exact Hn2|]. split; [exact Hdim|].
  match type of Hr with
  | _ = mkRefinement _ _ (evaluate (solve minimise setup ?f8)) =>
      set (final := f8) in *
  end.
  assert (Efinal : variables final = variables f4).
  { subst final.
    repeat match goal with
           | |- context [if PrimFloat.ltb ?a ?b then _ else _] =>
               destruct (PrimFloat.ltb a b)
           end;
    rewrite ?add_terms_variables; reflexivity. }
  exists (variables f4), (minimise setup final).
  split; [exact Hv4|]. split.
  - intros i [-> | [-> | [-> | ->]]].
    + apply K4, K3, K2. exact F1.
    + apply K4, K3. exact F2.
    + apply K4. exact F3.
    + exact F4.
  - rewrite Hr. cbn [resulting_path]. unfold solve. cbn [variables].
    rewrite Efinal. reflexivity.
Qed.

End RefinementRun.

Section RefinementClaims.

Import LocalOptimization.

Variable minimise : SolverSetup -> Objective -> list Point.
Variable evaluate : Objective -> float.

Lemma mexFunction_ok (unary_matrix path : matrix float)
    (params : Params) (settings : InstanceSettings) (r : Refinement) :
  mexFunction minimise evaluate unary_matrix path params settings = Ok r <->
  mexFunction_main minimise evaluate unary_matrix path params settings = Ok r.
Proof.
  unfold mexFunction.
  destruct (mexFunction_main minimise evaluate unary_matrix path params settings)
    as [r' | e]; [tauto|].
  destruct e; split; intros H; discriminate H.
Qed.


Lemma set_constant_accepts (f : Objective) (i : Z) :
  0 <= i < Z.of_nat (List.length (variables f)) ->
  exists f', set_constant f i = Ok f' /\
             List.length (variables f') = List.length (variables f).
Proof.
  intros Hi. unfold set_constant.
  replace ((0 <=? i) && (i <? Z.of_nat (List.length (variables f)))) with true
    by (symmetry; apply andb_true_iff; rewrite Z.leb_le, Z.ltb_lt; exact Hi).
  eexists. split; [reflexivity|]. cbn [variables]. apply mark_constant_length.
Qed.

Lemma update_all_constant (vars : list Var) :
  forall proposed,
    Forall (fun v => constant v = true) vars -> update vars proposed = vars.
Proof.
  induction vars as [|v rest IH]; intros proposed Hall; [reflexivity|].
  inversion Hall as [|v' rest' Hv Hrest]; subst.
  cbn [update]. rewrite Hv, (IH _ Hrest). reflexivity.
Qed.

Lemma rows_inside (path : matrix float) :
  mat_N path = 3 -> mat_O path = 1 ->
  forallb (row_inside path) (zseq (mat_M path)) = true.
Proof.
  intros HN HO. apply forallb_forall. intros i Hi. apply In_zseq in Hi.
  unfold row_inside, mat_inside, mat_numel. rewrite HN, HO.
  rewrite !andb_true_iff, !Z.leb_le, !Z.ltb_lt. lia.
Qed.

Lemma rows_written_inside (n dim : Z) :
  dim = 3 ->
  forallb (fun i => mat_inside (mkMatrix n dim 1 2 (@nil float)) i 0 0
                    && mat_inside (mkMatrix n dim 1 2 (@nil float)) i 1 0
                    && mat_inside (mkMatrix n dim 1 2 (@nil float)) i 2 0)
          (zseq n) = true.
Proof.
  intros ->. apply forallb_forall. intros i Hi. apply In_zseq in Hi.
  unfold mat_inside, mat_numel. cbn [mat_M mat_N mat_O].
  rewrite !andb_true_iff, !Z.leb_le, !Z.ltb_lt. lia.
Qed.

Lemma vector_at_inside (size k : Z) :
  0 <= k < size -> vector_at size k = Ok k.
Proof.
  intros Hk. unfold vector_at.
  replace ((0 <=? k) && (k <? size)) with true; [reflexivity|].
  symmetry. apply andb_true_iff. rewrite Z.leb_le, Z.ltb_lt. exact Hk.
Qed.

(** With options that are accepted, a path of three columns and at least
    two rows is refined: nothing else is asked of the input. *)
Lemma mexFunction_main_accepts (unary_matrix path : matrix float)
    (params : Params) (settings : InstanceSettings) :
  unary_type params = "linear"%string ->
  local_solver params = "newton"%string \/
  local_solver params = "lbfgs"%string ->
  factorization_method params = "iterative"%string \/
  factorization_method params = "bkp"%string ->
  mat_N path = 3 -> mat_O path = 1 ->
  2 <= mat_M path ->
  exists r,
    mexFunction_main minimise evaluate unary_matrix path params settings = Ok r.
Proof.
  intros Hunary Hsolver Hfact Hdim HO Hn.
  unfold mexFunction_main. rewrite Hunary. cbn [bind].
  change (String.eqb "linear" "linear") with true. cbn [bind].
  assert (Hs : exists m,
             (if String.eqb (local_solver params) "newton" then Ok newton
              else if String.eqb (local_solver params) "lbfgs" then Ok lbfgs
              else if String.eqb (local_solver params) "nelder_mead"
                   then Ok nelder_mead
                   else Err (Exception "Unknown Solver")) = Ok m /\
             (m = newton \/ m = lbfgs)).
  { destruct Hsolver as [-> | ->]; eexists; (split; [reflexivity | auto]). }
  destruct Hs as (m & -> & Hm). cbn [bind].
  assert (Hf : exists k,
             (if String.eqb (factorization_method params) "iterative"
              then Ok iterative
              else if String.eqb (factorization_method params) "bkp"
                   then Ok bkp
                   else Err (Exception "Unknown factorization method"))
             = Ok k).
  { destruct Hfact as [-> | ->]; eexists; reflexivity. }
  destruct Hf as (k & ->). cbn [bind].
  rewrite Hdim. cbn [Z.eqb Pos.eqb orb ASSERT bind].
  rewrite for_loop_result_guarded, (rows_inside path Hdim HO). cbn [bind].
  rewrite (vector_at_inside _ 0) by lia. cbn [bind].
  match goal with
  | |- context [set_constant ?f0 0] =>
      assert (L0 : List.length (variables f0) = Z.to_nat (mat_M path))
        by (rewrite initial_variables, length_map; apply length_zseq);
      destruct (set_constant_accepts f0 0) as (f1 & -> & L1); [lia|]
  end.
  cbn [bind]. rewrite (vector_at_inside _ 1) by lia. cbn [bind].
  destruct (set_constant_accepts f1 1) as (f2 & -> & L2); [lia|].
  cbn [bind]. rewrite (vector_at_inside _ (mat_M path - 2)) by lia.
  cbn [bind].
  destruct (set_constant_accepts f2 (mat_M path - 2)) as (f3 & -> & L3);
    [lia|].
  cbn [bind]. rewrite (vector_at_inside _ (mat_M path - 1)) by lia.
  cbn [bind].
  destruct (set_constant_accepts f3 (mat_M path - 1)) as (f4 & -> & L4);
    [lia|].
  cbn [bind].
  rewrite (for_loop_result_guarded (mat_M path)
             (fun i => mat_inside (mkMatrix (mat_M path) 3 1 2 (@nil float)) i 0 0
                       && mat_inside (mkMatrix (mat_M path) 3 1 2 (@nil float)) i 1 0
                       && mat_inside (mkMatrix (mat_M path) 3 1 2 (@nil float)) i 2 0)
             (fun _ u => u)).
  rewrite (rows_written_inside (mat_M path) 3 eq_refl).
  destruct Hm as [-> | ->]; cbn [bind]; eexists; reflexivity.
Qed.

(** C6 (amended).  The number of points is not checked: the only check on the
    shape of the path is that it has 2 or 3 columns.  With the unary type
    "linear", a solver "newton" or "lbfgs" and a factorization "iterative" or
    "bkp", a path of 2 or 3 points, an array of three columns, is accepted:
    the call returns, every point being held fixed at the position it was
    read in. *)
Theorem C6_short_paths_accepted (unary_matrix path : matrix float)
    (params : Params) (settings : InstanceSettings) :
  unary_type params = "linear"%string ->
  local_solver params = "newton"%string \/
  local_solver params = "lbfgs"%string ->
  factorization_method params = "iterative"%string \/
  factorization_method params = "bkp"%string ->
  mat_N path = 3 -> mat_O path = 1 ->
  mat_M path = 2 \/ mat_M path = 3 ->
  exists r,
    mexFunction minimise evaluate unary_matrix path params settings = Ok r /\
    resulting_path r
    = map (fun i => resulting_row (initial_point unary_matrix path i))
          (zseq (mat_M path)).
Proof.
  intros Hunary Hsolver Hfact Hdim HO Hn.
  assert (Hret : exists r, mexFunction_main minimise evaluate unary_matrix path
                             params settings = Ok r).
  { apply mexFunction_main_accepts; try assumption. lia. }
  destruct Hret as (r & Hr). exists r.
  split; [apply mexFunction_ok; exact Hr|].
  destruct (mexFunction_main_returns minimise evaluate _ _ _ _ _ Hr)
    as (_ & _ & vars & proposed & Hvalues & Hfixed & Hrows).
  assert (Hall : Forall (fun v => constant v = true) vars).
  { apply Forall_forall. intros v Hv.
    apply In_nth_error in Hv. destruct Hv as (j & Hj).
    assert (Hlen : List.length vars = Z.to_nat (mat_M path)).
    { rewrite <- (length_map value), Hvalues, length_map. apply length_zseq. }
    assert (Hjn : (j < List.length vars)%nat)
      by (apply nth_error_Some; congruence).
    assert (Hcase : Z.of_nat j = 0 \/ Z.of_nat j = 1
                    \/ Z.of_nat j = mat_M path - 2
                    \/ Z.of_nat j = mat_M path - 1) by lia.
    destruct (Hfixed (Z.of_nat j) Hcase) as (w & Hw & _ & Hc).
    rewrite Nat2Z.id in Hw. congruence. }
  rewrite Hrows, (update_all_constant vars proposed Hall).
  rewrite <- (map_map value resulting_row), Hvalues, map_map. reflexivity.
Qed.

End RefinementClaims.



Lemma C6_short_paths_accepted_witness :
  exists r,
    LocalExamples.refine LocalExamples.three_points = Ok r /\
    LocalOptimization.resulting_path r
    = map (fun i => LocalOptimization.resulting_row
                      (LocalOptimization.initial_point
                         LocalExamples.unary_matrix
                         LocalExamples.three_points i))
          (zseq (mat_M LocalExamples.three_points)).
Proof.
  apply (C6_short_paths_accepted LocalExamples.to_the_middle
           LocalExamples.no_value LocalExamples.unary_matrix
           LocalExamples.three_points LocalExamples.params
           LocalExamples.settings).
  - reflexivity.
  - right. reflexivity.
  - left. reflexivity.
  - reflexivity.
  - reflexivity.
  - right. reflexivity.
Defined.

(** C6 as stated fails: a path of three points is not refused; the call
    returns its three points. *)
Lemma C6_counterexample :
  mat_M LocalExamples.three_points = 3 /\
  LocalExamples.refine LocalExamples.three_points
  = Ok (LocalOptimization.mkRefinement
          [LocalOptimization.mkPoint 2%float 2%float 2%float;
           LocalOptimization.mkPoint 3%float 3%float 3%float;
           LocalOptimization.mkPoint 4%float 4%float 4%float] 3 0%float).
Proof.
  split; [reflexivity|]. vm_compute. reflexivity.
Qed.

(** ** The modelled search meets its contract *)

Section SearchContract.

Variable start_set : list Z.
Variable goal_set : list Z.
Variable callback : NeighborCallback.
Variable options : ShortestPathOptions.

Lemma is_closed_cons (p s : Z) (parent : option Z) (closed : list (Z * option Z)) :
  is_closed p closed = true -> is_closed p ((s, parent) :: closed) = true.
Proof.
  unfold is_closed. cbn [parent_of]. destruct (s =? p); [reflexivity | auto].
Qed.

Lemma parent_ok_cons (closed : list (Z * option Z)) (s t : Z)
    (parent parent' : option Z) :
  parent_ok start_set callback closed t parent ->
  parent_ok start_set callback ((s, parent') :: closed) t parent.
Proof.
  destruct parent as [p|]; cbn [parent_ok]; [|auto].
  intros [Hc Hs]. split; [apply is_closed_cons; exact Hc | exact Hs].
Qed.

Lemma least_entry_In (entries : list OpenEntry) :
  forall best, In (least_entry best entries) (best :: entries).
Proof.
  induction entries as [|e rest IH]; intros best; cbn [least_entry].
  - left. reflexivity.
  - destruct (PrimFloat.ltb (open_dist e) (open_dist best)).
    + right. apply IH.
    + destruct (IH best) as [E | Hin]; [left; exact E | right; right; exact Hin].
Qed.

Lemma path_to_ok (closed : list (Z * option Z)) :
  closed_ok start_set callback closed ->
  forall s suffix,
    is_closed s closed = true ->
    is_state_chain callback (s :: suffix) = true ->
    exists h rest,
      path_to closed s suffix = h :: rest /\
      In h start_set /\
      is_state_chain callback (h :: rest) = true /\
      forall d, last (h :: rest) d = last (s :: suffix) d.
Proof.
  induction closed as [|[t parent] earlier IH]; intros Hok s suffix Hs Hchain.
  - discriminate Hs.
  - cbn [closed_ok] in Hok. destruct Hok as [Hearlier Hparent].
    unfold is_closed in Hs. cbn [parent_of] in Hs. cbn [path_to].
    destruct (t =? s) eqn:E.
    + apply Z.eqb_eq in E. subst t.
      destruct parent as [p|]; cbn [parent_ok] in Hparent.
      * destruct Hparent as [Hp Hsucc].
        destruct (IH Hearlier p (s :: suffix) Hp) as (h & rest & -> & Hh & Hc & Hl).
        { cbn [is_state_chain]. rewrite Hsucc. exact Hchain. }
        exists h, rest. repeat split; assumption.
      * exists s, suffix. repeat split; assumption.
    + apply (IH Hearlier s suffix); assumption.
Qed.

Lemma relax_open_ok (closed : list (Z * option Z)) (s t : Z) (dist : float)
    (entries : list OpenEntry) :
  is_closed s closed = true ->
  successor_of callback s t = true ->
  open_ok start_set callback closed entries ->
  open_ok start_set callback closed (relax_open s dist t entries).
Proof.
  intros Hs Hsucc. unfold open_ok.
  induction entries as [|e rest IH]; intros Hall; cbn [relax_open].
  - constructor; [|constructor]. cbn. auto.
  - inversion Hall as [|e' rest' He Hrest]; subst.
    destruct (open_state e =? t).
    + destruct (PrimFloat.ltb dist (open_dist e)).
      * constructor; [cbn; auto | exact Hrest].
      * exact Hall.
    + constructor; [exact He | apply IH; exact Hrest].
Qed.

Lemma relax_all_ok (closed : list (Z * option Z)) (s : Z) (dist : float)
    (neighbors : list Neighbor) :
  is_closed s closed = true ->
  (forall nb, In nb neighbors -> In nb (callback s [])) ->
  forall entries,
    open_ok start_set callback closed entries ->
    open_ok start_set callback closed
      (fold_left (relax s dist closed) neighbors entries).
Proof.
  intros Hs. induction neighbors as [|nb rest IH]; intros Hin entries Hok.
  - exact Hok.
  - cbn [fold_left]. apply IH.
    + intros nb' Hnb'. apply Hin. right. exact Hnb'.
    + unfold relax. destruct (is_closed (neighbor_dest nb) closed); [exact Hok|].
      apply relax_open_ok; [exact Hs | | exact Hok].
      unfold successor_of. apply existsb_exists.
      exists nb. split; [apply Hin; left; reflexivity | apply Z.eqb_refl].
Qed.

Lemma search_loop_contract (fuel : nat) :
  forall st out,
    closed_ok start_set callback (closed_set st) ->
    open_ok start_set callback (closed_set st) (open_set st) ->
    search_loop fuel goal_set callback options st = Ok out ->
    search_contract start_set goal_set callback (search_path out) = true.
Proof.
  induction fuel as [|fuel IH]; intros st out Hclosed Hopen Hrun;
    cbn [search_loop] in Hrun; [discriminate Hrun|].
  destruct (open_set st) as [|first others] eqn:Eopen.
  { injection Hrun as <-. reflexivity. }
  remember (least_entry first others) as e eqn:Ee.
  assert (He : parent_ok start_set callback (closed_set st)
                 (open_state e) (open_parent e)).
  { unfold open_ok in Hopen. rewrite Forall_forall in Hopen.
    apply Hopen. rewrite Ee. apply least_entry_In. }
  remember ((open_state e, open_parent e) :: closed_set st) as closed
    eqn:Eclosed.
  assert (Hclosed' : closed_ok start_set callback closed)
    by (rewrite Eclosed; cbn [closed_ok]; split; assumption).
  assert (Hs : is_closed (open_state e) closed = true).
  { rewrite Eclosed. unfold is_closed. cbn [parent_of]. rewrite Z.eqb_refl.
    reflexivity. }
  destruct (existsb (Z.eqb (open_state e)) goal_set) eqn:Egoal.
  - injection Hrun as <-. cbn [search_path].
    destruct (path_to_ok closed Hclosed' (open_state e) [] Hs eq_refl)
      as (h & rest & -> & Hh & Hc & Hl).
    unfold search_contract. rewrite Hc, Hl. cbn [last].
    fold (memb (open_state e) goal_set) in Egoal. rewrite Egoal.
    replace (memb h start_set) with true
      by (symmetry; apply memb_In; exact Hh).
    reflexivity.
  - destruct (maximum_queue_size options <? _); [discriminate Hrun|].
    apply (IH _ _) in Hrun; [exact Hrun | exact Hclosed' |].
    cbn [closed_set open_set].
    apply relax_all_ok; [exact Hs | auto |].
    unfold remove_entry, open_ok. apply Forall_forall.
    intros x Hx. apply filter_In in Hx. destruct Hx as [Hx _].
    unfold open_ok in Hopen. rewrite Forall_forall in Hopen.
    rewrite Eclosed. apply parent_ok_cons. apply Hopen. exact Hx.
Qed.

(** Whatever the modelled search returns meets the contract of the spec. *)
Lemma shortest_path_model_contract (n : Z) (out : SearchOutput) :
  shortest_path_model n start_set goal_set callback options = Ok out ->
  search_contract start_set goal_set callback (search_path out) = true.
Proof.
  unfold shortest_path_model. apply search_loop_contract.
  - exact I.
  - cbn [closed_set open_set]. unfold open_ok. apply Forall_forall.
    intros e He. apply in_map_iff in He. destruct He as (s & <- & Hs).
    exact Hs.
Qed.

End SearchContract.

(** * Further properties of the code *)

(** ** Grid index *)

(** X2.  On a grid with positive [M] and [N] whose product is at most
    [INT_MAX], every [int] [n] is decoded in [int] without wrap-around, and
    it decodes to in-bounds coordinates exactly when it lies in
    [0, M*N*O). *)
Theorem ind2sub_in_bounds_iff (g : Grid) (n : Z) :
  0 < gridM g -> 0 < gridN g -> gridM g * gridN g <= INT_MAX ->
  INT_MIN <= n <= INT_MAX ->
  Int32.ind2sub g n = Some (ind2sub g n) /\
  Int32.make_point g n = Some (make_point g n) /\
  (validind_point g (make_point g n) = true <-> 0 <= n < numel g) /\
  ((let '(x, y, z) := ind2sub g n in validind g x y z) = true
   <-> 0 <= n < numel g).
Proof.
  intros HM HN HMN Hn.
  split; [apply int32_ind2sub_exact; assumption|].
  split; [apply int32_make_point_exact; assumption|].
  assert (E : (let '(x, y, z) := ind2sub g n in validind g x y z)
              = validind_point g (make_point g n))
    by (rewrite make_point_ind2sub; reflexivity).
  rewrite E.
  assert (G : validind_point g (make_point g n) = true <-> 0 <= n < numel g).
  { split.
    - intros V. pose proof (validind_point_range g _ V) as R.
      unfold sub2ind_point, make_point, sub2ind in R. cbn [px py pz] in R.
      replace (n - _ - _ + _ + _) with n in R by lia. exact R.
    - intros R. pose proof (ind2sub_valid g n HM HN R) as V.
      rewrite make_point_ind2sub in V. exact V. }
  split; exact G.
Qed.

Lemma ind2sub_in_bounds_iff_witness :
  Int32.ind2sub (mkGrid 3 4 5) 60 = Some (ind2sub (mkGrid 3 4 5) 60) /\
  ((let '(x, y, z) := ind2sub (mkGrid 3 4 5) 60 in
    validind (mkGrid 3 4 5) x y z) = true
   <-> 0 <= 60 < numel (mkGrid 3 4 5)).
Proof.
  assert (HMN : gridM (mkGrid 3 4 5) * gridN (mkGrid 3 4 5) <= INT_MAX)
    by (vm_compute; discriminate).
  assert (Hn : INT_MIN <= 60 <= INT_MAX)
    by (split; vm_compute; discriminate).
  destruct (ind2sub_in_bounds_iff (mkGrid 3 4 5) 60 eq_refl eq_refl HMN Hn)
    as (I & _ & _ & G).
  split; [exact I | exact G].
Defined.

(** X3.  On a grid of at most [INT_MAX] voxels, two in-bounds voxels to
    which the code gives the same linear index are the same voxel. *)
Theorem sub2ind_injective_in_bounds (g : Grid) (p q : Point) :
  numel g <= INT_MAX ->
  validind_point g p = true -> validind_point g q = true ->
  Int32.sub2ind g (px p) (py p) (pz p) = Int32.sub2ind g (px q) (py q) (pz q) ->
  p = q.
Proof.
  intros Hsize Vp Vq E.
  rewrite (int32_sub2ind_exact g _ _ _ Hsize Vp) in E.
  rewrite (int32_sub2ind_exact g _ _ _ Hsize Vq) in E.
  change (sub2ind_point g p = sub2ind_point g q) in E.
  rewrite <- (make_point_sub2ind g p Vp), <- (make_point_sub2ind g q Vq), E.
  reflexivity.
Qed.

Lemma sub2ind_injective_in_bounds_witness :
  make_point (mkGrid 3 4 5) 59 = mkPoint 2 3 4.
Proof.
  apply (sub2ind_injective_in_bounds (mkGrid 3 4 5)
           (make_point (mkGrid 3 4 5) 59) (mkPoint 2 3 4)).
  - vm_compute. discriminate.
  - reflexivity.
  - reflexivity.
  - vm_compute. reflexivity.
Defined.

(** ** Indices of edge pairs *)

(** X4.  With a template of K > 0 offsets, K*K at most [INT_MAX], the index
    root*K*K + K*e1 + e2 of a root >= 0 and two edges in [0, K), when it is
    at most [INT_MAX], decomposes into that root and those edges; and every
    index s in [0, INT_MAX] decomposes into a root >= 0 and two edges in
    [0, K) of which it is the index.  The divisions and remainders are
    computed in [int] without wrap-around. *)
Theorem edgepair_index_roundtrip (connectivity : matrix Z) :
  0 < mat_M connectivity ->
  mat_M connectivity * mat_M connectivity <= INT_MAX ->
  let K := mat_M connectivity in
  (forall root e1 e2,
      0 <= root -> 0 <= e1 < K -> 0 <= e2 < K ->
      root * (K * K) + K * e1 + e2 <= INT_MAX ->
      Int32.decompose_pair_of_edgepairs
        (root * (K * K) + K * e1 + e2) connectivity
      = Some (root, K * e1 + e2) /\
      Int32.decompose_edgepair (K * e1 + e2) connectivity = Some (e1, e2) /\
      decompose_pair_of_edgepairs (root * (K * K) + K * e1 + e2) connectivity
      = (root, K * e1 + e2) /\
      decompose_edgepair (K * e1 + e2) connectivity = (e1, e2)) /\
  (forall s,
      0 <= s <= INT_MAX ->
      let '(root, edgepair_id) := decompose_pair_of_edgepairs s connectivity in
      let '(e1, e2) := decompose_edgepair edgepair_id connectivity in
      Int32.decompose_pair_of_edgepairs s connectivity
      = Some (root, edgepair_id) /\
      Int32.decompose_edgepair edgepair_id connectivity = Some (e1, e2) /\
      0 <= root /\ 0 <= e1 < K /\ 0 <= e2 < K /\
      edgepair_id = K * e1 + e2 /\
      s = root * (K * K) + K * e1 + e2).
Proof.
  intros HK HKK K.
  assert (Exact : forall root e1 e2,
             0 <= root -> 0 <= e1 < K -> 0 <= e2 < K ->
             decompose_pair_of_edgepairs
               (root * (K * K) + K * e1 + e2) connectivity
             = (root, K * e1 + e2) /\
             decompose_edgepair (K * e1 + e2) connectivity = (e1, e2)).
  { intros root e1 e2 Hr H1 H2.
    unfold decompose_pair_of_edgepairs, decompose_edgepair. fold K.
    pose proof (lin2_bounds K K e2 e1 H2 H1) as B.
    replace (root * (K * K) + K * e1 + e2)
      with ((e2 + e1 * K) + root * (K * K)) by lia.
    rewrite quot_lin, rem_lin by lia.
    replace (K * e1 + e2) with (e2 + e1 * K) by lia.
    rewrite quot_lin, rem_lin by lia.
    split; reflexivity. }
  split.
  - intros root e1 e2 Hr H1 H2 Hs.
    destruct (Exact root e1 e2 Hr H1 H2) as (E1 & E2).
    assert (Hs' : INT_MIN <= root * (K * K) + K * e1 + e2 <= INT_MAX).
    { split; [|exact Hs]. unfold INT_MIN.
      assert (0 <= root * (K * K))
        by (apply Z.mul_nonneg_nonneg; [lia | apply Z.mul_nonneg_nonneg; lia]).
      assert (0 <= K * e1) by (apply Z.mul_nonneg_nonneg; lia).
      lia. }
    destruct (int32_decompose_exact connectivity _ HK HKK Hs') as (D1 & D2).
    rewrite E1 in D1, D2. cbn [snd] in D2. rewrite E2 in D2.
    repeat split; assumption.
  - intros s Hs.
    assert (Hs' : INT_MIN <= s <= INT_MAX) by (unfold INT_MIN; lia).
    destruct (int32_decompose_exact connectivity s HK HKK Hs') as (D1 & D2).
    destruct (decompose_pair_of_edgepairs s connectivity)
      as [root edgepair_id] eqn:E1.
    cbn [snd] in D2.
    destruct (decompose_edgepair edgepair_id connectivity) as [e1 e2] eqn:E2.
    split; [exact D1|]. split; [exact D2|].
    unfold decompose_pair_of_edgepairs in E1. unfold decompose_edgepair in E2.
    fold K in E1, E2. injection E1 as <- <-. injection E2 as <- <-.
    assert (HKK' : 0 < K * K) by (apply Z.mul_pos_pos; lia).
    destruct (quot_rem_nonneg s (K * K) (proj1 Hs) HKK') as (E & R & Q).
    destruct (quot_rem_nonneg (Z.rem s (K * K)) K (proj1 R) HK) as (E2 & R2 & Q2).
    pose proof (quot_upper (Z.rem s (K * K)) K K R HK) as U.
    repeat split; lia.
Qed.

Lemma edgepair_index_roundtrip_witness :
  Int32.decompose_pair_of_edgepairs (7 * (4 * 4) + 4 * 2 + 3) Examples.moves
  = Some (7, 4 * 2 + 3) /\
  Int32.decompose_edgepair (4 * 2 + 3) Examples.moves = Some (2, 3) /\
  decompose_pair_of_edgepairs (7 * (4 * 4) + 4 * 2 + 3) Examples.moves
  = (7, 4 * 2 + 3) /\
  decompose_edgepair (4 * 2 + 3) Examples.moves = (2, 3).
Proof.
  assert (HK : 0 < mat_M Examples.moves) by reflexivity.
  assert (HKK : mat_M Examples.moves * mat_M Examples.moves <= INT_MAX)
    by (vm_compute; discriminate).
  apply (proj1 (edgepair_index_roundtrip Examples.moves HK HKK) 7 2 3);
    cbn [Examples.moves mat_M]; unfold INT_MAX; lia.
Defined.

(** ** Start and end sets *)


Lemma set_member_decodes (first : bool) (g : Grid)
    (mesh_map connectivity : matrix Z) (s : Z) :
  In s (pick first (start_end_sets g mesh_map connectivity)) ->
  0 <= s < num_edges mesh_map connectivity /\
  0 < mat_M connectivity /\
  0 <= state_root connectivity s < mat_numel mesh_map /\
  validind_point g (pt1 g connectivity s) = true /\
  validind_point g (pt2 g connectivity s) = true /\
  point_eqb (pt0 g connectivity s) (pt2 g connectivity s) = false /\
  (if first
   then label_at mesh_map (pt0 g connectivity s) = 2
   else label_at mesh_map (pt2 g connectivity s) = 3).
Proof.
  intros Hin. apply start_end_sets_members in Hin.
  destruct Hin as (root & Hroot & e1 & He1 & e2 & He2 & (V1 & B & V2) & L & ->).
  destruct (decode_index connectivity root e1 e2 (proj1 Hroot) He1 He2)
    as (D0 & D1 & D2).
  unfold pt2, pt1, pt0. rewrite D0, D1, D2.
  repeat split; try assumption; try lia.
  - unfold edgepair_index.
    assert (0 <= root * (mat_M connectivity * mat_M connectivity))
      by (apply Z.mul_nonneg_nonneg; [lia | apply Z.mul_nonneg_nonneg; lia]).
    assert (0 <= mat_M connectivity * e1) by (apply Z.mul_nonneg_nonneg; lia).
    lia.
  - unfold num_edges, edgepair_index.
    set (K := mat_M connectivity) in *.
    pose proof (lin2_bounds K K _ _ He2 He1) as Bd.
    assert ((root + 1) * (K * K) <= mat_numel mesh_map * (K * K))
      by (apply Z.mul_le_mono_nonneg_r; lia).
    lia.
Qed.

(** X6.  On a query whose mesh map has the sizes of the grid and whose
    number of states, the super-state and the count handed to the search
    included, is at most [INT_MAX], the sets and the number of the
    super-state computed on 32-bit [int] are those computed in [Z], and
    every member of the start set and of the end set is the index of a
    state in
    [0, num_edges), so the super-state is in neither set; decoded with
    [points_in_a_edgepair] and [make_point] it gives a root inside the mesh
    map and two further voxels in bounds, the third other than the first; the
    first voxel of a start state is labelled 2 and the third voxel of an end
    state is labelled 3. *)
Theorem set_members_are_states (g : Grid) (mesh_map connectivity : matrix Z)
    (s : Z) :
  int_sized mesh_map connectivity = true ->
  mat_numel mesh_map = numel g ->
  0 <= gridM g -> 0 <= gridN g ->
  let sets := start_end_sets g mesh_map connectivity in
  In s (fst sets) \/ In s (snd sets) ->
  let '(q1, q2, q3) := points_in_a_edgepair g s connectivity in
  start_end_sets_int32 g mesh_map connectivity = Some sets /\
  Int32.num_edges mesh_map connectivity = num_edges mesh_map connectivity /\
  0 <= s < num_edges mesh_map connectivity /\
  s <> num_edges mesh_map connectivity /\
  0 <= q1 < mat_numel mesh_map /\
  validind_point g (make_point g q2) = true /\
  validind_point g (make_point g q3) = true /\
  make_point g q3 <> make_point g q1 /\
  (In s (fst sets) -> label_at mesh_map (make_point g q1) = 2) /\
  (In s (snd sets) -> label_at mesh_map (make_point g q3) = 3).
Proof.
  intros Hsized Hsize HM HN sets Hin. rewrite points_in_a_edgepair_eq.
  split; [apply start_end_sets_on_int; assumption|].
  split; [exact (proj1 (int32_num_edges_exact mesh_map connectivity Hsized))|].
  assert (Hcommon :
            0 <= s < num_edges mesh_map connectivity /\
            0 <= state_root connectivity s < mat_numel mesh_map /\
            validind_point g (pt1 g connectivity s) = true /\
            validind_point g (pt2 g connectivity s) = true /\
            point_eqb (pt0 g connectivity s) (pt2 g connectivity s) = false).
  { destruct Hin as [H | H].
    - destruct (set_member_decodes true g mesh_map connectivity s H)
        as (A & _ & B & C & D & E & _). auto.
    - destruct (set_member_decodes false g mesh_map connectivity s H)
        as (A & _ & B & C & D & E & _). auto. }
  destruct Hcommon as (A & B & V1 & V2 & Hne).
  rewrite (make_point_sub2ind g _ V1), (make_point_sub2ind g _ V2).
  fold (pt0 g connectivity s).
  repeat split; try assumption; try lia.
  - intros Heq. rewrite Heq in Hne.
    assert (T : point_eqb (pt0 g connectivity s) (pt0 g connectivity s) = true)
      by (apply point_eqb_eq; reflexivity).
    congruence.
  - intros H.
    destruct (set_member_decodes true g mesh_map connectivity s H)
      as (_ & _ & _ & _ & _ & _ & L). exact L.
  - intros H.
    destruct (set_member_decodes false g mesh_map connectivity s H)
      as (_ & _ & _ & _ & _ & _ & L). exact L.
Qed.

Lemma set_members_are_states_witness :
  let '(q1, q2, q3) := points_in_a_edgepair Examples.grid 32 Examples.moves in
  start_end_sets_int32 Examples.grid Examples.open_map Examples.moves
  = Some (start_end_sets Examples.grid Examples.open_map Examples.moves) /\
  Int32.num_edges Examples.open_map Examples.moves
  = num_edges Examples.open_map Examples.moves /\
  0 <= 32 < num_edges Examples.open_map Examples.moves /\
  32 <> num_edges Examples.open_map Examples.moves /\
  0 <= q1 < mat_numel Examples.open_map /\
  validind_point Examples.grid (make_point Examples.grid q2) = true /\
  validind_point Examples.grid (make_point Examples.grid q3) = true /\
  make_point Examples.grid q3 <> make_point Examples.grid q1 /\
  (In 32 (fst (start_end_sets Examples.grid Examples.open_map Examples.moves))
   -> label_at Examples.open_map (make_point Examples.grid q1) = 2) /\
  (In 32 (snd (start_end_sets Examples.grid Examples.open_map Examples.moves))
   -> label_at Examples.open_map (make_point Examples.grid q3) = 3).
Proof.
  apply (set_members_are_states Examples.grid Examples.open_map
           Examples.moves 32).
  - vm_compute. reflexivity.
  - reflexivity.
  - vm_compute. discriminate.
  - vm_compute. discriminate.
  - right. vm_compute. left. reflexivity.
Defined.

(** X7.  The edge-pair routine reads the mesh map only to compare labels
    with 2 and with 3: two maps of the same sizes whose voxels agree on being
    a start voxel and on being an end voxel give the same outcome, whatever
    voxels either of them disallows. *)
Theorem only_start_and_end_labels_are_read
    (fl32 : float -> float)
    (length_cost_functor : list float -> float -> Segment)
    (curvature_cost_functor : list float -> float -> float -> Triple)
    (torsion_cost_functor : list float -> float -> float -> Quadruple)
    (shortest_path : ShortestPath) (g : Grid)
    (mesh_map mesh_map' : matrix Z) (data_term : Segment)
    (connectivity : matrix Z) (settings : InstanceSettings)
    (voxeldimensions : list float) (options : ShortestPathOptions) :
  mat_M mesh_map = mat_M mesh_map' ->
  mat_N mesh_map = mat_N mesh_map' ->
  mat_O mesh_map = mat_O mesh_map' ->
  map (fun v => (v =? 2, v =? 3)) (mat_data mesh_map)
  = map (fun v => (v =? 2, v =? 3)) (mat_data mesh_map') ->
  edgepair_segmentation fl32 length_cost_functor curvature_cost_functor
    torsion_cost_functor shortest_path g mesh_map data_term connectivity
    settings voxeldimensions options
  = edgepair_segmentation fl32 length_cost_functor curvature_cost_functor
      torsion_cost_functor shortest_path g mesh_map' data_term connectivity
      settings voxeldimensions options.
Proof.
  intros HM HN HO Hdata.
  apply disallowed_label_not_read.
  - unfold mat_numel. rewrite HM, HN, HO. reflexivity.
  - intros x y z. unfold label, mat_get. rewrite HM, HN.
    destruct (_ <? 0); [split; reflexivity|].
    set (k := Z.to_nat _).
    pose proof (map_nth (fun v => (v =? 2, v =? 3)) (mat_data mesh_map) 0 k)
      as E.
    pose proof (map_nth (fun v => (v =? 2, v =? 3)) (mat_data mesh_map') 0 k)
      as E'.
    rewrite Hdata, E' in E. injection E as E2 E3.
    split; symmetry; assumption.
Qed.

Lemma only_start_and_end_labels_are_read_witness :
  Examples.segmentation Examples.grid Examples.walled_map Examples.moves
  = Examples.segmentation Examples.grid Examples.open_map Examples.moves.
Proof.
  apply (only_start_and_end_labels_are_read Examples.no_rounding
           Examples.per_move Examples.no_curvature Examples.no_torsion
           shortest_path_model Examples.grid Examples.walled_map
           Examples.open_map (Examples.zero_data [] 0 0 0 []) Examples.moves
           Examples.settings [] Examples.options); reflexivity.
Defined.

(** ** The neighbour callback *)

Lemma fold_left_appends {A B : Type} (body : list A -> B -> list A)
    (l : list B) :
  (forall acc b, body acc b = acc ++ body [] b) ->
  forall acc, fold_left body l acc = acc ++ fold_left body l [].
Proof.
  intros Hbody. induction l as [|b l IH]; intros acc; cbn [fold_left].
  - rewrite app_nil_r. reflexivity.
  - rewrite (IH (body acc b)), (IH (body [] b)), Hbody, app_assoc.
    reflexivity.
Qed.

(** X8.  The callback only appends to the vector it is given: for every
    state, super-state or not, and whatever the vector holds, the vector
    comes back with its entries kept in place, followed by what the callback
    pushes on an empty vector. *)
Theorem callback_only_appends
    (fl32 : float -> float) (g : Grid) (data_term : Segment) (e_super : Z)
    (connectivity : matrix Z) (start_set_pairs : list Z)
    (length_cost : Segment) (curvature_cost : Triple) (torsion_cost : Quadruple)
    (ep : Z) (neighbors : list Neighbor) :
  get_neighbors_torsion fl32 g data_term e_super connectivity start_set_pairs
    length_cost curvature_cost torsion_cost ep neighbors
  = neighbors ++
    get_neighbors_torsion fl32 g data_term e_super connectivity start_set_pairs
      length_cost curvature_cost torsion_cost ep [].
Proof.
  destruct (Z.eq_dec ep e_super) as [E | Hne].
  - unfold get_neighbors_torsion. rewrite E, Z.eqb_refl.
    apply fold_left_appends. intros acc itr.
    destruct (points_in_a_edgepair g itr connectivity) as [[q1 q2] q3].
    destruct (ind2sub g q1) as [[x2 y2] z2].
    destruct (ind2sub g q2) as [[x3 y3] z3].
    destruct (ind2sub g q3) as [[x4 y4] z4].
    reflexivity.
  - rewrite (usual_expansion_eq fl32 g data_term e_super connectivity
               start_set_pairs length_cost curvature_cost torsion_cost ep
               neighbors Hne).
    rewrite (usual_expansion_eq fl32 g data_term e_super connectivity
               start_set_pairs length_cost curvature_cost torsion_cost ep
               [] Hne).
    reflexivity.
Qed.

Lemma NoDup_zseq (n : Z) : NoDup (zseq n).
Proof.
  unfold zseq. generalize (seq_NoDup (Z.to_nat n) 0).
  generalize (seq 0 (Z.to_nat n)). intros l.
  induction 1 as [|a l Ha Hl IH]; cbn [map]; constructor.
  - intros Hin. apply in_map_iff in Hin. destruct Hin as (b & E & Hb).
    apply Nat2Z.inj in E. subst b. contradiction.
  - exact IH.
Qed.

Lemma NoDup_map_injective {A B : Type} (f : A -> B) (l : list A) :
  (forall a b, In a l -> In b l -> f a = f b -> a = b) ->
  NoDup l -> NoDup (map f l).
Proof.
  intros Hinj. induction 1 as [|a l Ha Hl IH]; cbn [map]; constructor.
  - intros Hin. apply in_map_iff in Hin. destruct Hin as (b & E & Hb).
    assert (b = a) by (apply Hinj; [right; exact Hb | left; reflexivity | exact E]).
    subst b. contradiction.
  - apply IH. intros x y Hx Hy. apply Hinj; right; assumption.
Qed.

(** X9.  An expansion never pushes the same destination twice.  For a state
    other than the super-state it pushes at most K neighbours, K the number
    of offsets of the template; for the super-state it pushes the members of
    the start set, in increasing order. *)
Theorem callback_destinations_distinct
    (fl32 : float -> float) (g : Grid) (data_term : Segment)
    (mesh_map connectivity : matrix Z)
    (length_cost : Segment) (curvature_cost : Triple) (torsion_cost : Quadruple)
    (ep : Z) :
  let e_super := num_edges mesh_map connectivity in
  let start_set_pairs := fst (start_end_sets g mesh_map connectivity) in
  let pushed :=
    get_neighbors_torsion fl32 g data_term e_super connectivity
      start_set_pairs length_cost curvature_cost torsion_cost ep [] in
  NoDup (map neighbor_dest pushed) /\
  (ep = e_super ->
   map neighbor_dest pushed = start_set_pairs /\ increasing start_set_pairs) /\
  (ep <> e_super ->
   (List.length pushed <= Z.to_nat (mat_M connectivity))%nat).
Proof.
  intros e_super start_set_pairs pushed.
  assert (Hsuper : ep = e_super ->
                   map neighbor_dest pushed = start_set_pairs).
  { intros ->. unfold pushed, start_set_pairs.
    rewrite super_expansion_eq. cbn [app]. rewrite map_map. cbn [neighbor_dest].
    apply map_id. }
  destruct (Z.eq_dec ep e_super) as [E | Hne].
  - split; [|split].
    + rewrite (Hsuper E). apply increasing_NoDup.
      apply start_end_sets_increasing.
    + intros _. split; [exact (Hsuper E) | apply start_end_sets_increasing].
    + intros Hne. contradiction.
  - assert (Epushed := usual_expansion_eq fl32 g data_term e_super connectivity
                         start_set_pairs length_cost curvature_cost
                         torsion_cost ep [] Hne).
    fold pushed in Epushed. cbv zeta in Epushed. cbn [app] in Epushed.
    split; [|split].
    + rewrite Epushed, map_map. cbn [neighbor_dest].
      apply NoDup_map_injective.
      * intros a b _ _ Hab. unfold edgepair_index in Hab. lia.
      * apply NoDup_filter. apply NoDup_zseq.
    + intros E. contradiction.
    + intros _. rewrite Epushed, length_map.
      etransitivity; [apply filter_length_le|].
      rewrite length_zseq. apply Nat.le_refl.
Qed.

(** X10.  On a query whose mesh map has the sizes of the grid and whose
    number of states, the super-state and the count handed to the search
    included, is at most [INT_MAX], so that these two numbers are computed in
    [int] without wrap-around and the callback computed on 32-bit [int]
    pushes what the callback computed in [Z] pushes: every state pushed when
    the super-state or a state with its voxels in the grid is expanded is
    again a state with its
    voxels in the grid, of index in [0, num_edges): the callback never pushes
    the super-state and never an index outside the state space handed to the
    search. *)
Theorem pushed_states_in_range
    (fl32 : float -> float) (g : Grid) (data_term : Segment)
    (mesh_map connectivity : matrix Z)
    (length_cost : Segment) (curvature_cost : Triple) (torsion_cost : Quadruple)
    (ep t : Z) :
  int_sized mesh_map connectivity = true ->
  mat_numel mesh_map = numel g ->
  ep = num_edges mesh_map connectivity \/ feasible g connectivity ep = true ->
  successor_of
    (get_neighbors_torsion fl32 g data_term (num_edges mesh_map connectivity)
       connectivity (fst (start_end_sets g mesh_map connectivity))
       length_cost curvature_cost torsion_cost) ep t = true ->
  Int32.num_edges mesh_map connectivity = num_edges mesh_map connectivity /\
  Int32.add (Int32.num_edges mesh_map connectivity) 1
  = num_edges mesh_map connectivity + 1 /\
  get_neighbors_torsion_int32 fl32 g data_term
    (num_edges mesh_map connectivity) connectivity
    (fst (start_end_sets g mesh_map connectivity))
    length_cost curvature_cost torsion_cost ep []
  = Some (get_neighbors_torsion fl32 g data_term
            (num_edges mesh_map connectivity) connectivity
            (fst (start_end_sets g mesh_map connectivity))
            length_cost curvature_cost torsion_cost ep []) /\
  0 <= t < num_edges mesh_map connectivity /\
  feasible g connectivity t = true.
Proof.
  intros Hsized Hsize Hep Hst.
  destruct (int32_num_edges_exact mesh_map connectivity Hsized)
    as (En & En1 & _).
  split; [exact En|]. split; [exact En1|].
  split.
  { destruct Hep as [-> | F];
      [apply super_case_on_int | apply usual_case_on_int]; assumption. }
  assert (Ft : feasible g connectivity t = true).
  { destruct Hep as [-> | F].
    - apply (start_set_feasible g mesh_map connectivity); [|exact Hsize].
      exact (super_successor fl32 g data_term mesh_map connectivity
               length_cost curvature_cost torsion_cost t Hst).
    - destruct (chain_step fl32 g data_term mesh_map connectivity length_cost
                  curvature_cost torsion_cost Hsize ep t F Hst)
        as (_ & _ & _ & _ & Ft). exact Ft. }
  split; [|exact Ft].
  apply (feasible_below_super g); assumption.
Qed.

Lemma pushed_states_in_range_witness :
  Int32.num_edges Examples.open_map Examples.moves
  = num_edges Examples.open_map Examples.moves /\
  Int32.add (Int32.num_edges Examples.open_map Examples.moves) 1
  = num_edges Examples.open_map Examples.moves + 1 /\
  get_neighbors_torsion_int32 Examples.no_rounding Examples.grid
    (Examples.zero_data [] 0 0 0 [])
    (num_edges Examples.open_map Examples.moves) Examples.moves
    (fst (start_end_sets Examples.grid Examples.open_map Examples.moves))
    (Examples.per_move [] 1%float) (Examples.no_curvature [] 0%float 2%float)
    (Examples.no_torsion [] 1%float 2%float) 16 []
  = Some (get_neighbors_torsion Examples.no_rounding Examples.grid
            (Examples.zero_data [] 0 0 0 [])
            (num_edges Examples.open_map Examples.moves) Examples.moves
            (fst (start_end_sets Examples.grid Examples.open_map
                    Examples.moves))
            (Examples.per_move [] 1%float)
            (Examples.no_curvature [] 0%float 2%float)
            (Examples.no_torsion [] 1%float 2%float) 16 []) /\
  0 <= 34 < num_edges Examples.open_map Examples.moves /\
  feasible Examples.grid Examples.moves 34 = true.
Proof.
  apply (pushed_states_in_range Examples.no_rounding Examples.grid
           (Examples.zero_data [] 0 0 0 []) Examples.open_map Examples.moves
           (Examples.per_move [] 1%float)
           (Examples.no_curvature [] 0%float 2%float)
           (Examples.no_torsion [] 1%float 2%float) 16 34).
  - vm_compute. reflexivity.
  - reflexivity.
  - right. reflexivity.
  - vm_compute. reflexivity.
Defined.

(** ** Decoded paths *)

Lemma pairpath_to_points_eq (g : Grid) (connectivity : matrix Z) (path : list Z) :
  pairpath_to_points g path connectivity
  = match path with
    | [] => []
    | s :: _ =>
        [make_point g (state_root connectivity s);
         make_point g (sub2ind_point g (pt1 g connectivity s))]
    end
    ++ map (fun s => make_point g (sub2ind_point g (pt2 g connectivity s))) path.
Proof.
  unfold pairpath_to_points.
  rewrite (fold_left_push_in _
             (fun s => make_point g (sub2ind_point g (pt2 g connectivity s)))).
  - destruct path as [|s rest]; [reflexivity|].
    rewrite points_in_a_edgepair_eq. reflexivity.
  - intros s acc _. rewrite points_in_a_edgepair_eq. reflexivity.
Qed.

(** X11.  Decoding an empty path gives no point; decoding a path of n >= 1
    states, whatever the states are, gives n + 2 points. *)
Theorem pairpath_to_points_length (g : Grid) (connectivity : matrix Z)
    (path : list Z) :
  List.length (pairpath_to_points g path connectivity)
  = match path with
    | [] => 0%nat
    | _ :: _ => (List.length path + 2)%nat
    end.
Proof.
  rewrite pairpath_to_points_eq.
  destruct path as [|s rest]; [reflexivity|].
  rewrite length_app, length_map. cbn [List.length]. lia.
Qed.

Section DecodedPaths.

Variable fl32 : float -> float.
Variable g : Grid.
Variable data_term : Segment.
Variables mesh_map connectivity : matrix Z.
Variable length_cost : Segment.
Variable curvature_cost : Triple.
Variable torsion_cost : Quadruple.
Hypothesis same_size : mat_numel mesh_map = numel g.

Lemma chain_no_back_move (rest : list Z) :
  forall s,
    feasible g connectivity s = true ->
    is_state_chain
      (get_neighbors_torsion fl32 g data_term (num_edges mesh_map connectivity)
         connectivity (fst (start_end_sets g mesh_map connectivity))
         length_cost curvature_cost torsion_cost) (s :: rest) = true ->
    no_back_move (pt1 g connectivity s :: map (pt2 g connectivity) (s :: rest))
    = true.
Proof.
  induction rest as [|t rest IH]; intros s F Hchain.
  - reflexivity.
  - cbn [is_state_chain] in Hchain. apply andb_true_iff in Hchain.
    destruct Hchain as [Hst Hrest].
    destruct (usual_successor fl32 g data_term mesh_map connectivity
                length_cost curvature_cost torsion_cost same_size s t F Hst)
      as (e3 & He3 & V3 & Hne & Et).
    destruct (successor_state g connectivity s e3 F He3 V3)
      as (_ & _ & _ & _ & P1 & P2 & Ft).
    rewrite <- Et in P1, P2, Ft.
    specialize (IH t Ft Hrest). rewrite P1 in IH.
    change (map (pt2 g connectivity) (s :: t :: rest))
      with (pt2 g connectivity s :: map (pt2 g connectivity) (t :: rest)).
    cbn [no_back_move] in IH |- *. cbn [map] in IH |- *.
    rewrite IH.
    destruct (point_eqb (pt1 g connectivity s) (pt2 g connectivity t)) eqn:B;
      [|reflexivity].
    apply point_eqb_eq in B. exfalso. apply Hne. rewrite <- P2. symmetry.
    exact B.
Qed.

End DecodedPaths.

(** X12.  On a query whose mesh map has the sizes of the grid and whose
    number of states, the super-state and the count handed to the search
    included, is at most [INT_MAX], the points decoded from a chain of states
    that leaves the super-state never go back at once: no point of the
    decoded path is the point two places before it.  The number of the
    super-state is computed in [int] without wrap-around, the states of the
    chain lie below it, and on each of them the callback computed on 32-bit
    [int] pushes what the callback computed in [Z] pushes. *)
Theorem decoded_path_never_turns_back
    (fl32 : float -> float) (g : Grid) (data_term : Segment)
    (mesh_map connectivity : matrix Z)
    (length_cost : Segment) (curvature_cost : Triple) (torsion_cost : Quadruple)
    (states : list Z) :
  int_sized mesh_map connectivity = true ->
  mat_numel mesh_map = numel g ->
  is_state_chain
    (get_neighbors_torsion fl32 g data_term (num_edges mesh_map connectivity)
       connectivity (fst (start_end_sets g mesh_map connectivity))
       length_cost curvature_cost torsion_cost)
    (num_edges mesh_map connectivity :: states) = true ->
  no_back_move (pairpath_to_points g states connectivity) = true /\
  Int32.num_edges mesh_map connectivity = num_edges mesh_map connectivity /\
  Forall
    (fun t =>
       0 <= t < num_edges mesh_map connectivity /\
       get_neighbors_torsion_int32 fl32 g data_term
         (num_edges mesh_map connectivity) connectivity
         (fst (start_end_sets g mesh_map connectivity))
         length_cost curvature_cost torsion_cost t []
       = Some (get_neighbors_torsion fl32 g data_term
                 (num_edges mesh_map connectivity) connectivity
                 (fst (start_end_sets g mesh_map connectivity))
                 length_cost curvature_cost torsion_cost t []))
    states.
Proof.
  intros Hsized Hsize Hchain.
  pose proof (proj1 (int32_num_edges_exact mesh_map connectivity Hsized))
    as En.
  destruct states as [|s rest];
    [split; [reflexivity | split; [exact En | constructor]]|].
  cbn [is_state_chain] in Hchain. apply andb_true_iff in Hchain.
  destruct Hchain as [Hfirst Hrest].
  pose proof (super_successor fl32 g data_term mesh_map connectivity
                length_cost curvature_cost torsion_cost s Hfirst) as Hin.
  pose proof (start_set_feasible g mesh_map connectivity s Hin Hsize) as F.
  destruct (decoded_chain fl32 g data_term mesh_map connectivity
              length_cost curvature_cost torsion_cost s rest Hsize F Hrest)
    as (Hall & -> & _ & _).
  split;
    [|split; [exact En|];
      apply Forall_forall; intros t Ht; rewrite Forall_forall in Hall;
      split;
      [ apply (feasible_below_super g); [exact Hsize | apply Hall; exact Ht]
      | apply usual_case_on_int; try assumption; apply Hall; exact Ht ]].
  pose proof (chain_no_back_move fl32 g data_term mesh_map connectivity
                length_cost curvature_cost torsion_cost Hsize rest s F Hrest)
    as Hback.
  destruct (set_member_decodes true g mesh_map connectivity s Hin)
    as (_ & _ & _ & _ & _ & Hne & _).
  cbn [map] in Hback |- *.
  change (no_back_move
            (pt0 g connectivity s :: pt1 g connectivity s
               :: pt2 g connectivity s :: map (pt2 g connectivity) rest))
    with (negb (point_eqb (pt0 g connectivity s) (pt2 g connectivity s))
          && no_back_move
               (pt1 g connectivity s :: pt2 g connectivity s
                  :: map (pt2 g connectivity) rest)).
  rewrite Hne, Hback. reflexivity.
Qed.

Lemma decoded_path_never_turns_back_witness :
  no_back_move (pairpath_to_points Examples.grid [0; 16; 32] Examples.moves)
  = true /\
  Int32.num_edges Examples.open_map Examples.moves
  = num_edges Examples.open_map Examples.moves /\
  Forall
    (fun t =>
       0 <= t < num_edges Examples.open_map Examples.moves /\
       get_neighbors_torsion_int32 Examples.no_rounding Examples.grid
         (Examples.zero_data [] 0 0 0 [])
         (num_edges Examples.open_map Examples.moves) Examples.moves
         (fst (start_end_sets Examples.grid Examples.open_map Examples.moves))
         (Examples.per_move [] 1%float)
         (Examples.no_curvature [] 0%float 2%float)
         (Examples.no_torsion [] 1%float 2%float) t []
       = Some (get_neighbors_torsion Examples.no_rounding Examples.grid
                 (Examples.zero_data [] 0 0 0 [])
                 (num_edges Examples.open_map Examples.moves) Examples.moves
                 (fst (start_end_sets Examples.grid Examples.open_map
                         Examples.moves))
                 (Examples.per_move [] 1%float)
                 (Examples.no_curvature [] 0%float 2%float)
                 (Examples.no_torsion [] 1%float 2%float) t []))
    [0; 16; 32].
Proof.
  apply (decoded_path_never_turns_back Examples.no_rounding Examples.grid
           (Examples.zero_data [] 0 0 0 []) Examples.open_map Examples.moves
           (Examples.per_move [] 1%float)
           (Examples.no_curvature [] 0%float 2%float)
           (Examples.no_torsion [] 1%float 2%float) [0; 16; 32]).
  - vm_compute. reflexivity.
  - reflexivity.
  - vm_compute. reflexivity.
Defined.

(** ** Outcome of an edge-pair query *)

Lemma last_map_cons {A B : Type} (f : A -> B) (l : list A) :
  forall a d d', last (map f (a :: l)) d = f (last (a :: l) d').
Proof.
  induction l as [|b l IH]; intros a d d'; [reflexivity|].
  change (last (map f (a :: b :: l)) d) with (last (map f (b :: l)) d).
  change (last (a :: b :: l) d') with (last (b :: l) d').
  apply IH.
Qed.

Lemma label_in_data (mesh_map : matrix Z) (x y z : Z) :
  label mesh_map x y z <> 0 ->
  In (label mesh_map x y z) (mat_data mesh_map).
Proof.
  unfold label, mat_get.
  destruct (_ <? 0); [intros H; exfalso; apply H; reflexivity|].
  intros H.
  destruct (nth_in_or_default
              (Z.to_nat (x + y * mat_M mesh_map
                         + z * mat_M mesh_map * mat_N mesh_map))
              (mat_data mesh_map) 0) as [Hin | E].
  - exact Hin.
  - exfalso. apply H. exact E.
Qed.

Section QueryOutcome.

Variable fl32 : float -> float.
Variable length_cost_functor : list float -> float -> Segment.
Variable curvature_cost_functor : list float -> float -> float -> Triple.
Variable torsion_cost_functor : list float -> float -> float -> Quadruple.
Variable shortest_path : ShortestPath.
Variable g : Grid.
Variable mesh_map : matrix Z.
Variable data_term : Segment.
Variable connectivity : matrix Z.
Variable settings : InstanceSettings.
Variable voxeldimensions : list float.
Variable options : ShortestPathOptions.

(** What the routine returns, read off lines 269-283: nothing but the search
    decides between an error of the search, "no solution" and a path. *)
Lemma edgepair_segmentation_by_search :
  edgepair_segmentation fl32 length_cost_functor curvature_cost_functor
    torsion_cost_functor shortest_path g mesh_map data_term connectivity
    settings voxeldimensions options
  = match edgepair_search fl32 length_cost_functor curvature_cost_functor
            torsion_cost_functor shortest_path g mesh_map data_term
            connectivity settings voxeldimensions options with
    | Err e => Err e
    | Ok out =>
        match search_path out with
        | [] => Err NoSolution
        | _ :: states =>
            Ok (mkSegmentation (pairpath_to_points g states connectivity)
                  (search_calls out) (search_cost out))
        end
    end.
Proof.
  unfold edgepair_segmentation, edgepair_search, edgepair_callback.
  destruct (start_end_sets g mesh_map connectivity)
    as [start_set_pairs end_set_pairs] eqn:Esets.
  cbn [fst snd set_insert].
  unfold num_edges.
  destruct (shortest_path _ _ _ _ _) as [out | e]; cbn [bind];
    [|reflexivity].
  destruct (search_path out) as [|s0 path]; [reflexivity|].
  replace (Z.of_nat (List.length (s0 :: path)) =? 0) with false
    by (symmetry; apply Z.eqb_neq; cbn [List.length]; lia).
  reflexivity.
Qed.

(** The shape of a path that meets the contract of the search. *)
Lemma contract_path_shape (path : list Z) :
  search_contract [num_edges mesh_map connectivity]
    (snd (start_end_sets g mesh_map connectivity))
    (edgepair_callback fl32 length_cost_functor curvature_cost_functor
       torsion_cost_functor g mesh_map data_term connectivity settings
       voxeldimensions)
    path = true ->
  path = [] \/
  exists s1 rest,
    path = num_edges mesh_map connectivity :: s1 :: rest /\
    In s1 (fst (start_end_sets g mesh_map connectivity)) /\
    In (last (s1 :: rest) s1) (snd (start_end_sets g mesh_map connectivity)) /\
    is_state_chain
      (edgepair_callback fl32 length_cost_functor curvature_cost_functor
         torsion_cost_functor g mesh_map data_term connectivity settings
         voxeldimensions)
      (s1 :: rest) = true.
Proof.
  intros Hcontract.
  destruct path as [|s0 path]; [left; reflexivity | right].
  unfold search_contract in Hcontract.
  apply andb_true_iff in Hcontract. destruct Hcontract as [Hcontract Hgoal].
  apply andb_true_iff in Hcontract. destruct Hcontract as [Hstart Hchain].
  apply memb_In in Hstart. destruct Hstart as [<- | []].
  apply memb_In in Hgoal.
  destruct path as [|s1 rest].
  { cbn [last] in Hgoal.
    pose proof (end_set_below_super g mesh_map connectivity _ Hgoal). lia. }
  exists s1, rest. split; [reflexivity|].
  cbn [is_state_chain] in Hchain. apply andb_true_iff in Hchain.
  destruct Hchain as [Hfirst Hrest].
  split; [|split; [|exact Hrest]].
  - unfold edgepair_callback in Hfirst.
    exact (super_successor fl32 g data_term mesh_map connectivity _ _ _ s1
             Hfirst).
  - change (last (num_edges mesh_map connectivity :: s1 :: rest)
              (num_edges mesh_map connectivity))
      with (last (s1 :: rest) (num_edges mesh_map connectivity)) in Hgoal.
    assert (E : forall d d' : Z, last (s1 :: rest) d = last (s1 :: rest) d').
    { clear. revert s1. induction rest as [|b l IH]; intros a d d';
        [reflexivity|].
      change (last (a :: b :: l) d) with (last (b :: l) d).
      change (last (a :: b :: l) d') with (last (b :: l) d').
      apply IH. }
    rewrite (E s1 (num_edges mesh_map connectivity)). exact Hgoal.
Qed.

End QueryOutcome.

(** X13.  On a query whose mesh map has the sizes of the grid and whose
    number of states, the super-state and the count handed to the search
    included, is at most [INT_MAX], so that these two numbers and the sets
    are computed in [int] without wrap-around: when the search returns a
    path that meets its
    contract and the query succeeds, the points returned are one more than
    the states of the search's path (the super-state included), at least
    three; the first point lies on a voxel labelled 2 and the last on a voxel
    labelled 3; the cost and the number of evaluations are those of the
    search. *)
Theorem successful_query_endpoints
    (fl32 : float -> float)
    (length_cost_functor : list float -> float -> Segment)
    (curvature_cost_functor : list float -> float -> float -> Triple)
    (torsion_cost_functor : list float -> float -> float -> Quadruple)
    (shortest_path : ShortestPath) (g : Grid)
    (mesh_map : matrix Z) (data_term : Segment)
    (connectivity : matrix Z) (settings : InstanceSettings)
    (voxeldimensions : list float) (options : ShortestPathOptions)
    (out : SearchOutput) (seg : Segmentation) :
  int_sized mesh_map connectivity = true ->
  mat_numel mesh_map = numel g ->
  edgepair_search fl32 length_cost_functor curvature_cost_functor
    torsion_cost_functor shortest_path g mesh_map data_term connectivity
    settings voxeldimensions options = Ok out ->
  search_contract [num_edges mesh_map connectivity]
    (snd (start_end_sets g mesh_map connectivity))
    (edgepair_callback fl32 length_cost_functor curvature_cost_functor
       torsion_cost_functor g mesh_map data_term connectivity settings
       voxeldimensions)
    (search_path out) = true ->
  edgepair_segmentation fl32 length_cost_functor curvature_cost_functor
    torsion_cost_functor shortest_path g mesh_map data_term connectivity
    settings voxeldimensions options = Ok seg ->
  Int32.num_edges mesh_map connectivity = num_edges mesh_map connectivity /\
  Int32.add (Int32.num_edges mesh_map connectivity) 1
  = num_edges mesh_map connectivity + 1 /\
  start_end_sets_int32 g mesh_map connectivity
  = Some (start_end_sets g mesh_map connectivity) /\
  exists first others,
    seg_points seg = first :: others /\
    label_at mesh_map first = 2 /\
    label_at mesh_map (last others first) = 3 /\
    (3 <= List.length (seg_points seg))%nat /\
    List.length (seg_points seg) = S (List.length (search_path out)) /\
    seg_evaluations seg = search_calls out /\
    seg_cost seg = search_cost out.
Proof.
  intros Hsized Hsize Hsearch Hcontract Hseg.
  destruct (int32_num_edges_exact mesh_map connectivity Hsized)
    as (En & En1 & _).
  split; [exact En|]. split; [exact En1|].
  rewrite edgepair_segmentation_by_search, Hsearch in Hseg.
  destruct (contract_path_shape _ _ _ _ _ _ _ _ _ _ _ Hcontract)
    as [Hnil | (s1 & rest & Epath & Hin & Hlast & Hchain)].
  { rewrite Hnil in Hseg. discriminate. }
  rewrite Epath in Hseg |- *. injection Hseg as <-.
  cbn [seg_points seg_evaluations seg_cost].
  pose proof (start_set_feasible g mesh_map connectivity s1 Hin Hsize) as F.
  split.
  { pose proof F as F'. apply feasible_spec in F'.
    destruct F' as (_ & _ & _ & V1 & _).
    destruct (grid_positive _ _ V1) as (HM & HN & _).
    apply start_end_sets_on_int; try assumption; lia. }
  unfold edgepair_callback in Hchain.
  destruct (decoded_chain fl32 g data_term mesh_map connectivity _ _ _
              s1 rest Hsize F Hchain) as (_ & Epts & _ & _).
  rewrite Epts.
  exists (pt0 g connectivity s1),
         (pt1 g connectivity s1 :: map (pt2 g connectivity) (s1 :: rest)).
  split; [reflexivity|].
  destruct (set_member_decodes true g mesh_map connectivity s1 Hin)
    as (_ & _ & _ & _ & _ & _ & L2).
  destruct (set_member_decodes false g mesh_map connectivity _ Hlast)
    as (_ & _ & _ & _ & _ & _ & L3).
  split; [exact L2|]. split.
  - change (last (pt1 g connectivity s1
                    :: map (pt2 g connectivity) (s1 :: rest))
              (pt0 g connectivity s1))
      with (last (map (pt2 g connectivity) (s1 :: rest))
              (pt0 g connectivity s1)).
    rewrite (last_map_cons (pt2 g connectivity) rest s1 _ s1). exact L3.
  - cbn [List.length map]. rewrite length_map.
    repeat split; lia.
Qed.

Lemma successful_query_endpoints_witness :
  Int32.num_edges Examples.open_map Examples.moves
  = num_edges Examples.open_map Examples.moves /\
  Int32.add (Int32.num_edges Examples.open_map Examples.moves) 1
  = num_edges Examples.open_map Examples.moves + 1 /\
  start_end_sets_int32 Examples.grid Examples.open_map Examples.moves
  = Some (start_end_sets Examples.grid Examples.open_map Examples.moves) /\
  exists first others,
    [mkPoint 0 0 0; mkPoint 1 0 0; mkPoint 2 0 0; mkPoint 3 0 0; mkPoint 4 0 0]
    = first :: others /\
    label_at Examples.open_map first = 2 /\
    label_at Examples.open_map (last others first) = 3 /\
    (3 <= 5)%nat /\ 5%nat = 5%nat /\ 15 = 15 /\ 4%float = 4%float.
Proof.
  apply (successful_query_endpoints Examples.no_rounding Examples.per_move
           Examples.no_curvature Examples.no_torsion shortest_path_model
           Examples.grid Examples.open_map (Examples.zero_data [] 0 0 0 [])
           Examples.moves Examples.settings [] Examples.options
           (mkSearchOutput 4%float [160; 0; 16; 32] 15)
           (mkSegmentation
              [mkPoint 0 0 0; mkPoint 1 0 0; mkPoint 2 0 0; mkPoint 3 0 0;
               mkPoint 4 0 0] 15 4%float)).
  - vm_compute. reflexivity.
  - reflexivity.
  - vm_compute. reflexivity.
  - vm_compute. reflexivity.
  - vm_compute. reflexivity.
Defined.

(** X14.  On a query whose mesh map has the sizes of the grid and whose
    number of states, the super-state and the count handed to the search
    included, is at most [INT_MAX], so that these two numbers and the sets
    are computed in [int] without wrap-around: a mesh map without a voxel
    labelled 2, or without a voxel labelled 3, has no path: whenever
    the search returns a path that meets its contract, the query ends with
    the error "no solution". *)
Theorem no_start_or_no_end_gives_no_solution
    (fl32 : float -> float)
    (length_cost_functor : list float -> float -> Segment)
    (curvature_cost_functor : list float -> float -> float -> Triple)
    (torsion_cost_functor : list float -> float -> float -> Quadruple)
    (shortest_path : ShortestPath) (g : Grid)
    (mesh_map : matrix Z) (data_term : Segment)
    (connectivity : matrix Z) (settings : InstanceSettings)
    (voxeldimensions : list float) (options : ShortestPathOptions)
    (out : SearchOutput) :
  int_sized mesh_map connectivity = true ->
  mat_numel mesh_map = numel g ->
  0 <= gridM g -> 0 <= gridN g ->
  ~ In 2 (mat_data mesh_map) \/ ~ In 3 (mat_data mesh_map) ->
  edgepair_search fl32 length_cost_functor curvature_cost_functor
    torsion_cost_functor shortest_path g mesh_map data_term connectivity
    settings voxeldimensions options = Ok out ->
  search_contract [num_edges mesh_map connectivity]
    (snd (start_end_sets g mesh_map connectivity))
    (edgepair_callback fl32 length_cost_functor curvature_cost_functor
       torsion_cost_functor g mesh_map data_term connectivity settings
       voxeldimensions)
    (search_path out) = true ->
  Int32.num_edges mesh_map connectivity = num_edges mesh_map connectivity /\
  Int32.add (Int32.num_edges mesh_map connectivity) 1
  = num_edges mesh_map connectivity + 1 /\
  start_end_sets_int32 g mesh_map connectivity
  = Some (start_end_sets g mesh_map connectivity) /\
  search_path out = [] /\
  edgepair_segmentation fl32 length_cost_functor curvature_cost_functor
    torsion_cost_functor shortest_path g mesh_map data_term connectivity
    settings voxeldimensions options = Err NoSolution.
Proof.
  intros Hsized Hsize HM HN Hlabel Hsearch Hcontract.
  destruct (int32_num_edges_exact mesh_map connectivity Hsized)
    as (En & En1 & _).
  split; [exact En|]. split; [exact En1|].
  split; [apply start_end_sets_on_int; assumption|].
  rewrite edgepair_segmentation_by_search, Hsearch.
  destruct (contract_path_shape _ _ _ _ _ _ _ _ _ _ _ Hcontract)
    as [Hnil | (s1 & rest & Epath & Hin & Hlast & Hchain)].
  { rewrite Hnil. split; reflexivity. }
  exfalso.
  destruct (set_member_decodes true g mesh_map connectivity s1 Hin)
    as (_ & _ & _ & _ & _ & _ & L2).
  destruct (set_member_decodes false g mesh_map connectivity _ Hlast)
    as (_ & _ & _ & _ & _ & _ & L3).
  unfold label_at in L2, L3.
  destruct Hlabel as [H | H]; apply H.
  - rewrite <- L2. apply label_in_data. lia.
  - rewrite <- L3. apply label_in_data. lia.
Qed.

Lemma no_start_or_no_end_gives_no_solution_witness :
  Int32.num_edges (mkMatrix 5 1 2 3 [2; 1; 1; 1; 1;   2; 1; 1; 1; 1])
    Examples.moves
  = num_edges (mkMatrix 5 1 2 3 [2; 1; 1; 1; 1;   2; 1; 1; 1; 1])
      Examples.moves /\
  Int32.add
    (Int32.num_edges (mkMatrix 5 1 2 3 [2; 1; 1; 1; 1;   2; 1; 1; 1; 1])
       Examples.moves) 1
  = num_edges (mkMatrix 5 1 2 3 [2; 1; 1; 1; 1;   2; 1; 1; 1; 1])
      Examples.moves + 1 /\
  start_end_sets_int32 Examples.grid
    (mkMatrix 5 1 2 3 [2; 1; 1; 1; 1;   2; 1; 1; 1; 1]) Examples.moves
  = Some (start_end_sets Examples.grid
            (mkMatrix 5 1 2 3 [2; 1; 1; 1; 1;   2; 1; 1; 1; 1])
            Examples.moves) /\
  search_path (mkSearchOutput infinity [] 45) = [] /\
  Examples.segmentation Examples.grid
    (mkMatrix 5 1 2 3 [2; 1; 1; 1; 1;   2; 1; 1; 1; 1]) Examples.moves
  = Err NoSolution.
Proof.
  apply (no_start_or_no_end_gives_no_solution Examples.no_rounding
           Examples.per_move Examples.no_curvature Examples.no_torsion
           shortest_path_model Examples.grid
           (mkMatrix 5 1 2 3 [2; 1; 1; 1; 1;   2; 1; 1; 1; 1])
           (Examples.zero_data [] 0 0 0 []) Examples.moves Examples.settings
           [] Examples.options (mkSearchOutput infinity [] 45)).
  - vm_compute. reflexivity.
  - reflexivity.
  - vm_compute. discriminate.
  - vm_compute. discriminate.
  - right. cbn. lia.
  - vm_compute. reflexivity.
  - reflexivity.
Defined.

(** ** The entry point of a query *)

Section EntryPoint.

Variable fl32 : float -> float.
Variable length_cost_functor : list float -> float -> Segment.
Variable curvature_cost_functor : list float -> float -> float -> Triple.
Variable torsion_cost_functor : list float -> float -> float -> Quadruple.
Variable shortest_path : ShortestPath.
Variable PieceWiseConstant : list float -> Z -> Z -> Z -> list float -> Segment.
Variable edge_segmentation : SegmentationRoutine.
Variable node_segmentation : SegmentationRoutine.
Variable Mesh_Point : float -> float -> float -> Point.
Variable sprintf : string -> list PrintfArg -> string.
Variable reading_time : float.

(** X15.  Reading a cell array of extra points prints nothing.  An absent
    cell array gives no set.  A cell array whose matrices all have two or
    three columns gives one set per matrix, in order, with one point per row
    of the matrix, the third coordinate being zero for a matrix of two
    columns; any other number of columns in any matrix ends the call with the
    message of that cell array. *)
Theorem read_point_sets_outcome (message : string)
    (sets_cell : option (list (matrix float))) (log : list string) :
  snd (read_point_sets Mesh_Point message sets_cell log) = log /\
  match sets_cell with
  | None => fst (read_point_sets Mesh_Point message sets_cell log) = Ok []
  | Some elements =>
      if forallb (fun m => (mat_N m =? 3) || (mat_N m =? 2)) elements
      then
        exists sets,
          fst (read_point_sets Mesh_Point message sets_cell log) = Ok sets /\
          List.length sets = List.length elements /\
          forall i m,
            nth_error elements i = Some m ->
            nth_error sets i
            = Some (map (fun j =>
                           Mesh_Point (mat_get 0%float m j 0 0)
                             (mat_get 0%float m j 1 0)
                             (if mat_N m =? 3
                              then mat_get 0%float m j 2 0
                              else 0%float))
                        (zseq (mat_M m))) /\
            List.length (zseq (mat_M m)) = Z.to_nat (mat_M m)
      else
        fst (read_point_sets Mesh_Point message sets_cell log)
        = Err (MexError message)
  end.
Proof.
  destruct sets_cell as [elements|]; [|split; reflexivity].
  unfold read_point_sets.
  rewrite (read_point_sets_fold Mesh_Point message elements log (mex_ret [])
             (Ok []))
    by reflexivity.
  destruct (forallb _ elements); [|split; reflexivity].
  split; [reflexivity|].
  eexists. split; [reflexivity|].
  cbn [app]. split; [apply length_map|].
  intros i m Hm. split.
  - rewrite nth_error_map, Hm. reflexivity.
  - apply length_zseq.
Qed.

(** X16.  A query that fails a check stops there: the error of the check is
    the error of the call, nothing is printed, and neither the extra point
    sets nor the settings are looked at. *)
Theorem failed_check_ends_the_call (a : MexArguments) (log : list string)
    (e : error) :
  fst (check_arguments a log) = Err e ->
  mexFunction fl32 length_cost_functor curvature_cost_functor
    torsion_cost_functor shortest_path PieceWiseConstant edge_segmentation
    node_segmentation Mesh_Point sprintf reading_time a log
  = (Err e, log) /\
  exists text, e = AssertionFailed text \/ e = MexError text.
Proof.
  intros Hcheck. split.
  - pose proof (check_arguments_log a log) as Hlog.
    unfold mexFunction, mex_bind.
    destruct (check_arguments a log) as [r log'].
    cbn [fst snd] in Hcheck, Hlog. subst r log'. reflexivity.
  - revert Hcheck.
    unfold check_arguments, mex_bind, mex_when, mex_assert, mex_lift, ASSERT,
      mexErrMsgTxt, mex_ret.
    repeat match goal with
           | |- context [if ?c then _ else _] =>
               destruct c; cbn [fst];
               try (intros H; injection H as <-; eexists; eauto; fail)
           end.
    intros H; discriminate H.
Qed.

(** With [VERBOSE] off the part of the call after the checks prints
    nothing. *)
Lemma run_query_quiet (a : MexArguments) (g : Grid)
    (voxeldimensions : list float) (settings : InstanceSettings)
    (log : list string) :
  arg_VERBOSE a = false ->
  snd (run_query fl32 length_cost_functor curvature_cost_functor
         torsion_cost_functor shortest_path PieceWiseConstant
         edge_segmentation node_segmentation Mesh_Point sprintf reading_time
         a g voxeldimensions settings log) = log.
Proof.
  intros Hquiet. unfold run_query, mex_bind. rewrite Hquiet.
  unfold mex_when, mex_ret.
  destruct (read_point_sets_cases Mesh_Point "Error in defined start sets."
              (arg_start_sets a) log) as [[s1 ->] | ->]; [|reflexivity].
  destruct (read_point_sets_cases Mesh_Point "Error in defined end sets."
              (arg_end_sets a) log) as [[s2 ->] | ->]; [|reflexivity].
  unfold mexErrMsgTxt, mex_lift.
  destruct (store_visit_time settings); reflexivity.
Qed.

(** X17.  With [VERBOSE] off, a query prints at most one line, whatever the
    input and however the call ends: the warning that torsion is zero in a
    plane, and it prints that only for a mesh map of two dimensions with a
    nonzero torsion penalty.  (The log holds what [mexFunction] prints and,
    the edge-pair routine printing nothing with [VERBOSE] off, what a query
    on the edge-pair lifting prints.) *)
Theorem quiet_query_prints_at_most_the_warning (a : MexArguments)
    (log : list string) :
  arg_VERBOSE a = false ->
  let printed :=
    snd (mexFunction fl32 length_cost_functor curvature_cost_functor
           torsion_cost_functor shortest_path PieceWiseConstant
           edge_segmentation node_segmentation Mesh_Point sprintf reading_time
           a log) in
  (printed = log \/ printed = log ++ [torsion_warning]) /\
  (mat_ndim (arg_mesh_map a) <> 2 \/
   nonzero (torsion_penalty (arg_settings a)) = false ->
   printed = log).
Proof.
  intros Hquiet. cbn zeta.
  pose proof (check_arguments_log a log) as Hlog.
  unfold mexFunction, mex_bind.
  destruct (check_arguments a log) as [[checked | e] log'];
    cbn [snd] in Hlog; subst log'; [|split; [left|]; reflexivity].
  unfold downgrade_torsion.
  destruct (mat_ndim (arg_mesh_map a) =? 2) eqn:D;
    destruct (nonzero (torsion_penalty (arg_settings a))) eqn:T;
    cbn [andb]; unfold mex_bind, mexPrintf, mex_ret;
    rewrite (run_query_quiet a _ _ _ _ Hquiet); split; auto.
  intros [Hd | Hn]; [|discriminate Hn].
  apply Z.eqb_eq in D. contradiction.
Qed.

Lemma run_query_store_visit_time (a : MexArguments) (g : Grid)
    (voxeldimensions : list float) (settings : InstanceSettings)
    (log0 : list string) :
  store_visit_time settings = true ->
  (forall seg,
     fst (run_query fl32 length_cost_functor curvature_cost_functor
            torsion_cost_functor shortest_path PieceWiseConstant
            edge_segmentation node_segmentation Mesh_Point sprintf
            reading_time a g voxeldimensions settings log0) <> Ok seg) /\
  (forall start_sets end_sets log1 log2,
     read_point_sets Mesh_Point "Error in defined start sets."
       (arg_start_sets a) log1 = (Ok start_sets, log1) ->
     read_point_sets Mesh_Point "Error in defined end sets."
       (arg_end_sets a) log2 = (Ok end_sets, log2) ->
     fst (run_query fl32 length_cost_functor curvature_cost_functor
            torsion_cost_functor shortest_path PieceWiseConstant
            edge_segmentation node_segmentation Mesh_Point sprintf
            reading_time a g voxeldimensions settings log0)
     = Err (MexError "store_visit_time is not supported yet.")).
Proof.
  intros Hs. unfold run_query, mex_bind. rewrite Hs.
  unfold mex_when, mexPrintf, mex_ret, mexErrMsgTxt. split.
  - intros seg.
    destruct (arg_VERBOSE a);
      repeat match goal with
             | |- context [read_point_sets Mesh_Point ?m ?c ?l] =>
                 destruct (read_point_sets_cases Mesh_Point m c l) as [[? ->] | ->]
             end; discriminate.
  - intros s1 s2 log1 log2 H1 H2.
    destruct (arg_VERBOSE a);
      rewrite (read_point_sets_any_log _ _ _ _ _ H1),
              (read_point_sets_any_log _ _ _ _ _ H2); reflexivity.
Qed.

(** X18.  A query that asks for the visit times never succeeds: once the
    checks are passed and the extra point sets are read, the call ends with
    the message that visit times are not supported, and no segmentation
    routine is run. *)
Theorem store_visit_time_is_refused (a : MexArguments) (log : list string) :
  store_visit_time (arg_settings a) = true ->
  (forall seg,
     fst (mexFunction fl32 length_cost_functor curvature_cost_functor
            torsion_cost_functor shortest_path PieceWiseConstant
            edge_segmentation node_segmentation Mesh_Point sprintf reading_time a log)
     <> Ok seg) /\
  (forall checked start_sets end_sets log1 log2,
     check_arguments a log = (Ok checked, log) ->
     read_point_sets Mesh_Point "Error in defined start sets."
       (arg_start_sets a) log1 = (Ok start_sets, log1) ->
     read_point_sets Mesh_Point "Error in defined end sets."
       (arg_end_sets a) log2 = (Ok end_sets, log2) ->
     fst (mexFunction fl32 length_cost_functor curvature_cost_functor
            torsion_cost_functor shortest_path PieceWiseConstant
            edge_segmentation node_segmentation Mesh_Point sprintf reading_time a log)
     = Err (MexError "store_visit_time is not supported yet.")).
Proof.
  intros Hstore.
  unfold mexFunction, mex_bind. split.
  - intros seg.
    destruct (check_arguments a log) as [[checked | e] log']; [|discriminate].
    unfold downgrade_torsion.
    destruct (_ && _); unfold mex_bind, mexPrintf, mex_ret;
      apply run_query_store_visit_time; assumption.
  - intros checked start_sets end_sets log1 log2 -> H1 H2.
    unfold downgrade_torsion.
    destruct (_ && _); unfold mex_bind, mexPrintf, mex_ret;
      apply (fun H => proj2 (run_query_store_visit_time a _ _ _ _ H)
                        start_sets end_sets log1 log2 H1 H2);
      exact Hstore.
Qed.

End EntryPoint.

Lemma failed_check_ends_the_call_witness :
  Examples.find_path Examples.open_map Examples.zero_unary
    (mkMatrix 4 2 1 2 [1; -1; 0; 0;   0; 0; 1; -1])
  = (Err (AssertionFailed "connectivity.N == 3"), []) /\
  exists text,
    AssertionFailed "connectivity.N == 3" = AssertionFailed text \/
    AssertionFailed "connectivity.N == 3" = MexError text.
Proof.
  apply (failed_check_ends_the_call Examples.no_rounding Examples.per_move
           Examples.no_curvature Examples.no_torsion shortest_path_model
           Examples.zero_data Examples.no_routine Examples.no_routine
           Examples.point_of_doubles Examples.format_only 0%float
           (mkMexArguments 1 3 Examples.open_map Examples.zero_unary
              (mkMatrix 4 2 1 2 [1; -1; 0; 0;   0; 0; 1; -1])
              Examples.settings [] None None false) []).
  reflexivity.
Defined.

Lemma quiet_query_prints_at_most_the_warning_witness :
  let a := Examples.flat_arguments in
  let printed :=
    snd (mexFunction Examples.no_rounding Examples.per_move
           Examples.no_curvature Examples.no_torsion shortest_path_model
           Examples.zero_data Examples.echo_routine Examples.echo_routine
           Examples.point_of_doubles Examples.format_only 0%float a []) in
  (printed = [] \/ printed = [] ++ [torsion_warning]) /\
  (mat_ndim (arg_mesh_map a) <> 2 \/
   nonzero (torsion_penalty (arg_settings a)) = false ->
   printed = []).
Proof.
  apply (quiet_query_prints_at_most_the_warning Examples.no_rounding
           Examples.per_move Examples.no_curvature Examples.no_torsion
           shortest_path_model Examples.zero_data Examples.echo_routine
           Examples.echo_routine Examples.point_of_doubles
           Examples.format_only 0%float Examples.flat_arguments []).
  reflexivity.
Defined.

Lemma store_visit_time_is_refused_witness :
  let a :=
    mkMexArguments 1 3 Examples.open_map Examples.zero_unary Examples.moves
      (mkInstanceSettings 1%float 0%float 1%float 2%float 2%float 1%float
         true false) [] None None false in
  (forall seg,
     fst (mexFunction Examples.no_rounding Examples.per_move
            Examples.no_curvature Examples.no_torsion shortest_path_model
            Examples.zero_data Examples.no_routine Examples.no_routine
            Examples.point_of_doubles Examples.format_only 0%float a [])
     <> Ok seg) /\
  (forall checked start_sets end_sets log1 log2,
     check_arguments a [] = (Ok checked, []) ->
     read_point_sets Examples.point_of_doubles "Error in defined start sets."
       (arg_start_sets a) log1 = (Ok start_sets, log1) ->
     read_point_sets Examples.point_of_doubles "Error in defined end sets."
       (arg_end_sets a) log2 = (Ok end_sets, log2) ->
     fst (mexFunction Examples.no_rounding Examples.per_move
            Examples.no_curvature Examples.no_torsion shortest_path_model
            Examples.zero_data Examples.no_routine Examples.no_routine
            Examples.point_of_doubles Examples.format_only 0%float a [])
     = Err (MexError "store_visit_time is not supported yet.")).
Proof.
  apply (store_visit_time_is_refused Examples.no_rounding Examples.per_move
           Examples.no_curvature Examples.no_torsion shortest_path_model
           Examples.zero_data Examples.no_routine Examples.no_routine
           Examples.point_of_doubles Examples.format_only 0%float
           (mkMexArguments 1 3 Examples.open_map Examples.zero_unary
              Examples.moves
              (mkInstanceSettings 1%float 0%float 1%float 2%float 2%float
                 1%float true false) [] None None false) []).
  reflexivity.
Defined.

(** X20.  On a mesh map of two dimensions the edge-pair routine is never
    run: the outcome of the call and what it prints are the same whatever
    the search routine, the narrowing to single precision and the three
    cost functors of the edge-pair routine are. *)
Theorem planar_query_runs_no_edgepair_search
    (fl32 fl32' : float -> float)
    (length_cost_functor length_cost_functor' : list float -> float -> Segment)
    (curvature_cost_functor curvature_cost_functor'
       : list float -> float -> float -> Triple)
    (torsion_cost_functor torsion_cost_functor'
       : list float -> float -> float -> Quadruple)
    (shortest_path shortest_path' : ShortestPath)
    (PieceWiseConstant : list float -> Z -> Z -> Z -> list float -> Segment)
    (edge_segmentation node_segmentation : SegmentationRoutine)
    (Mesh_Point : float -> float -> float -> Point)
    (sprintf : string -> list PrintfArg -> string) (reading_time : float)
    (a : MexArguments) (log : list string) :
  mat_ndim (arg_mesh_map a) = 2 ->
  mexFunction fl32 length_cost_functor curvature_cost_functor
    torsion_cost_functor shortest_path PieceWiseConstant edge_segmentation
    node_segmentation Mesh_Point sprintf reading_time a log
  = mexFunction fl32' length_cost_functor' curvature_cost_functor'
      torsion_cost_functor' shortest_path' PieceWiseConstant edge_segmentation
      node_segmentation Mesh_Point sprintf reading_time a log.
Proof.
  intros Hdim.
  assert (Hrun : forall g voxeldimensions settings log0,
             use_pairs settings = false ->
             run_query fl32 length_cost_functor curvature_cost_functor
               torsion_cost_functor shortest_path PieceWiseConstant
               edge_segmentation node_segmentation Mesh_Point sprintf reading_time a g
               voxeldimensions settings log0
             = run_query fl32' length_cost_functor' curvature_cost_functor'
                 torsion_cost_functor' shortest_path' PieceWiseConstant
                 edge_segmentation node_segmentation Mesh_Point sprintf reading_time a g
                 voxeldimensions settings log0).
  { intros g voxeldimensions settings log0 Hpairs.
    unfold run_query, run_lifting. rewrite Hpairs. reflexivity. }
  unfold mexFunction, mex_bind.
  destruct (check_arguments a log) as [[checked | e] log']; [|reflexivity].
  unfold downgrade_torsion. rewrite Hdim. cbn [Z.eqb Pos.eqb andb].
  destruct (nonzero (torsion_penalty (arg_settings a))) eqn:T;
    unfold mex_bind, mexPrintf, mex_ret; apply Hrun.
  - reflexivity.
  - unfold use_pairs. rewrite T. reflexivity.
Qed.

Lemma planar_query_runs_no_edgepair_search_witness :
  mexFunction Examples.no_rounding Examples.per_move Examples.no_curvature
    Examples.no_torsion shortest_path_model Examples.zero_data
    Examples.echo_routine Examples.echo_routine Examples.point_of_doubles Examples.format_only 0%float
    Examples.flat_arguments []
  = mexFunction (fun _ => 0%float) Examples.per_move Examples.no_curvature
      Examples.no_torsion (fun _ _ _ _ _ => Err ResourceExhausted)
      Examples.zero_data Examples.echo_routine Examples.echo_routine
      Examples.point_of_doubles Examples.format_only 0%float Examples.flat_arguments [].
Proof.
  apply (planar_query_runs_no_edgepair_search Examples.no_rounding
           (fun _ => 0%float) Examples.per_move Examples.per_move
           Examples.no_curvature Examples.no_curvature Examples.no_torsion
           Examples.no_torsion shortest_path_model
           (fun _ _ _ _ _ => Err ResourceExhausted) Examples.zero_data
           Examples.echo_routine Examples.echo_routine
           Examples.point_of_doubles Examples.format_only 0%float Examples.flat_arguments []).
  reflexivity.
Defined.

(** ** Further properties of the local refinement *)

Section RefinementOutcome.

Import LocalOptimization.

Variable minimise : SolverSetup -> Objective -> list Point.
Variable evaluate : Objective -> float.





End RefinementOutcome.


Section RefinementObjective.

Import LocalOptimization.

Variable minimise : SolverSetup -> Objective -> list Point.
Variable evaluate : Objective -> float.

Lemma mark_constant_flags (point_at : Z -> Point) (lower upper : list float)
    (m : nat) :
  forall (a k : nat) (flag : Z -> bool),
    mark_constant k
      (map (fun i => mkVar (point_at i) lower upper (flag i))
           (map Z.of_nat (seq a m)))
    = map (fun i => mkVar (point_at i) lower upper
                      (flag i || (i =? Z.of_nat (a + k))))
          (map Z.of_nat (seq a m)).
Proof.
  induction m as [|m IH]; intros a k flag; [destruct k; reflexivity|].
  cbn [seq map]. destruct k as [|k]; cbn [mark_constant].
  - f_equal.
    + rewrite Nat.add_0_r, Z.eqb_refl, orb_true_r. reflexivity.
    + apply map_ext_in. intros i Hi.
      apply in_map_iff in Hi. destruct Hi as (j & <- & Hj).
      apply in_seq in Hj.
      replace (Z.of_nat j =? Z.of_nat (a + 0)) with false
        by (symmetry; apply Z.eqb_neq; lia).
      rewrite orb_false_r. reflexivity.
  - f_equal.
    + replace (Z.of_nat a =? Z.of_nat (a + S k)) with false
        by (symmetry; apply Z.eqb_neq; lia).
      rewrite orb_false_r. reflexivity.
    + rewrite IH. apply map_ext. intros i.
      replace (S a + k)%nat with (a + S k)%nat by lia. reflexivity.
Qed.

Lemma set_constant_flags (f f' : Objective) (point_at : Z -> Point)
    (lower upper : list float) (flag : Z -> bool) (n i : Z) :
  variables f
  = map (fun i => mkVar (point_at i) lower upper (flag i)) (zseq n) ->
  set_constant f i = Ok f' ->
  variables f'
  = map (fun j => mkVar (point_at j) lower upper (flag j || (j =? i)))
        (zseq n) /\
  terms f' = terms f.
Proof.
  intros Hvars Hset.
  destruct (set_constant_ok f f' i Hset) as (Hi & -> & Hterms).
  split; [|exact Hterms].
  rewrite Hvars. unfold zseq. rewrite mark_constant_flags.
  apply map_ext. intros j. cbn [Nat.add]. rewrite Z2Nat.id by lia.
  reflexivity.
Qed.

Lemma add_terms_terms (first n : Z) (term_at : Z -> Term) (f : Objective) :
  terms (add_terms first n term_at f)
  = terms f ++ map (fun k => term_at (first + k)) (zseq (n - first)).
Proof.
  unfold add_terms. generalize (zseq (n - first)). intros l.
  revert f. induction l as [|k l IH]; intros f; cbn [fold_left map].
  - rewrite app_nil_r. reflexivity.
  - rewrite IH. cbn [add_term terms]. rewrite <- app_assoc. reflexivity.
Qed.

(** What a run that returns has built and solved (lines 223-365). *)
Lemma mexFunction_main_objective (unary_matrix path : matrix float)
    (params : Params) (settings : InstanceSettings) (r : Refinement) :
  mexFunction_main minimise evaluate unary_matrix path params settings = Ok r ->
  let n := mat_M path in
  let lower :=
    if mat_O unary_matrix =? 1
    then [0%float; 0%float; PrimFloat.opp 1%float]
    else [0%float; 0%float; 0%float] in
  let upper :=
    if mat_O unary_matrix =? 1
    then [double_of_int (mat_M unary_matrix - 1);
          double_of_int (mat_N unary_matrix - 1); 1%float]
    else [double_of_int (mat_M unary_matrix - 1);
          double_of_int (mat_N unary_matrix - 1);
          double_of_int (mat_O unary_matrix - 1)] in
  exists setup f1 f2 f3 f4,
    set_constant
      (for_loop n
         (fun i f =>
            add_variable_with_change f (initial_point unary_matrix path i)
              lower upper)
         (mkObjective [] [])) 0 = Ok f1 /\
    set_constant f1 1 = Ok f2 /\
    set_constant f2 (n - 2) = Ok f3 /\
    set_constant f3 (n - 1) = Ok f4 /\
    (method setup = newton \/ method setup = lbfgs) /\
    maximum_iterations setup = maxiter params /\
    function_tolerance setup = function_improvement_tolerance params /\
    argument_tolerance setup = argument_improvement_tolerance params /\
    let f5 := add_terms 1 n (fun i => UnaryTerm (i - 1) i) f4 in
    let f6 :=
      if PrimFloat.ltb 0%float (length_penalty settings)
      then add_terms 1 n (fun i => LengthTerm (i - 1) i) f5
      else f5 in
    let f7 :=
      if PrimFloat.ltb 0%float (curvature_penalty settings)
      then add_terms 2 n (fun i => CurvatureTerm (i - 2) (i - 1) i) f6
      else f6 in
    let f8 :=
      if PrimFloat.ltb 0%float (torsion_penalty settings)
      then add_terms 3 n (fun i => TorsionTerm (i - 3) (i - 2) (i - 1) i) f7
      else f7 in
    r = mkRefinement
          (map (fun v => resulting_row (value v))
               (variables (solve minimise setup f8)))
          (mat_N path) (evaluate (solve minimise setup f8)).
Proof.
  intros H n lower upper.
  destruct (mexFunction_main_run minimise evaluate _ _ _ _ _ H)
    as (setup & f1 & f2 & f3 & f4 & H1 & H2 & H3 & H4 & Hm & Hi & Hf & Ha
        & _ & _ & _ & _ & Hr).
  exists setup, f1, f2, f3, f4.
  split; [exact H1|]. split; [exact H2|]. split; [exact H3|].
  split; [exact H4|]. split; [exact Hm|]. split; [exact Hi|].
  split; [exact Hf|]. split; [exact Ha|]. exact Hr.
Qed.

(** X22.  In a run that returns, every point of the path is one variable of
    the objective, in order, holding the point as it was read in; exactly the
    first two and the last two are held constant; all share one box, from 0
    to the size of the image less one in each direction, and from -1 to 1 in
    the third direction for an image of a single slice. *)
Theorem refinement_variables (unary_matrix path : matrix float)
    (params : Params) (settings : InstanceSettings) (r : Refinement) :
  mexFunction minimise evaluate unary_matrix path params settings = Ok r ->
  let n := mat_M path in
  exists setup f,
    resulting_path r
    = map (fun v => resulting_row (value v))
          (variables (solve minimise setup f)) /\
    o_cost r = evaluate (solve minimise setup f) /\
    variables f
    = map (fun i =>
             mkVar (initial_point unary_matrix path i)
               (if mat_O unary_matrix =? 1
                then [0%float; 0%float; PrimFloat.opp 1%float]
                else [0%float; 0%float; 0%float])
               (if mat_O unary_matrix =? 1
                then [double_of_int (mat_M unary_matrix - 1);
                      double_of_int (mat_N unary_matrix - 1); 1%float]
                else [double_of_int (mat_M unary_matrix - 1);
                      double_of_int (mat_N unary_matrix - 1);
                      double_of_int (mat_O unary_matrix - 1)])
               ((i =? 0) || (i =? 1) || (i =? n - 2) || (i =? n - 1)))
          (zseq n).
Proof.
  intros H n. apply mexFunction_ok in H.
  destruct (mexFunction_main_objective _ _ _ _ _ H)
    as (setup & f1 & f2 & f3 & f4 & H1 & H2 & H3 & H4 & _ & _ & _ & _ & Hr).
  cbn zeta in Hr. fold n in H1, H3, H4, Hr.
  match type of Hr with
  | _ = mkRefinement _ _ (evaluate (solve minimise setup ?f8)) =>
      exists setup, f8; set (final := f8) in *
  end.
  rewrite Hr. cbn [resulting_path o_cost].
  split; [reflexivity|]. split; [reflexivity|].
  assert (Efinal : variables final = variables f4).
  { subst final.
    repeat match goal with
           | |- context [if PrimFloat.ltb ?a ?b then _ else _] =>
               destruct (PrimFloat.ltb a b)
           end;
    rewrite ?add_terms_variables; reflexivity. }
  rewrite Efinal.
  match type of H1 with
  | set_constant ?f0 _ = _ =>
      pose proof (initial_variables n (initial_point unary_matrix path)
                    (if mat_O unary_matrix =? 1
                     then [0%float; 0%float; PrimFloat.opp 1%float]
                     else [0%float; 0%float; 0%float])
                    (if mat_O unary_matrix =? 1
                     then [double_of_int (mat_M unary_matrix - 1);
                           double_of_int (mat_N unary_matrix - 1); 1%float]
                     else [double_of_int (mat_M unary_matrix - 1);
                           double_of_int (mat_N unary_matrix - 1);
                           double_of_int (mat_O unary_matrix - 1)])) as V0
  end.
  destruct (set_constant_flags _ _ _ _ _ _ _ _ V0 H1) as (V1 & _).
  destruct (set_constant_flags _ _ _ _ _ _ _ _ V1 H2) as (V2 & _).
  destruct (set_constant_flags _ _ _ _ _ _ _ _ V2 H3) as (V3 & _).
  destruct (set_constant_flags _ _ _ _ _ _ _ _ V3 H4) as (V4 & _).
  rewrite V4. apply map_ext. intros i. reflexivity.
Qed.

(** X23.  In a run that returns, the terms of the objective are, in order:
    one data term for every two consecutive points; then, each only when its
    penalty is above zero, one length term for every two consecutive points,
    one curvature term for every three and one torsion term for every four.
    Every term is attached to variables that exist. *)
Theorem refinement_terms (unary_matrix path : matrix float)
    (params : Params) (settings : InstanceSettings) (r : Refinement) :
  mexFunction minimise evaluate unary_matrix path params settings = Ok r ->
  let n := mat_M path in
  exists setup f,
    resulting_path r
    = map (fun v => resulting_row (value v))
          (variables (solve minimise setup f)) /\
    o_cost r = evaluate (solve minimise setup f) /\
    terms f
    = map (fun k => UnaryTerm k (k + 1)) (zseq (n - 1))
      ++ (if PrimFloat.ltb 0%float (length_penalty settings)
          then map (fun k => LengthTerm k (k + 1)) (zseq (n - 1))
          else [])
      ++ (if PrimFloat.ltb 0%float (curvature_penalty settings)
          then map (fun k => CurvatureTerm k (k + 1) (k + 2)) (zseq (n - 2))
          else [])
      ++ (if PrimFloat.ltb 0%float (torsion_penalty settings)
          then map (fun k => TorsionTerm k (k + 1) (k + 2) (k + 3))
                   (zseq (n - 3))
          else []) /\
    Forall (fun t => Forall (fun i => 0 <= i < n) (term_points t)) (terms f).
Proof.
  intros H n. apply mexFunction_ok in H.
  destruct (mexFunction_main_objective _ _ _ _ _ H)
    as (setup & f1 & f2 & f3 & f4 & H1 & H2 & H3 & H4 & _ & _ & _ & _ & Hr).
  cbn zeta in Hr. fold n in H1, H3, H4, Hr.
  match type of Hr with
  | _ = mkRefinement _ _ (evaluate (solve minimise setup ?f8)) =>
      exists setup, f8; set (final := f8) in *
  end.
  rewrite Hr. cbn [resulting_path o_cost].
  split; [reflexivity|]. split; [reflexivity|].
  assert (T4 : terms f4 = []).
  { destruct (set_constant_ok _ _ _ H1) as (_ & _ & T1).
    destruct (set_constant_ok _ _ _ H2) as (_ & _ & T2).
    destruct (set_constant_ok _ _ _ H3) as (_ & _ & T3).
    destruct (set_constant_ok _ _ _ H4) as (_ & _ & T4).
    rewrite T4, T3, T2, T1.
    apply (for_loop_invariant (fun f => terms f = [])); [reflexivity|].
    intros i f _ Hf. exact Hf. }
  assert (Eterms :
            terms final
            = map (fun k => UnaryTerm k (k + 1)) (zseq (n - 1))
              ++ (if PrimFloat.ltb 0%float (length_penalty settings)
                  then map (fun k => LengthTerm k (k + 1)) (zseq (n - 1))
                  else [])
              ++ (if PrimFloat.ltb 0%float (curvature_penalty settings)
                  then map (fun k => CurvatureTerm k (k + 1) (k + 2))
                           (zseq (n - 2))
                  else [])
              ++ (if PrimFloat.ltb 0%float (torsion_penalty settings)
                  then map (fun k => TorsionTerm k (k + 1) (k + 2) (k + 3))
                           (zseq (n - 3))
                  else [])).
  { subst final.
    destruct (PrimFloat.ltb 0%float (length_penalty settings));
      destruct (PrimFloat.ltb 0%float (curvature_penalty settings));
      destruct (PrimFloat.ltb 0%float (torsion_penalty settings));
      rewrite ?add_terms_terms, T4; cbn beta; cbn [app];
      rewrite ?app_nil_r, <- ?app_assoc;
      rewrite ?(map_ext (fun k => UnaryTerm (1 + k - 1) (1 + k))
                  (fun k => UnaryTerm k (k + 1)))
        by (intros k; f_equal; lia);
      rewrite ?(map_ext (fun k => LengthTerm (1 + k - 1) (1 + k))
                  (fun k => LengthTerm k (k + 1)))
        by (intros k; f_equal; lia);
      rewrite ?(map_ext (fun k => CurvatureTerm (2 + k - 2) (2 + k - 1) (2 + k))
                  (fun k => CurvatureTerm k (k + 1) (k + 2)))
        by (intros k; f_equal; lia);
      rewrite ?(map_ext
                  (fun k => TorsionTerm (3 + k - 3) (3 + k - 2) (3 + k - 1)
                              (3 + k))
                  (fun k => TorsionTerm k (k + 1) (k + 2) (k + 3)))
        by (intros k; f_equal; lia);
      reflexivity. }
  split; [exact Eterms|].
  rewrite Eterms. rewrite !Forall_app.
  repeat match goal with
         | |- context [if PrimFloat.ltb ?a ?b then _ else _] =>
             destruct (PrimFloat.ltb a b)
         end;
  repeat split; try apply Forall_nil;
  apply Forall_forall; intros t Ht; apply in_map_iff in Ht;
  destruct Ht as (k & <- & Hk); apply In_zseq in Hk; cbn [term_points];
  repeat (apply Forall_cons; [lia|]); apply Forall_nil.
Qed.

End RefinementObjective.

Lemma refinement_variables_witness :
  exists setup f,
    LocalExamples.five_rows
    = map (fun v => LocalOptimization.resulting_row (LocalOptimization.value v))
          (LocalOptimization.variables
             (LocalOptimization.solve LocalExamples.to_the_middle setup f)) /\
    0%float
    = LocalExamples.no_value
        (LocalOptimization.solve LocalExamples.to_the_middle setup f) /\
    LocalOptimization.variables f
    = map (fun i =>
             LocalOptimization.mkVar
               (LocalOptimization.initial_point LocalExamples.unary_matrix
                  LocalExamples.five_points i)
               [0%float; 0%float; 0%float] [4%float; 4%float; 4%float]
               ((i =? 0) || (i =? 1) || (i =? 5 - 2) || (i =? 5 - 1)))
          (zseq 5).
Proof.
  apply (refinement_variables LocalExamples.to_the_middle
           LocalExamples.no_value LocalExamples.unary_matrix
           LocalExamples.five_points LocalExamples.params
           LocalExamples.settings
           (LocalOptimization.mkRefinement LocalExamples.five_rows 3 0%float)).
  vm_compute. reflexivity.
Defined.

Lemma refinement_terms_witness :
  exists setup f,
    LocalExamples.five_rows
    = map (fun v => LocalOptimization.resulting_row (LocalOptimization.value v))
          (LocalOptimization.variables
             (LocalOptimization.solve LocalExamples.to_the_middle setup f)) /\
    0%float
    = LocalExamples.no_value
        (LocalOptimization.solve LocalExamples.to_the_middle setup f) /\
    LocalOptimization.terms f
    = map (fun k => LocalOptimization.UnaryTerm k (k + 1)) (zseq (5 - 1))
      ++ map (fun k => LocalOptimization.LengthTerm k (k + 1)) (zseq (5 - 1))
      ++ map (fun k => LocalOptimization.CurvatureTerm k (k + 1) (k + 2))
             (zseq (5 - 2))
      ++ map (fun k => LocalOptimization.TorsionTerm k (k + 1) (k + 2) (k + 3))
             (zseq (5 - 3)) /\
    Forall (fun t => Forall (fun i => 0 <= i < 5) (term_points t))
      (LocalOptimization.terms f).
Proof.
  apply (refinement_terms LocalExamples.to_the_middle
           LocalExamples.no_value LocalExamples.unary_matrix
           LocalExamples.five_points LocalExamples.params
           LocalExamples.settings
           (LocalOptimization.mkRefinement LocalExamples.five_rows 3 0%float)).
  vm_compute. reflexivity.
Defined.

(** ** The margins of the points read in *)

Lemma SFcompare_antisym (a b : spec_float) (c : comparison) :
  SFcompare a b = Some c -> SFcompare b a = Some (CompOpp c).
Proof.
  destruct a as [s1|s1| |s1 m1 e1], b as [s2|s2| |s2 m2 e2]; cbn;
    try discriminate;
    try (intros H; injection H as <-;
         repeat match goal with s : bool |- _ => destruct s end;
         reflexivity).
  intros H; injection H as <-. f_equal.
  rewrite (Z.compare_antisym e1 e2).
  change (Pos.compare_cont Eq m2 m1) with (Pos.compare m2 m1).
  change (Pos.compare_cont Eq m1 m2) with (Pos.compare m1 m2).
  rewrite (Pos.compare_antisym m1 m2).
  destruct s1, s2, (e1 ?= e2), (m1 ?= m2)%positive; reflexivity.
Qed.

Lemma SFcompare_refl (a : spec_float) :
  a <> S754_nan -> SFcompare a a = Some Eq.
Proof.
  destruct a as [s|s| |s m e]; cbn; intros H.
  - reflexivity.
  - destruct s; reflexivity.
  - contradiction.
  - rewrite Z.compare_refl.
    change (Pos.compare_cont Eq m m) with (Pos.compare m m).
    rewrite Pos.compare_refl. destruct s; reflexivity.
Qed.

Lemma SFcompare_defined (a b : spec_float) :
  a <> S754_nan -> b <> S754_nan -> exists c, SFcompare a b = Some c.
Proof.
  destruct a, b; cbn; intros Ha Hb; try contradiction; eexists; reflexivity.
Qed.

Lemma is_nan_false (x : float) :
  PrimFloat.is_nan x = false <-> Prim2SF x <> S754_nan.
Proof.
  unfold PrimFloat.is_nan. rewrite eqb_spec. unfold SFeqb. split.
  - intros H E. rewrite E in H. discriminate H.
  - intros H. rewrite (SFcompare_refl _ H). reflexivity.
Qed.

(** [!(x < y)] gives [y <= x] on doubles that are not NaN. *)
Lemma not_ltb_leb (x y : float) :
  PrimFloat.is_nan x = false -> PrimFloat.is_nan y = false ->
  PrimFloat.ltb x y = false -> PrimFloat.leb y x = true.
Proof.
  rewrite !is_nan_false, ltb_spec, leb_spec. unfold SFltb, SFleb.
  intros Hx Hy.
  destruct (SFcompare_defined _ _ Hx Hy) as (c & Hc).
  rewrite Hc, (SFcompare_antisym _ _ _ Hc).
  destruct c; cbn; intros H; first [reflexivity | discriminate H].
Qed.

Lemma leb_not_ltb (x y : float) :
  PrimFloat.leb x y = true -> PrimFloat.ltb y x = false.
Proof.
  rewrite ltb_spec, leb_spec. unfold SFltb, SFleb.
  destruct (SFcompare (Prim2SF x) (Prim2SF y)) as [c|] eqn:Hc;
    [|discriminate].
  rewrite (SFcompare_antisym _ _ _ Hc).
  destruct c; cbn; intros H; first [reflexivity | discriminate H].
Qed.

Lemma leb_not_nan (x y : float) :
  PrimFloat.leb x y = true ->
  PrimFloat.is_nan x = false /\ PrimFloat.is_nan y = false.
Proof.
  rewrite leb_spec, !is_nan_false. unfold SFleb.
  destruct (Prim2SF x), (Prim2SF y); cbn; intros H;
    first [discriminate H | split; discriminate].
Qed.

Lemma leb_refl (x : float) :
  PrimFloat.is_nan x = false -> PrimFloat.leb x x = true.
Proof.
  rewrite is_nan_false, leb_spec. unfold SFleb. intros H.
  rewrite (SFcompare_refl _ H). reflexivity.
Qed.

(** [min(max(x, low), high)] as lines 249-255 compute it. *)
Lemma clamp_in_margins (x low high : float) :
  PrimFloat.is_nan x = false ->
  PrimFloat.leb low high = true ->
  PrimFloat.leb low
    (LocalOptimization.std_min (LocalOptimization.std_max x low) high) = true /\
  PrimFloat.leb
    (LocalOptimization.std_min (LocalOptimization.std_max x low) high) high
  = true.
Proof.
  intros Hx Hlh.
  destruct (leb_not_nan _ _ Hlh) as (Hlow & Hhigh).
  unfold LocalOptimization.std_min, LocalOptimization.std_max.
  destruct (PrimFloat.ltb x low) eqn:E1.
  - rewrite (leb_not_ltb _ _ Hlh). split; [apply leb_refl; exact Hlow|].
    exact Hlh.
  - destruct (PrimFloat.ltb high x) eqn:E2.
    + split; [exact Hlh | apply leb_refl; exact Hhigh].
    + split; apply not_ltb_leb; assumption.
Qed.

(** X24.  Where the image is wide enough for the two margins and the
    coordinate read from the path is a number, the point the refinement
    starts from lies between the margin 0.1 and the size of the image less
    1.1, in each of the three directions. *)
Theorem initial_point_in_margins (unary_matrix path : matrix float) (i : Z) :
  let p := LocalOptimization.initial_point unary_matrix path i in
  let raw := fun j => PrimFloat.sub (mat_get PrimFloat.nan path i j 0) 1%float in
  let top := fun size =>
    PrimFloat.sub
      (PrimFloat.sub (LocalOptimization.double_of_int size) 1%float)
      LocalOptimization.magic_one_offset in
  PrimFloat.is_nan (raw 0) = false ->
  PrimFloat.is_nan (raw 1) = false ->
  PrimFloat.is_nan (raw 2) = false ->
  PrimFloat.leb LocalOptimization.magic_one_offset (top (mat_M unary_matrix))
  = true ->
  PrimFloat.leb LocalOptimization.magic_one_offset (top (mat_N unary_matrix))
  = true ->
  PrimFloat.leb LocalOptimization.magic_one_offset (top (mat_O unary_matrix))
  = true ->
  (PrimFloat.leb LocalOptimization.magic_one_offset (LocalOptimization.xyz0 p)
     = true /\
   PrimFloat.leb (LocalOptimization.xyz0 p) (top (mat_M unary_matrix)) = true) /\
  (PrimFloat.leb LocalOptimization.magic_one_offset (LocalOptimization.xyz1 p)
     = true /\
   PrimFloat.leb (LocalOptimization.xyz1 p) (top (mat_N unary_matrix)) = true) /\
  (PrimFloat.leb LocalOptimization.magic_one_offset (LocalOptimization.xyz2 p)
     = true /\
   PrimFloat.leb (LocalOptimization.xyz2 p) (top (mat_O unary_matrix)) = true).
Proof.
  intros p raw top H0 H1 H2 HM HN HO.
  subst p. unfold LocalOptimization.initial_point.
  cbn [LocalOptimization.xyz0 LocalOptimization.xyz1 LocalOptimization.xyz2].
  split; [|split].
  - exact (clamp_in_margins (raw 0) _ _ H0 HM).
  - exact (clamp_in_margins (raw 1) _ _ H1 HN).
  - exact (clamp_in_margins (raw 2) _ _ H2 HO).
Qed.

Lemma initial_point_in_margins_witness :
  let p :=
    LocalOptimization.initial_point LocalExamples.unary_matrix
      LocalExamples.five_points 0 in
  (PrimFloat.leb LocalOptimization.magic_one_offset (LocalOptimization.xyz0 p)
     = true /\
   PrimFloat.leb (LocalOptimization.xyz0 p)
     (PrimFloat.sub (PrimFloat.sub (LocalOptimization.double_of_int 5) 1%float)
        LocalOptimization.magic_one_offset) = true) /\
  (PrimFloat.leb LocalOptimization.magic_one_offset (LocalOptimization.xyz1 p)
     = true /\
   PrimFloat.leb (LocalOptimization.xyz1 p)
     (PrimFloat.sub (PrimFloat.sub (LocalOptimization.double_of_int 5) 1%float)
        LocalOptimization.magic_one_offset) = true) /\
  (PrimFloat.leb LocalOptimization.magic_one_offset (LocalOptimization.xyz2 p)
     = true /\
   PrimFloat.leb (LocalOptimization.xyz2 p)
     (PrimFloat.sub (PrimFloat.sub (LocalOptimization.double_of_int 5) 1%float)
        LocalOptimization.magic_one_offset) = true).
Proof.
  apply (initial_point_in_margins LocalExamples.unary_matrix
           LocalExamples.five_points 0); vm_compute; reflexivity.
Defined.

(** X25.  For an image of a single slice the upper margin of the third
    direction, -0.1, lies below the lower one, and it wins: whatever number
    the path holds there, the point the refinement starts from has the third
    coordinate -0.1, outside the margins though inside the box from -1 to 1
    given to the solver. *)
Theorem single_slice_depth (unary_matrix path : matrix float) (i : Z) :
  mat_O unary_matrix = 1 ->
  PrimFloat.is_nan
    (PrimFloat.sub (mat_get PrimFloat.nan path i 2 0) 1%float) = false ->
  LocalOptimization.xyz2 (LocalOptimization.initial_point unary_matrix path i)
  = PrimFloat.opp LocalOptimization.magic_one_offset /\
  PrimFloat.ltb
    (LocalOptimization.xyz2 (LocalOptimization.initial_point unary_matrix path i))
    LocalOptimization.magic_one_offset = true.
Proof.
  intros HO Hz.
  assert (Etop : PrimFloat.sub
                   (PrimFloat.sub (LocalOptimization.double_of_int 1) 1%float)
                   LocalOptimization.magic_one_offset
                 = PrimFloat.opp LocalOptimization.magic_one_offset)
    by (vm_compute; reflexivity).
  assert (Emagic : Prim2SF LocalOptimization.magic_one_offset
                   = S754_finite false 7205759403792794 (-56))
    by (vm_compute; reflexivity).
  assert (Eopp : Prim2SF (PrimFloat.opp LocalOptimization.magic_one_offset)
                 = S754_finite true 7205759403792794 (-56))
    by (vm_compute; reflexivity).
  assert (Ebelow : PrimFloat.ltb
                     (PrimFloat.opp LocalOptimization.magic_one_offset)
                     LocalOptimization.magic_one_offset = true)
    by (vm_compute; reflexivity).
  assert (E : LocalOptimization.xyz2
                (LocalOptimization.initial_point unary_matrix path i)
              = PrimFloat.opp LocalOptimization.magic_one_offset).
  { unfold LocalOptimization.initial_point. cbn [LocalOptimization.xyz2].
    rewrite HO, Etop.
    set (z := PrimFloat.sub (mat_get PrimFloat.nan path i 2 0) 1%float) in *.
    unfold LocalOptimization.std_min, LocalOptimization.std_max.
    destruct (PrimFloat.ltb z LocalOptimization.magic_one_offset) eqn:E1.
    - rewrite Ebelow. reflexivity.
    - replace (PrimFloat.ltb (PrimFloat.opp LocalOptimization.magic_one_offset) z)
        with true; [reflexivity|].
      symmetry. apply is_nan_false in Hz.
      rewrite ltb_spec in E1 |- *.
      rewrite Emagic in E1. rewrite Eopp.
      destruct (Prim2SF z) as [[|]|[|]| |[|] m e];
        unfold SFltb, SFcompare in E1 |- *;
        first [reflexivity | discriminate E1 | contradiction]. }
  split; [exact E|]. rewrite E. exact Ebelow.
Qed.

Lemma single_slice_depth_witness :
  LocalOptimization.xyz2
    (LocalOptimization.initial_point (mkMatrix 5 5 1 2 (repeat 0%float 25))
       LocalExamples.five_points 2)
  = PrimFloat.opp LocalOptimization.magic_one_offset /\
  PrimFloat.ltb
    (LocalOptimization.xyz2
       (LocalOptimization.initial_point (mkMatrix 5 5 1 2 (repeat 0%float 25))
          LocalExamples.five_points 2))
    LocalOptimization.magic_one_offset = true.
Proof.
  apply (single_slice_depth (mkMatrix 5 5 1 2 (repeat 0%float 25))
           LocalExamples.five_points 2); reflexivity.
Defined.

(** ** Decoding works on linear indices *)

